(** * arachnid: view classifier (ViCer) statistics core

    A shallow embedding of the numerical core of
    [arachnid/core/image/analysis.py] and of the view driver in
    [arachnid/app/diffclean.py], with the properties of the specification
    stated and settled against it.

    Numbers.  NumPy's float64 is modelled by [float64]: exact rationals for
    the finite values, together with the three IEEE special values that the
    code can observe ([numpy.isfinite], comparisons with nan, division by
    zero).  Rounding and signed zeros are not modelled: finite arithmetic
    is exact.

    Language.  The code is Python 2: [/] on two integers is floor
    division, [xrange] is the integer range.  A raised exception, a failed
    [assert] included, is the result [None].

    Library routines.  NumPy, SciPy and scikit-learn routines that the
    repository only calls (median, std, log, gammaln, svd, the covariance
    estimators, the chi-squared quantile) are fields of the classes
    [NumPy], [SciPy] and [SkLearn]; the facts used about them are section
    hypotheses.  Module [Ref] gives a computable instance on which the
    model runs. *)

From Stdlib Require Import ZArith QArith Qround Qabs Qreduction Qfield Lia Lqa Bool.
From stdpp Require Import base list gmap strings sorting.

Local Open Scope Z_scope.

(** ** float64: rationals with IEEE special values *)

Inductive float64 : Type :=
| Fin (q : Q)
| PInf
| NInf
| NaN.

Definition of_Z (z : Z) : float64 := Fin (inject_Z z).
Definition of_nat (n : nat) : float64 := of_Z (Z.of_nat n).

Definition isfinite (x : float64) : bool :=
  match x with Fin _ => true | _ => false end.

Definition isnan (x : float64) : bool :=
  match x with NaN => true | _ => false end.

Definition Qsgn (q : Q) : Z := Z.sgn (Qnum q).

Definition fneg (x : float64) : float64 :=
  match x with
  | Fin q => Fin (Qred (- q))
  | PInf => NInf
  | NInf => PInf
  | NaN => NaN
  end.

Definition fadd (x y : float64) : float64 :=
  match x, y with
  | NaN, _ | _, NaN => NaN
  | Fin a, Fin b => Fin (Qred (a + b))
  | PInf, NInf | NInf, PInf => NaN
  | PInf, _ | _, PInf => PInf
  | NInf, _ | _, NInf => NInf
  end.

Definition fsub (x y : float64) : float64 :=
  match x, y with
  | NaN, _ | _, NaN => NaN
  | Fin a, Fin b => Fin (Qred (a - b))
  | PInf, PInf | NInf, NInf => NaN
  | PInf, _ | _, NInf => PInf
  | NInf, _ | _, PInf => NInf
  end.

(** Sign of a float, [None] for nan. *)
Definition fsign (x : float64) : option Z :=
  match x with
  | Fin q => Some (Qsgn q)
  | PInf => Some 1
  | NInf => Some (-1)
  | NaN => None
  end.

Definition inf_of_sign (s : Z) : float64 :=
  if s =? 0 then NaN else if 0 <? s then PInf else NInf.

Definition fmul (x y : float64) : float64 :=
  match x, y with
  | Fin a, Fin b => Fin (Qred (a * b))
  | _, _ =>
      match fsign x, fsign y with
      | Some s, Some t => inf_of_sign (s * t)
      | _, _ => NaN
      end
  end.

(** NumPy division: a finite non-zero value over zero is an infinity, zero
    over zero and inf over inf are nan (signed zeros are not tracked). *)
Definition fdiv (x y : float64) : float64 :=
  match x, y with
  | NaN, _ | _, NaN => NaN
  | Fin a, Fin b =>
      if Qsgn b =? 0 then inf_of_sign (Qsgn a) else Fin (Qred (a / b))
  | Fin _, _ => Fin 0
  | _, Fin b => match fsign x with
                | Some s => if Qsgn b =? 0 then inf_of_sign s
                            else inf_of_sign (s * Qsgn b)
                | None => NaN
                end
  | _, _ => NaN
  end.

(** IEEE comparison: anything involving nan is false. *)
Definition fltb (x y : float64) : bool :=
  match x, y with
  | NaN, _ | _, NaN => false
  | Fin a, Fin b => Qnum a * QDen b <? Qnum b * QDen a
  | NInf, NInf | PInf, PInf => false
  | NInf, _ | _, PInf => true
  | _, _ => false
  end.

Definition fgtb (x y : float64) : bool := fltb y x.

Definition fleb (x y : float64) : bool :=
  match x, y with
  | NaN, _ | _, NaN => false
  | Fin a, Fin b => Qnum a * QDen b <=? Qnum b * QDen a
  | NInf, _ | _, PInf => true
  | _, _ => false
  end.

(** [feq f q]: [f] is finite and carries a rational equal to [q]. *)
Definition feq (f : float64) (q : Q) : Prop := exists q', f = Fin q' /\ (q' == q)%Q.

(** [fcan f q]: [f] is finite, stored in lowest terms, and equal to [q]. *)
Definition fcan (f : float64) (q : Q) : Prop :=
  exists q0, f = Fin (Qred q0) /\ (q0 == q)%Q.

(** ** NumPy array helpers (1-D arrays are lists) *)

Definition np_sum (l : list float64) : float64 := fold_left fadd l (Fin 0).

Fixpoint cumsum_from (acc : float64) (l : list float64) : list float64 :=
  match l with
  | [] => []
  | x :: r => let a := fadd acc x in a :: cumsum_from a r
  end.

(** [x.cumsum()] *)
Definition cumsum (l : list float64) : list float64 := cumsum_from (Fin 0) l.

(** [numpy.arange(a, a + n)] as floats. *)
Definition arange (a : Z) (n : nat) : list float64 :=
  (fun k => of_Z (a + Z.of_nat k)) <$> seq 0 n.

(** Element-wise operations on arrays of equal length. *)
Definition vadd : list float64 -> list float64 -> list float64 := zip_with fadd.
Definition vsub : list float64 -> list float64 -> list float64 := zip_with fsub.
Definition vmul : list float64 -> list float64 -> list float64 := zip_with fmul.
Definition vdiv : list float64 -> list float64 -> list float64 := zip_with fdiv.

(** [a[:-1]] *)
Definition drop_last {A} (l : list A) : list A := take (length l - 1)%nat l.

(** ** analysis.running_variance

    [x] is a float array, so that [/] is the true division. *)

Definition running_variance (x : list float64) : list float64 :=
  let n := length x in
  let m := vdiv (cumsum x) (arange 1 n) in
  let x_minus_mprev := vsub (drop 1 x) (drop_last m) in
  let x_minus_m := vsub (drop 1 x) (drop 1 m) in
  let s := cumsum (vmul x_minus_mprev x_minus_m) in
  let var := vdiv s (arange 2 (n - 1)) in
  of_Z 0 :: var.

(** ** Reference statistics over exact rationals *)

Module Stats.

Local Open Scope Q_scope.

Definition sumQ (l : list Q) : Q := fold_right Qplus 0 l.
Definition sumsqQ (l : list Q) : Q := sumQ (map (fun x => x * x) l).
Definition lenQ (l : list Q) : Q := inject_Z (Z.of_nat (length l)).

(** [numpy.var]: the mean squared deviation from the mean. *)
Definition variance (l : list Q) : Q :=
  let mu := sumQ l / lenQ l in
  sumQ (map (fun x => (x - mu) * (x - mu)) l) / lenQ l.

(** Welford's recurrence: running mean [M] and sum of squared deviations
    [S] after [k] samples. *)
Fixpoint welford_from (k : Z) (M S : Q) (l : list Q) : Q * Q :=
  match l with
  | [] => (M, S)
  | x :: r =>
      let k' := (k + 1)%Z in
      let M' := M + (x - M) / inject_Z k' in
      welford_from k' M' (S + (x - M) * (x - M')) r
  end.

Definition welford_variance (l : list Q) : Q :=
  match l with
  | [] => 0
  | x :: r => snd (welford_from 1 x 0 r) / lenQ l
  end.

(** Sum of squared deviations written with the two power sums. *)
Definition ssq (l : list Q) : Q := sumsqQ l - sumQ l * sumQ l / lenQ l.

(** The vectorised code of [running_variance], one sample at a time:
    [k] samples seen, their sum [T], the accumulated products [s]. *)
Fixpoint rv_from (k : Z) (T s : Q) (l : list Q) : list Q :=
  match l with
  | [] => []
  | x :: r =>
      let T' := T + x in
      let k' := (k + 1)%Z in
      let s' := s + (x - T / inject_Z k) * (x - T' / inject_Z k') in
      s' / inject_Z k' :: rv_from k' T' s' r
  end.

End Stats.

(** ** Python and NumPy scalar helpers *)

Definition feqb (x y : float64) : bool :=
  match x, y with
  | Fin a, Fin b => Qnum a * QDen b =? Qnum b * QDen a
  | PInf, PInf | NInf, NInf => true
  | _, _ => false
  end.

(** Python's builtin [max(a, b)] and [min(a, b)]: the first argument is
    kept unless the second compares strictly better. *)
Definition py_max (a b : float64) : float64 := if fgtb b a then b else a.
Definition py_min (a b : float64) : float64 := if fltb b a then b else a.

(** [int(x)]: truncation toward zero; raises on nan and on infinities. *)
Definition py_int (x : float64) : option Z :=
  match x with
  | Fin q => Some (Z.quot (Qnum q) (QDen q))
  | _ => None
  end.

(** [xrange(start, stop, -1)] *)
Definition xrange_down (start stop : Z) : list Z :=
  (fun i => start - Z.of_nat i) <$> seq 0 (Z.to_nat (start - stop)).

(** [numpy.maximum] on two scalars: nan wins. *)
Definition np_maximum (a b : float64) : float64 :=
  if isnan a then a else if isnan b then b else if fltb a b then b else a.

Definition np_minimum (a b : float64) : float64 :=
  if isnan a then a else if isnan b then b else if fltb b a then b else a.

(** [numpy.max] and [numpy.min] of a 1-D array raise on an empty array. *)
Definition np_max (l : list float64) : option float64 :=
  match l with
  | [] => None
  | x :: r => Some (fold_left np_maximum r x)
  end.

Definition np_min (l : list float64) : option float64 :=
  match l with
  | [] => None
  | x :: r => Some (fold_left np_minimum r x)
  end.

(** [numpy.sum] of a boolean array. *)
Fixpoint count_true (sel : list bool) : nat :=
  match sel with
  | [] => 0
  | b :: r => ((if b then 1 else 0) + count_true r)%nat
  end.

(** [a[sel]] for a boolean mask [sel] with one entry per element. *)
Fixpoint mask_select {A} (sel : list bool) (l : list A) : list A :=
  match sel, l with
  | b :: sel', x :: l' => if b then x :: mask_select sel' l' else mask_select sel' l'
  | _, _ => []
  end.

(** [numpy.argwhere(sel)] for a 1-D mask: the positions holding [True]. *)
Definition argwhere (sel : list bool) : list nat :=
  mask_select sel (seq 0 (length sel)).

(** ** Matrices: 2-D arrays as lists of rows

    A matrix is the list of its rows, all of one length; a matrix without
    rows is taken to have no columns. *)

Definition matrix := list (list float64).

Definition nrows (M : matrix) : nat := length M.
Definition ncols (M : matrix) : nat := length (hd [] M).

(** [M[:, j]] *)
Definition column (j : nat) (M : matrix) : list float64 :=
  (fun row => nth j row NaN) <$> M.

Definition columns_of (c : nat) (M : matrix) : list (list float64) :=
  (fun j => column j M) <$> seq 0 c.

Definition columns (M : matrix) : list (list float64) := columns_of (ncols M) M.

(** [M.T] *)
Definition transpose (M : matrix) : matrix := columns M.

Definition vdot (u v : list float64) : float64 := np_sum (vmul u v).

(** [numpy.dot(A, B)] *)
Definition dot (A B : matrix) : matrix :=
  (fun row => (fun col => vdot row col) <$> columns B) <$> A.

(** [a - v] with the row [v] broadcast over the rows of [a]. *)
Definition sub_row (M : matrix) (v : list float64) : matrix :=
  (fun row => vsub row v) <$> M.

(** [a * v] with the row [v] broadcast over the rows of [a]. *)
Definition mul_row (v : list float64) (M : matrix) : matrix :=
  (fun row => vmul v row) <$> M.

(** Python slice [l[:k]] for an integer [k] of either sign. *)
Definition slice_to {A} (k : Z) (l : list A) : list A :=
  if 0 <=? k then take (Z.to_nat k) l
  else take (length l - Z.to_nat (- k)) l.

(** ** The library routines the repository calls *)

Class NumPy := {
  np_median : list float64 -> float64;   (* numpy.median of a 1-D array *)
  np_std : list float64 -> float64;      (* numpy.std of a 1-D array *)
  np_log : float64 -> float64;           (* numpy.log *)
  np_pi : float64;                       (* numpy.pi *)
}.

Class SciPy := {
  gammaln : float64 -> float64;          (* scipy.special.gammaln *)
  (* scipy.linalg.svd(a, False): (U, d, V), or a LinAlgError *)
  svd : matrix -> option (matrix * list float64 * matrix);
  (* scipy.stats.chi2.ppf(p, df) *)
  chi2_ppf : float64 -> nat -> float64;
}.

Class SkLearn := {
  covariance : Type;
  MinCovDet_fit : matrix -> option covariance;           (* MinCovDet().fit *)
  EmpiricalCovariance_fit : matrix -> option covariance; (* EmpiricalCovariance().fit *)
  mahalanobis : covariance -> matrix -> list float64;    (* estimator.mahalanobis *)
}.

(** ** analysis.one_class_selection *)

(** The data array: 1-D, or 2-D with one row per sample. *)
Inductive ndarray : Type :=
| Arr1 (v : list float64)
| Arr2 (rows : matrix).

(** [len(data)] *)
Definition arr_len (data : ndarray) : nat :=
  match data with Arr1 v => length v | Arr2 rows => length rows end.

(** [data[sel]] *)
Definition arr_select (sel : list bool) (data : ndarray) : ndarray :=
  match data with
  | Arr1 v => Arr1 (mask_select sel v)
  | Arr2 rows => Arr2 (mask_select sel rows)
  end.

Section OneClassSelection.

Context `{NumPy}.

(** [f(data, axis=axis)] with [axis = 0 if data.ndim == 2 else None] for
    a routine [f] that cannot fail: a scalar for 1-D data (kept as a
    one-element list), one value per column for 2-D data of [c] columns. *)
Definition along_axis (f : list float64 -> float64) (c : nat) (data : ndarray)
  : list float64 :=
  match data with
  | Arr1 v => [f v]
  | Arr2 rows => f <$> columns_of c rows
  end.

(** The same for [numpy.max] and [numpy.min], which raise when the
    reduced axis is empty. *)
Definition along_axis_opt (f : list float64 -> option float64) (c : nat)
    (data : ndarray) : option (list float64) :=
  match data with
  | Arr1 v => x ← f v; Some [x]
  | Arr2 rows => match rows with
                 | [] => None
                 | _ => mapM f (columns_of c rows)
                 end
  end.

Definition data_ncols (data : ndarray) : nat :=
  match data with Arr1 _ => 1%nat | Arr2 rows => ncols rows end.

(** The mask of the samples inside the band [lcut < x < hcut]. *)
Definition band_mask (data : ndarray) (hcut lcut : list float64)
  : option (list bool) :=
  match data with
  | Arr2 rows =>
      match hcut, lcut with
      | h0 :: _, l0 :: _ =>
          let sel0 := (fun x => fltb x h0 && fgtb x l0) <$> column 0 rows in
          Some (fold_left
                  (fun sel i =>
                     zip_with andb sel
                       ((fun x => fltb x (nth i hcut NaN) && fgtb x (nth i lcut NaN))
                          <$> column i rows))
                  (seq 1 (ncols rows - 1)) sel0)
      | _, _ => None
      end
  | Arr1 v =>
      match hcut, lcut with
      | [h], [l] => Some ((fun x => fltb x h && fgtb x l) <$> v)
      | _, _ => None
      end
  end.

(** The mask recomputed by one pass of the loop body: median and std of
    the currently selected samples, then the band test on all samples. *)
Definition clip_band (data : ndarray) (sel : list bool) (nstd : Z)
  : option (list bool) :=
  let c := data_ncols data in
  let m := along_axis np_median c (arr_select sel data) in
  let s := along_axis np_std c (arr_select sel data) in
  let hcut := vadd m ((fun x => fmul x (of_Z nstd)) <$> s) in
  let lcut := vsub m ((fun x => fmul x (of_Z nstd)) <$> s) in
  band_mask data hcut lcut.

(** One pass of the loop body, ending with [assert(numpy.sum(sel)>0)]. *)
Definition clip_step (data : ndarray) (sel : list bool) (nstd : Z)
  : option (list bool) :=
  sel' ← clip_band data sel nstd;
  if (0 <? count_true sel')%nat then Some sel' else None.

Fixpoint clip_loop (data : ndarray) (sel : list bool) (nstds : list Z)
  : option (list bool) :=
  match nstds with
  | [] => Some sel
  | nstd :: rest =>
      match clip_step data sel nstd with
      | Some sel' => clip_loop data sel' rest
      | None => None
      end
  end.

(** The starting multiple:
    [int(min(10, max(numpy.max((maxval-m)/s), numpy.max((m-minval)/s))))]. *)
Definition clip_start (data : ndarray) : option Z :=
  let c := data_ncols data in
  let m := along_axis np_median c data in
  let s := along_axis np_std c data in
  maxval ← along_axis_opt np_max c data;
  minval ← along_axis_opt np_min c data;
  a ← np_max (vdiv (vsub maxval m) s);
  b ← np_max (vdiv (vsub m minval) s);
  py_int (py_min (of_Z 10) (py_max a b)).

Definition one_class_selection (data : ndarray) (nstd_min : Z)
  : option (list bool) :=
  start ← clip_start data;
  clip_loop data (replicate (arr_len data) true)
            (xrange_down start (nstd_min - 1)).

End OneClassSelection.

(** ** analysis._assess_dimension and analysis.pca *)

Section PCA.

Context `{NumPy} `{SciPy}.

(** [spectrum_[rank:n_features] = v] *)
Definition slice_assign (lo hi : Z) (v : float64) (l : list float64)
  : list float64 :=
  imap (fun j x => if (lo <=? Z.of_nat j) && (Z.of_nat j <? hi) then v else x) l.

(** The log-likelihood [ll] computed in the body of the loop over [rank].
    [n_samples] and [n_features] are Python integers, so
    [(n_features - i) / 2] and [rank * (rank + 1) / 2] are floor
    divisions. *)
Definition rank_loglik (spectrum : list float64) (n_samples n_features : Z)
    (rank : nat) : float64 :=
  let zr := Z.of_nat rank in
  let at_ (l : list float64) (i : nat) := nth i l NaN in
  let pu :=
    fold_left
      (fun pu i =>
         fadd pu (fsub (gammaln (of_Z ((n_features - Z.of_nat i) / 2)))
                       (fdiv (fmul (np_log np_pi) (of_Z (n_features - Z.of_nat i)))
                             (of_Z 2))))
      (seq 0 rank)
      (fmul (of_Z (- zr)) (np_log (of_Z 2))) in
  let pl := np_sum (np_log <$> take rank spectrum) in
  let pl := fdiv (fmul (fneg pl) (of_Z n_samples)) (of_Z 2) in
  let v :=
    if zr =? n_features then of_Z 1
    else fdiv (np_sum (drop rank spectrum)) (of_Z (n_features - zr)) in
  let pv :=
    if zr =? n_features then of_Z 0
    else fdiv (fmul (fmul (fneg (np_log v)) (of_Z n_samples))
                    (of_Z (n_features - zr)))
              (of_Z 2) in
  let m := n_features * zr - zr * (zr + 1) / 2 in
  let pp := fdiv (fmul (np_log (fmul (of_Z 2) np_pi)) (of_Z (m + zr + 1))) (of_Z 2) in
  let spectrum_ := slice_assign zr n_features v spectrum in
  let pa :=
    fold_left
      (fun pa i =>
         fold_left
           (fun pa j =>
              fadd pa
                (fadd (np_log (fmul (fsub (at_ spectrum i) (at_ spectrum j))
                                    (fsub (fdiv (of_Z 1) (at_ spectrum_ j))
                                          (fdiv (of_Z 1) (at_ spectrum_ i)))))
                      (np_log (of_Z n_samples))))
           (seq (S i) (length spectrum - S i)) pa)
      (seq 0 rank) (of_Z 0) in
  fsub (fsub (fadd (fadd (fadd pu pl) pv) pp) (fdiv pa (of_Z 2)))
       (fdiv (fmul (of_Z zr) (np_log (of_Z n_samples))) (of_Z 2)).

(** One pass of the loop: [max_ll] is replaced when the score is finite
    and strictly larger. *)
Definition assess_step (score : nat -> float64) (max_ll : float64 * nat)
    (rank : nat) : float64 * nat :=
  let ll := score rank in
  if isfinite ll && fgtb ll (fst max_ll) then (ll, rank) else max_ll.

Definition _assess_dimension (spectrum : list float64) (n_samples n_features : Z)
  : nat :=
  snd (fold_left (assess_step (rank_loglik spectrum n_samples n_features))
                 (seq 0 (length spectrum)) (of_Z 0, 0%nat)).

(** What the loop of [_assess_dimension] holds in [max_ll] after the
    candidates below [j]: the initial pair as long as no candidate had a
    finite positive score, else the first candidate of maximal finite
    score. *)
Definition assess_inv (score : nat -> float64) (j : nat) (max_ll : float64 * nat)
  : Prop :=
  (max_ll = (of_Z 0, 0%nat)
   /\ forall k, (k < j)%nat ->
        ~ (isfinite (score k) = true /\ fltb (of_Z 0) (score k) = true))
  \/ ((max_ll.2 < j)%nat
      /\ max_ll.1 = score max_ll.2
      /\ isfinite max_ll.1 = true
      /\ fltb (of_Z 0) max_ll.1 = true
      /\ (forall k, (k < j)%nat -> isfinite (score k) = true ->
                    fleb (score k) max_ll.1 = true)
      /\ (forall k, (k < max_ll.2)%nat -> isfinite (score k) = true ->
                    fltb (score k) max_ll.1 = true)).

(** The rank [idx] selected by [pca] before the final guard, from the
    singular values [d], the normalised spectrum [t] and the shape
    [(n, p)] of the training matrix. *)
Definition pca_rank (frac : float64) (d t : list float64) (n p : nat)
  : option Z :=
  if fleb (of_Z 1) frac then py_int frac
  else if feqb frac (of_Z 0) then
    Some (Z.of_nat (_assess_dimension t (Z.of_nat n) (Z.of_nat p)) + 1)
  else if fgtb frac (of_Z 0) then
    Some (Z.of_nat (count_true ((fun c => fltb c frac) <$> cumsum t)) + 1)
  else Some (Z.of_nat (length d)).

(** [if idx >= len(d): idx = 1] *)
Definition pca_guard (idx : Z) (d : list float64) : Z :=
  if Z.of_nat (length d) <=? idx then 1 else idx.

(** [trn.mean(axis=0)] *)
Definition column_means (trn : matrix) : list float64 :=
  (fun col => fdiv (np_sum col) (of_nat (nrows trn))) <$> columns trn.

(** [trn - mtrn] *)
Definition centered (trn : matrix) : matrix := sub_row trn (column_means trn).

(** [t = d**2/trn.shape[0]; t /= t.sum()] *)
Definition spectrum_of (d : list float64) (n : nat) : list float64 :=
  let t := (fun x => fdiv (fmul x x) (of_nat n)) <$> d in
  (fun x => fdiv x (np_sum t)) <$> t.

(** [pca(trn, tst, frac)]: the projected data, the selected rank, the
    truncated basis and the spectrum entry at the rank.  [tst] has the
    columns of [trn]. *)
Definition pca (trn : matrix) (tst : option matrix) (frac : float64)
  : option (matrix * Z * matrix * float64) :=
  let n := nrows trn in
  let p := ncols trn in
  let mtrn := column_means trn in
  let trn := sub_row trn mtrn in
  let tst := match tst with None => trn | Some tst => sub_row tst mtrn end in
  '(U, d, V) ← svd trn;
  let t := spectrum_of d n in
  idx ← pca_rank frac d t n p;
  let idx := pca_guard idx d in
  let k := Z.to_nat idx in
  let val := mul_row (take k d) (transpose (dot (take k V) (transpose tst))) in
  spec ← t !! k;
  Some (val, idx, take k V, spec).

(** The selected rank in the result of [pca]. *)
Definition pca_idx (r : matrix * Z * matrix * float64) : Z := r.1.1.2.

(** The truncated basis in the result of [pca]. *)
Definition pca_basis (r : matrix * Z * matrix * float64) : matrix := r.1.2.

End PCA.

(** ** diffclean.one_class_classification *)

Section OneClassClassification.

Context `{NumPy} `{SciPy} `{SkLearn}.

(** [feat[:, :neig]] *)
Definition truncate_features (feat : matrix) (neig : Z) : matrix :=
  slice_to neig <$> feat.

(** [try: MinCovDet().fit(feat) except: EmpiricalCovariance().fit(feat)] *)
Definition fit_covariance (feat : matrix) : option covariance :=
  match MinCovDet_fit feat with
  | Some c => Some c
  | None => EmpiricalCovariance_fit feat
  end.

(** [numpy.median(feat, 0)] *)
Definition median_columns (feat : matrix) : list float64 :=
  np_median <$> columns feat.

(** [scipy.stats.chi2.ppf(prob_reject, feat.shape[1])] on the truncated
    matrix. *)
Definition cutoff (feat : matrix) (neig : Z) (prob_reject : float64) : float64 :=
  chi2_ppf prob_reject (ncols (truncate_features feat neig)).

(** Returns [(sel, rsel, dist)]. *)
Definition one_class_classification (feat : matrix) (neig : Z)
    (prob_reject : float64) : option (list bool * list bool * list float64) :=
  let feat := truncate_features feat neig in
  robust_cov ← fit_covariance feat;
  let dist := mahalanobis robust_cov (sub_row feat (median_columns feat)) in
  let cut := chi2_ppf prob_reject (ncols feat) in
  let sel := (fun d => fltb d cut) <$> dist in
  let rsel := sel in
  Some (sel, rsel, dist).

End OneClassClassification.

(** *** The distance of the specification

    The squared Mahalanobis distance of a sample from a centre, measured
    in the metric of a precision matrix (the inverse of a covariance
    matrix), written out; [get_precision] is
    [estimator.get_precision()] of a fitted covariance. *)

Class SkLearnPrecision `{SkLearn} := {
  get_precision : covariance -> matrix;
}.

(** [numpy.sum(numpy.dot(v, P) * v)]: the quadratic form of [P] at [v]. *)
Definition quadratic_form (P : matrix) (v : list float64) : float64 :=
  vdot ((fun col => vdot v col) <$> columns P) v.

(** The squared distance of [x] from the centre [c] in the metric [P]:
    [(x - c) P (x - c)^T]. *)
Definition mahalanobis_from (P : matrix) (c x : list float64) : float64 :=
  quadratic_form P (vsub x c).

(** ** diffclean: labels, views and the selection registry *)

(** Particle labels: either the tuple [(filename, label)] with a 2-D
    integer array of rows [(file ID, slice ID)], or a list with one
    [(filename, index)] entry per particle. *)
Inductive labels : Type :=
| Grouped (filename : string) (rows : list (Z * Z))
| PerParticle (entries : list (string * Z)).

(** Keys of [sel_by_mic]: micrograph numbers for grouped labels, file names
    for per-particle ones. *)
Abbreviation mic_key := (Z + string)%type.

(** The key and the 1-based index that [update_selection_dict] records for
    particle [i]; [None] when [i] is out of range (IndexError). *)
Definition selection_entry (label : labels) (i : nat) : option (mic_key * Z) :=
  match label with
  | Grouped _ rows => '(mic, idx) ← rows !! i; Some (inl mic, idx + 1)
  | PerParticle entries => '(file, idx) ← entries !! i; Some (inr file, idx + 1)
  end.

(** [sel_by_mic.setdefault(k, []).append(v)] *)
Definition setdefault_append (k : mic_key) (v : Z) (m : gmap mic_key (list Z))
  : gmap mic_key (list Z) :=
  <[k := default [] (m !! k) ++ [v]]> m.

(** One pass of the loops of [update_selection_dict], for the accepted
    particle at position [i]; [None] once an exception was raised. *)
Definition record_entry (label : labels) (acc : option (gmap mic_key (list Z)))
    (i : nat) : option (gmap mic_key (list Z)) :=
  m ← acc;
  '(k, v) ← selection_entry label i;
  Some (setdefault_append k v m).

(** [update_selection_dict(sel_by_mic, label, sel)]: the dictionary after
    the call, [None] when the call raises. *)
Definition update_selection_dict (sel_by_mic : gmap mic_key (list Z))
    (label : labels) (sel : list bool) : option (gmap mic_key (list Z)) :=
  foldl (record_entry label) (Some sel_by_mic) (argwhere sel).

(** Two applications in a row with the same view result. *)
Definition update_twice (sel_by_mic : gmap mic_key (list Z)) (label : labels)
    (sel : list bool) : option (gmap mic_key (list Z)) :=
  m ← update_selection_dict sel_by_mic label sel;
  update_selection_dict m label sel.

(** The list recorded for micrograph [k] after a call. *)
Definition recorded (k : mic_key) (result : option (gmap mic_key (list Z)))
  : option (list Z) :=
  m ← result; m !! k.

(** The 1-based indices of the accepted particles of micrograph [k], in
    the order in which [update_selection_dict] appends them. *)
Definition accepted_for (k : mic_key) (label : labels) (idxs : list nat) : list Z :=
  omap (fun i => '(k', v) ← selection_entry label i;
                 if decide (k' = k) then Some v else None) idxs.

(** [len(label[1]) if isinstance(label, tuple) else len(label)] *)
Definition label_count (label : labels) : nat :=
  match label with
  | Grouped _ rows => length rows
  | PerParticle entries => length entries
  end.

(** A view: [(view id, labels, alignment rows)]. *)
Abbreviation view := (Z * labels * matrix)%type.

(** [numpy.unique(ref)]: the sorted distinct values. *)
Fixpoint insert_unique (r : Z) (l : list Z) : list Z :=
  match l with
  | [] => [r]
  | x :: l' => if r <? x then r :: l
               else if r =? x then l
               else x :: insert_unique r l'
  end.

Definition np_unique (ref : list Z) : list Z := foldr insert_unique [] ref.

(** The number of particles of view [r]: [numpy.sum(r == ref)]. *)
Definition view_size (r : Z) (ref : list Z) : nat :=
  count_true ((fun x => r =? x) <$> ref).

(** Iterating over [numpy.argwhere(sel).squeeze()]: squeezing the [(k, 1)]
    index array gives a 1-D array, except for [k = 1], where it gives a
    0-d array whose iteration raises TypeError. *)
Definition iter_squeezed_argwhere (sel : list bool) : option (list nat) :=
  match argwhere sel with
  | [_] => None
  | idx => Some idx
  end.

(** [group_by_reference(label, align, ref)] *)
Definition group_by_reference (label : labels) (align : matrix) (ref : list Z)
  : option (list view) :=
  let refs := np_unique ref in
  match label with
  | Grouped filename rows =>
      Some ((fun r =>
               let sel := (fun x => r =? x) <$> ref in
               (r, Grouped filename (mask_select sel rows), mask_select sel align))
              <$> refs)
  | PerParticle entries =>
      mapM (fun r =>
              let sel := (fun x => r =? x) <$> ref in
              idx ← iter_squeezed_argwhere sel;
              picked ← mapM (fun i => entries !! i) idx;
              Some (r, PerParticle picked, mask_select sel align))
           refs
  end.

(** [numpy.argsort(count)]: positions in ascending order of count (ties in
    input order). *)
Fixpoint insert_by_count (count : list nat) (i : nat) (l : list nat) : list nat :=
  match l with
  | [] => [i]
  | j :: l' => if (nth i count 0 <=? nth j count 0)%nat then i :: l
               else j :: insert_by_count count i l'
  end.

Definition argsort (count : list nat) : list nat :=
  foldr (insert_by_count count) [] (seq 0 (length count)).

(** The view filter of [init_root] (the branch on [single_view] and the
    loop over [index[::-1]]): the views handed on for processing. *)
Definition select_views (single_view : Z) (group : list view)
  : option (list view) :=
  if 0 <? single_view then
    g ← group !! Z.to_nat (single_view - 1);
    Some [g]
  else
    let count := (fun g : view => label_count g.1.2) <$> group in
    let index := argsort count in
    Some (omap (fun i => if (20 <? nth i count 0)%nat then group !! i else None)
               (reverse index)).

(** ** A computable instance of the library routines

    Used to run the model on concrete inputs: the transcendental routines
    are evaluated in rational arithmetic to a fixed precision, the singular
    value decomposition is tabulated for the matrices of the examples. *)

Module Ref.

Local Open Scope Q_scope.

(** Truncation to [2^-bits]. *)
Definition round_to (bits : positive) (q : Q) : Q :=
  Qred (Qfloor (q * inject_Z (2 ^ Zpos bits)) # (2 ^ bits)).

Definition ln2 : Q := 6931471805599453094172321 # 10000000000000000000000000.

(** [sum_{i < terms} z^(2i+1) / (2i+1)] in fixed point with 100
    fractional bits, with [zp = z^(2i+1)] and [k = 2i+1]. *)
Fixpoint atanh_series (terms : nat) (z2 zp k : Z) : Z :=
  match terms with
  | O => 0%Z
  | S terms' =>
      (zp / k + atanh_series terms' z2 (zp * z2 / 2 ^ 100) (k + 2))%Z
  end.

(** Natural logarithm of a positive rational: the argument is scaled
    into [(1/2, 2)] by a power of two, then [ln m = 2 atanh((m-1)/(m+1))]. *)
Definition ln_pos (x : Q) : Q :=
  let e := (Z.log2 (Qnum x) - Z.log2 (Zpos (Qden x)))%Z in
  let m := if (0 <=? e)%Z then x / inject_Z (2 ^ e) else x * inject_Z (2 ^ (- e)) in
  let z := Qfloor ((m - 1) / (m + 1) * inject_Z (2 ^ 100)) in
  let series := atanh_series 32 (z * z / 2 ^ 100)%Z z 1 in
  round_to 80 (inject_Z e * ln2 + (2 * series # 2 ^ 100)).

Definition log (x : float64) : float64 :=
  match x with
  | Fin q => match Qsgn q with
             | Z0 => NInf
             | Zpos _ => Fin (ln_pos q)
             | Zneg _ => NaN
             end
  | PInf => PInf
  | _ => NaN
  end.

Definition pi : float64 := Fin (314159265358979323846264 # 100000000000000000000000).

(** Square root of a non-negative rational, truncated to [2^-60]. *)
Definition sqrt_pos (q : Q) : Q :=
  Qred (Z.sqrt (Qfloor (q * inject_Z (2 ^ 120))) # (2 ^ 60)).

Definition sqrt (x : float64) : float64 :=
  match x with
  | Fin q => if (Qsgn q <? 0)%Z then NaN else Fin (sqrt_pos q)
  | PInf => PInf
  | _ => NaN
  end.

Fixpoint insert_sorted (x : float64) (l : list float64) : list float64 :=
  match l with
  | [] => [x]
  | y :: l' => if fleb x y then x :: l else y :: insert_sorted x l'
  end.

Definition sort (l : list float64) : list float64 := foldr insert_sorted [] l.

Definition mean (l : list float64) : float64 := fdiv (np_sum l) (of_nat (length l)).

(** [numpy.median]: nan when a nan is present or the array is empty. *)
Definition median (l : list float64) : float64 :=
  if existsb isnan l then NaN
  else
    let s := sort l in
    let n := length l in
    if Nat.even n
    then fdiv (fadd (nth (n / 2 - 1) s NaN) (nth (n / 2) s NaN)) (of_Z 2)
    else nth (n / 2) s NaN.

(** [numpy.std]: the root of the mean squared deviation. *)
Definition std (l : list float64) : float64 :=
  let mu := mean l in
  sqrt (mean ((fun x => fmul (fsub x mu) (fsub x mu)) <$> l)).

#[export] Instance numpy : NumPy :=
  {| np_median := median; np_std := std; np_log := log; np_pi := pi |}.

(** [gammaln] at the integers, where it is [ln ((k-1)!)] for [k >= 1]
    and infinite at the poles [k <= 0]. *)
Definition lgamma (x : float64) : float64 :=
  match x with
  | Fin q =>
      if (Zpos (Qden (Qred q)) =? 1)%Z then
        let k := Qnum (Qred q) in
        if (k <=? 0)%Z then PInf
        else log (of_Z (Z.of_nat (fact (Z.to_nat (k - 1)))))
      else NaN
  | PInf => PInf
  | _ => NaN
  end.

Definition float_eqb (x y : float64) : bool :=
  match x, y with
  | Fin a, Fin b => (Qnum a =? Qnum b)%Z && (Qden a =? Qden b)%positive
  | PInf, PInf | NInf, NInf | NaN, NaN => true
  | _, _ => false
  end.

Fixpoint list_eqb {A} (eqb : A -> A -> bool) (l k : list A) : bool :=
  match l, k with
  | [], [] => true
  | x :: l', y :: k' => eqb x y && list_eqb eqb l' k'
  | _, _ => false
  end.

Definition matrix_eqb : matrix -> matrix -> bool := list_eqb (list_eqb float_eqb).

Definition of_Zs (rows : list (list Z)) : matrix :=
  (fun r : list Z => of_Z <$> r) <$> rows.

Definition halves (rows : list (list Z)) : matrix :=
  (fun r : list Z => (fun z => Fin (Qred (z # 2))) <$> r) <$> rows.

(** Four samples in three features, with orthogonal zero-mean columns of
    norms 200, 20 and 2: the singular values are the norms, the right
    singular vectors the coordinate axes. *)
Definition steep : matrix :=
  of_Zs [[100; 10; 1]; [-100; 10; -1]; [100; -10; -1]; [-100; -10; 1]]%Z.

(** The same with column norms 32, 8 and 2. *)
Definition gentle : matrix :=
  of_Zs [[16; 4; 1]; [-16; 4; -1]; [16; -4; -1]; [-16; -4; 1]]%Z.

Definition hadamard_U : matrix :=
  halves [[1; 1; 1]; [-1; 1; -1]; [1; -1; -1]; [-1; -1; 1]]%Z.

Definition identity3 : matrix := of_Zs [[1; 0; 0]; [0; 1; 0]; [0; 0; 1]]%Z.

Definition svd_table : list (matrix * (matrix * list float64 * matrix)) :=
  [ (steep, (hadamard_U, of_Z <$> [200; 20; 2]%Z, identity3));
    (gentle, (hadamard_U, of_Z <$> [32; 8; 2]%Z, identity3)) ].

(** Matrices outside the table are reported as a failure of the routine. *)
Definition svd_lookup (M : matrix) : option (matrix * list float64 * matrix) :=
  (fun e => snd (snd e)) <$> list_find (fun e => matrix_eqb M (fst e) = true) svd_table.

(** Lower approximations of the chi-squared quantiles, by degrees of
    freedom: [(p, q)] means the quantile at every [p' >= p] is at least
    [q]. *)
Definition chi2_table (df : nat) : list (Q * Q) :=
  match df with
  | 1%nat => [(1 # 2, 454 # 1000); (9 # 10, 2705 # 1000); (95 # 100, 3841 # 1000);
              (97 # 100, 4709 # 1000); (99 # 100, 6634 # 1000)]
  | 2%nat => [(1 # 2, 1386 # 1000); (9 # 10, 4605 # 1000); (95 # 100, 5991 # 1000);
              (97 # 100, 7013 # 1000); (99 # 100, 9210 # 1000)]
  | _ => []
  end.

Definition step_value (tbl : list (Q * Q)) (p : Q) : Q :=
  fold_left (fun acc e => if Qle_bool (fst e) p && Qle_bool acc (snd e) then snd e else acc) tbl 0.

(** nan outside [[0, 1]] and for zero degrees of freedom. *)
Definition chi2_quantile (p : float64) (df : nat) : float64 :=
  match p, df with
  | _, O => NaN
  | Fin q, _ => if Qle_bool 0 q && Qle_bool q 1 then Fin (Qred (step_value (chi2_table df) q))
                else NaN
  | _, _ => NaN
  end.

#[export] Instance scipy : SciPy :=
  {| gammaln := lgamma; svd := svd_lookup; chi2_ppf := chi2_quantile |}.

(** The empirical covariance of a one-column matrix is the variance of
    the column; the distance of a centred observation [x] is [x^2 / var].
    The robust fit is taken to fail, so that the fallback is the
    estimator in use; matrices of another width are refused. *)
Definition empirical_fit (M : matrix) : option float64 :=
  match M with
  | [] => None
  | _ => if forallb (fun r => Nat.eqb (length r) 1) M
         then let col := column 0 M in
              let mu := mean col in
              Some (mean ((fun x => fmul (fsub x mu) (fsub x mu)) <$> col))
         else None
  end.

Definition sq_distance (var : float64) (M : matrix) : list float64 :=
  (fun r => fdiv (fmul (nth 0 r NaN) (nth 0 r NaN)) var) <$> M.

#[export] Instance sklearn : SkLearn :=
  {| covariance := float64;
     MinCovDet_fit := fun _ => None;
     EmpiricalCovariance_fit := empirical_fit;
     mahalanobis := sq_distance |}.

(** The precision of a one-column covariance: the inverse of the
    variance. *)
Definition inverse_variance (var : float64) : matrix := [[fdiv (of_Z 1) var]].

#[export] Instance sklearn_precision : @SkLearnPrecision sklearn :=
  {| get_precision := inverse_variance |}.

End Ref.

(** ** Concrete inputs *)

Module Sample.

(** Ten one-dimensional measurements, the last one far from the rest. *)
Definition measurements : list float64 := of_Z <$> [1; 2; 3; 4; 5; 6; 7; 8; 9; 100].

(** The same as a feature matrix with a second, constant, column. *)
Definition features : matrix := (fun x => [x; of_Z 7]) <$> measurements.

(** Ten evenly spread samples of one feature. *)
Definition ramp : matrix := (fun z => [of_Z z]) <$> [1; 2; 3; 4; 5; 6; 7; 8; 9; 10].

(** Three measurements without spread. *)
Definition constant : list float64 := of_Z <$> [5; 5; 5].

(** A view of [n] particles with per-particle labels. *)
Definition view_of (id : Z) (n : nat) : view :=
  (id, PerParticle (replicate n ("mic_0001.spi"%string, 0)), []).

(** The three views of the end-to-end scenario. *)
Definition three_views : list view := [view_of 1 25; view_of 2 15; view_of 3 40].

(** Two accepted particles of micrograph 3, slices 0 and 4. *)
Definition stack : labels := Grouped "win_0003.spi" [(3, 0); (3, 4)].

Definition particles : list (string * Z) :=
  [("mic_0001.spi"%string, 0); ("mic_0001.spi"%string, 1); ("mic_0002.spi"%string, 0)].

End Sample.

(** ** analysis.one_class_distance and analysis.one_class_classification *)

Class NumPyRoot := {
  np_sqrt : float64 -> float64;          (* numpy.sqrt *)
}.

Module Analysis.

Section Distance.

Context `{NumPy} `{NumPyRoot}.

(** [numpy.sqrt(numpy.sum(numpy.square(row - m)))] *)
Definition row_distance (m row : list float64) : float64 :=
  np_sqrt (np_sum ((fun x => fmul x x) <$> vsub row m)).

(** [one_class_distance(data, nstd_min)].  The selection and the median are
    computed first; [assert(data.ndim==2)] then refuses 1-D data, and
    [assert(dist.ndim==1)] refuses the 0-d array that [squeeze()] makes of
    a single distance. *)
Definition one_class_distance (data : ndarray) (nstd_min : Z)
  : option (list float64) :=
  sel ← one_class_selection data nstd_min;
  match data with
  | Arr1 _ => None
  | Arr2 rows =>
      let m := along_axis np_median (ncols rows) (arr_select sel data) in
      let dist := row_distance m <$> rows in
      match dist with
      | [_] => None
      | _ => Some dist
      end
  end.

(** [analysis.one_class_classification(data, nstd_min)]: the distances are
    clipped in turn, with the fixed minimum of 4 standard deviations. *)
Definition one_class_classification (data : ndarray) (nstd_min : Z)
  : option (list bool) :=
  dist ← one_class_distance data nstd_min;
  one_class_selection (Arr1 dist) 4.

End Distance.

End Analysis.

(** The computable instance, continued. *)

Module RefExt.

#[export] Instance numpy_root : NumPyRoot := {| np_sqrt := Ref.sqrt |}.

End RefExt.

Module SampleExt.

(** Ten samples of two features, the last one far from the rest. *)
Definition cloud : matrix :=
  (fun z => [of_Z z; of_Z (z * z)]) <$> [1; 2; 3; 4; 5; 6; 7; 8; 9; 30].

(** Five particles of two micrographs, spread over three views. *)
Definition tilt : labels :=
  Grouped "win_0000.spi" [(1, 0); (1, 1); (2, 0); (2, 1); (2, 2)].

Definition tilt_ref : list Z := [2; 1; 2; 3; 1].

Definition tilt_align : matrix := (fun z => [of_Z z; of_Z (10 * z)]) <$> [1; 2; 3; 4; 5].

(** Four particles with per-particle labels, two views of two. *)
Definition pairs : labels :=
  PerParticle [("mic_0001.spi"%string, 0); ("mic_0001.spi"%string, 1);
               ("mic_0002.spi"%string, 0); ("mic_0002.spi"%string, 1)].

Definition pairs_ref : list Z := [7; 5; 7; 5].

Definition pairs_align : matrix := (fun z => [of_Z z]) <$> [1; 2; 3; 4].

(** Fifty particles: 25 of view 4, 3 of view 9 and 22 of view 6. *)
Definition crowd : labels :=
  Grouped "win_0001.spi" ((fun i => (1, Z.of_nat i)) <$> seq 0 50).

Definition crowd_align : matrix := replicate 50 [of_Z 0; of_Z 0].

Definition crowd_ref : list Z := replicate 25 4 ++ [9; 9; 9] ++ replicate 22 6.

(** A second view with particles of micrographs 3 and 4. *)
Definition neighbour : labels := Grouped "win_0003.spi" [(3, 2); (4, 0)].

End SampleExt.

(** ** diffclean.reduce_all and the total of finalize *)

(** The total [tot] that [finalize] accumulates over
    [sel_by_mic.iteritems()]: the number of recorded indices, all
    micrographs together. *)
Definition registry_size (sel_by_mic : gmap mic_key (list Z)) : nat :=
  map_fold (fun _ sel tot => (length sel + tot)%nat) 0%nat sel_by_mic.

(** [reduce_all(val, sel_by_mic)] for [val = (input, sel)]: the dictionary
    after the call and the three numbers of the returned message
    ["%d - Selected: %d -- Removed %d"]: the view, [tot] and
    [total - tot]. *)
Definition reduce_all (val : view * list bool) (sel_by_mic : gmap mic_key (list Z))
  : option (gmap mic_key (list Z) * (Z * nat * Z)) :=
  let input := val.1 in
  let sel := val.2 in
  let label := input.1.2 in
  m ← update_selection_dict sel_by_mic label sel;
  let tot := count_true sel in
  let total := label_count label in
  Some (m, (input.1.1, tot, Z.of_nat total - Z.of_nat tot)).

(** ** Views as parts of the particle list *)

(** [label[sel]] for either kind of labels. *)
Definition select_labels (sel : list bool) (label : labels) : labels :=
  match label with
  | Grouped filename rows => Grouped filename (mask_select sel rows)
  | PerParticle entries => PerParticle (mask_select sel entries)
  end.

(** The labels [sub] are labels of [label], in the same relative order. *)
Definition labels_sublist (sub label : labels) : Prop :=
  match sub, label with
  | Grouped f1 rows1, Grouped f2 rows2 => f1 = f2 /\ sublist rows1 rows2
  | PerParticle e1, PerParticle e2 => sublist e1 e2
  | _, _ => False
  end.

(** [r == ref] *)
Definition view_mask (r : Z) (ref : list Z) : list bool := (fun x => r =? x) <$> ref.

(** ** diffclean.resolution_from_order and decimation_level

    [apix] and [resolution] are Python floats, [window],
    [pixel_diameter] and [order] Python integers.  The HEALPix pixel area
    and the tangent are library routines. *)

Class Healpix := {
  nside2pixarea : Z -> float64;
  np_tan : float64 -> float64;
}.

(** Python's [/] with a float operand: a zero divisor raises
    ZeroDivisionError. *)
Definition py_truediv (x y : float64) : option float64 :=
  match y with
  | Fin b => if Qsgn b =? 0 then None else Some (fdiv x y)
  | _ => Some (fdiv x y)
  end.

Section Decimation.

Context `{Healpix}.

(** [resolution_from_order(apix, pixel_diameter, order, resolution)] *)
Definition resolution_from_order (apix : float64) (pixel_diameter order : Z)
    (resolution : float64) : float64 :=
  if (order =? 0) || (1 =? 1) then resolution
  else
    let res := fmul (fmul (np_tan (nside2pixarea order)) (of_Z pixel_diameter)) apix in
    if fgtb res resolution then res else resolution.

(** [decimation_level(apix, window, **extra)], with [pixel_diameter],
    [order] and [resolution] taken from [extra]. *)
Definition decimation_level (apix : float64) (window pixel_diameter order : Z)
    (resolution : float64) : option float64 :=
  let resolution := resolution_from_order apix pixel_diameter order resolution in
  dec ← py_truediv resolution (fmul apix (of_Z 3));
  d ← py_truediv (of_Z window) dec;
  let d := fadd d (of_Z 10) in
  d ← py_truediv (of_Z window) d;
  Some (py_min (py_max d (of_Z 1)) (of_Z 8)).

End Decimation.

(** The ratio that [decimation_level] clamps, in closed form:
    [window * resolution / (3 * apix * window + 10 * resolution)]. *)
Definition decimation_ratio (apix resolution : Q) (window : Z) : Q :=
  (inject_Z window * resolution
   / (3 * apix * inject_Z window + 10 * resolution))%Q.

(** A stand-in for the HEALPix routines: the pixel area [pi / (3 n^2)] and
    the first terms of the tangent series. *)
Module RefHealpix.

Definition pixarea (nside : Z) : float64 :=
  fdiv Ref.pi (of_Z (3 * nside * nside)).

Definition tan (x : float64) : float64 :=
  let x3 := fmul x (fmul x x) in
  let x5 := fmul x3 (fmul x x) in
  fadd x (fadd (fdiv x3 (of_Z 3)) (fdiv (fmul (of_Z 2) x5) (of_Z 15))).

#[export] Instance healpix : Healpix := {| nside2pixarea := pixarea; np_tan := tan |}.

End RefHealpix.

(** ** diffclean.init_root, order_from_resolution and reconstruct_volume

    Reading the parameter file, the alignment file and the images, the
    reconstruction and the HEALPix routines are taken as parameters, each
    returning [None] where the routine raises. *)

(** The entries of [param] that decide what [init_root] does.  (The other
    entries that its log lines format, [scale_spi], [disable_rtsq],
    [prob_reject] and [neig], are set by the option parser.) *)
Record params : Type := {
  param_single_view : Z;
  param_order : Z;
  param_resolution : float64;
  param_apix : float64;
  param_window : Z;
  param_pixel_diameter : Z;
}.

(** [param['order'] = order] *)
Definition set_order (param : params) (order : Z) : params :=
  {| param_single_view := param_single_view param;
     param_order := order;
     param_resolution := param_resolution param;
     param_apix := param_apix param;
     param_window := param_window param;
     param_pixel_diameter := param_pixel_diameter param |}.

Class Reconstruction := {
  volume : Type;
  (* spider_params.read(param['param_file'], param): param after the call *)
  spider_params_read : params -> option params;
  (* healpix.theta2nside(numpy.deg2rad(numpy.rad2deg(numpy.arctan(x)))) *)
  theta2nside_arctan : float64 -> option Z;
  (* healpix.nside2pixarea(param['order'], True), logged for a positive order *)
  pixarea_degrees : Z -> option float64;
  (* read_alignment(files, **param): (label, align, ref) *)
  read_alignment : params -> option (labels * matrix * list Z);
  (* ndimage_file.read_image(filename).shape[0] for a file name *)
  image_size_of : string -> option Z;
  (* the end of reconstruct_volume: the volume of the output file when it
     has the image size, else reconstruct_bp3f_mp and write_image *)
  load_or_reconstruct : labels -> matrix -> Z -> params -> option volume;
  (* healpix.angles(param['ang_order'], True, out=...) *)
  healpix_angles : params -> option unit;
}.

Section InitRoot.

Context `{Healpix} `{Reconstruction}.

(** [order_from_resolution(apix, pixel_diameter, resolution)]; the ratio
    is a division of Python floats. *)
Definition order_from_resolution (apix : float64) (pixel_diameter : Z)
    (resolution : float64) : option Z :=
  ratio ← py_truediv resolution (fmul (of_Z pixel_diameter) apix);
  theta2nside_arctan ratio.

(** [if param['order'] < 0: param['order'] = order_from_resolution] on [param] *)
Definition resolve_order (param : params) : option params :=
  if param_order param <? 0 then
    order ← order_from_resolution (param_apix param) (param_pixel_diameter param)
                                  (param_resolution param);
    Some (set_order param order)
  else Some param.

(** [decimation_level] on [param] *)
Definition decimation_of (param : params) : option float64 :=
  decimation_level (param_apix param) (param_window param)
                   (param_pixel_diameter param) (param_order param)
                   (param_resolution param).

(** The log lines of [init_root] format numbers; the one guarded by
    [param['resolution'] > 0.0] evaluates [decimation_level] on [param]
    ([resolution_from_order] returns its argument), the one guarded by
    [param['order'] > 0] the HEALPix pixel area. *)
Definition log_parameters (param : params) : option unit :=
  _ ← (if fgtb (param_resolution param) (of_Z 0) then
         _ ← decimation_of param; Some tt
       else Some tt);
  if 0 <? param_order param then
    _ ← pixarea_degrees (param_order param); Some tt
  else Some tt.

(** [reconstruct_volume(label, align, **param)].  With per-particle
    labels [filename] is the image read from [label[0][0]], and
    [read_image] of an image raises at [os.path.exists]. *)
Definition reconstruct_volume (label : labels) (align : matrix) (param : params)
  : option volume :=
  match label with
  | PerParticle _ => None
  | Grouped filename _ =>
      image_size ← image_size_of filename;
      bin_factor ← decimation_of param;
      scaled ← py_truediv (of_Z image_size) bin_factor;
      image_size ← py_int scaled;
      load_or_reconstruct label align image_size param
  end.

(** [init_root(files, param)]: the views handed on for processing. *)
Definition init_root (param : params) : option (list view) :=
  param ← spider_params_read param;
  param ← resolve_order param;
  _ ← log_parameters param;
  '(label, align, ref) ← read_alignment param;
  group ← group_by_reference label align ref;
  group ← select_views (param_single_view param) group;
  _ ← reconstruct_volume label align param;
  _ ← healpix_angles param;
  Some group.

End InitRoot.

(** A stand-in for the files: the parameter file changes nothing, the
    alignment file holds [data], every stack has images of 128 pixels and
    the reconstruction succeeds. *)
Module RefFiles.

Definition reading (data : labels * matrix * list Z) : Reconstruction :=
  {| volume := unit;
     spider_params_read := fun param => Some param;
     theta2nside_arctan := fun _ => Some 1;
     pixarea_degrees := fun order => Some (RefHealpix.pixarea order);
     read_alignment := fun _ => Some data;
     image_size_of := fun _ => Some 128;
     load_or_reconstruct := fun _ _ _ _ => Some tt;
     healpix_angles := fun _ => Some tt |}.

(** A pixel of 1.5 A, a window of 200 pixels, a resolution of 12 A. *)
Definition settings (single_view : Z) : params :=
  {| param_single_view := single_view;
     param_order := 0;
     param_resolution := of_Z 12;
     param_apix := Fin (3 # 2);
     param_window := 200;
     param_pixel_diameter := 150 |}.

End RefFiles.

(** ** analysis.threshold_from_total and analysis.threshold_max

    Sorting and searching are NumPy routines.  [np_argsort] is
    [numpy.argsort] on a 1-D float array, [np_sort] is the result of
    [data.sort()], [np_searchsorted] is
    [numpy.searchsorted(a, v)] for a scalar [v], and [index_of_float] is
    the position that indexing with a Python float stands for, which
    depends on the NumPy version (truncation in the versions of the time,
    an IndexError later). *)

(** The float64 product of two values, rounded as the hardware rounds it.
    Finite arithmetic is exact elsewhere in this development; here
    [int(total*data.shape[0])] truncates the product, so that its rounding
    decides the position taken. *)
Class Binary64 := {
  mul64 : float64 -> float64 -> float64;
}.

Class NumPySort := {
  np_argsort : list float64 -> list nat;
  np_sort : list float64 -> list float64;
  np_searchsorted : list float64 -> float64 -> nat;
  index_of_float : float64 -> option Z;
}.

(** A Python number: an [int] or a [float]. *)
Inductive py_number : Type :=
| PyInt (z : Z)
| PyFloat (f : float64).

(** [l[k]] for a Python integer [k]: a negative [k] counts from the end,
    a position outside the list raises IndexError. *)
Definition py_index {A} (l : list A) (k : Z) : option A :=
  let n := Z.of_nat (length l) in
  if 0 <=? k then l !! Z.to_nat k
  else if 0 <=? n + k then l !! Z.to_nat (n + k)
  else None.

(** The number of elements of [data] above, and not below, [th]:
    [numpy.sum(data > th)] and [numpy.sum(data >= th)]. *)
Definition count_above (th : float64) (data : list float64) : nat :=
  count_true ((fun x => fltb th x) <$> data).

Definition count_not_below (th : float64) (data : list float64) : nat :=
  count_true ((fun x => fleb th x) <$> data).

Definition count_below (th : float64) (data : list float64) : nat :=
  count_true ((fun x => fltb x th) <$> data).

Definition count_not_above (th : float64) (data : list float64) : nat :=
  count_true ((fun x => fleb x th) <$> data).

Section Thresholds.

Context `{NumPySort} `{Binary64}.

(** [idx = numpy.argsort(data); if not reverse: idx = idx[::-1]] *)
Definition selection_order (data : list float64) (rev : bool) : list nat :=
  let idx := np_argsort data in
  if rev then idx else reverse idx.

(** The position [total] after [if total < 1.0: total = int(total*data.shape[0])]. *)
Definition total_position (n : Z) (total : py_number) : option Z :=
  match total with
  | PyInt z => if z <? 1 then Some (z * n) else Some z
  | PyFloat f => if fltb f (of_Z 1) then py_int (mul64 f (of_Z n))
                 else index_of_float f
  end.

(** [threshold_from_total(data, total, reverse)] *)
Definition threshold_from_total (data : list float64) (total : py_number)
    (rev : bool) : option float64 :=
  total ← total_position (Z.of_nat (length data)) total;
  let idx := selection_order data rev in
  i ← py_index idx total;
  data !! i.

(** [threshold_max(data, threshold, max_num, reverse)] *)
Definition threshold_max (data : list float64) (threshold : float64)
    (max_num : Z) (rev : bool) : option float64 :=
  let idx := selection_order data rev in
  sorted ← mapM (fun i => data !! i) idx;
  let threshold := Z.of_nat (np_searchsorted sorted threshold) in
  let threshold := if max_num <? threshold then max_num else threshold in
  i ← py_index idx threshold;
  data !! i.

End Thresholds.

(** A computable instance: a stable insertion sort with nan last, the
    binary search of [numpy.searchsorted] (left side), and truncation for
    a float used as an index. *)
Module RefSort.

Definition before (data : list float64) (i j : nat) : bool :=
  let x := nth i data NaN in
  let y := nth j data NaN in
  isnan y || (negb (isnan x) && fleb x y).

Fixpoint insert_index (data : list float64) (i : nat) (l : list nat) : list nat :=
  match l with
  | [] => [i]
  | j :: l' => if before data i j then i :: l else j :: insert_index data i l'
  end.

Definition argsort (data : list float64) : list nat :=
  foldr (insert_index data) [] (seq 0 (length data)).

Fixpoint bisect (fuel : nat) (a : list float64) (v : float64) (lo hi : nat) : nat :=
  match fuel with
  | O => lo
  | S fuel' =>
      if (lo <? hi)%nat then
        let mid := ((lo + hi) / 2)%nat in
        if fltb (nth mid a NaN) v then bisect fuel' a v (S mid) hi
        else bisect fuel' a v lo mid
      else lo
  end.

Definition searchsorted (a : list float64) (v : float64) : nat :=
  bisect (S (length a)) a v 0 (length a).

Definition sort (data : list float64) : list float64 :=
  (fun i => nth i data NaN) <$> argsort data.

#[export] Instance numpy_sort : NumPySort :=
  {| np_argsort := argsort; np_sort := sort; np_searchsorted := searchsorted;
     index_of_float := py_int |}.

(** The integer nearest to [n / d], ties to even, for [n >= 0], [d > 0]. *)
Definition nearest_even (n d : Z) : Z :=
  let q := n / d in
  let r := n mod d in
  if 2 * r <? d then q
  else if d <? 2 * r then q + 1
  else if Z.even q then q else q + 1.

(** [a / d / 2^e] as a fraction of integers. *)
Definition scaled (a d e : Z) : Z * Z :=
  if 0 <=? e then (a, d * 2 ^ e) else (a * 2 ^ (- e), d).

(** Rounding to the nearest float64, ties to even: a significand of 53
    bits, an infinity from [2^1024] on (subnormal values are not
    treated). *)
Definition round_to_nearest (q : Q) : float64 :=
  let n := Qnum q in
  let d := QDen q in
  if n =? 0 then Fin 0
  else
    let a := Z.abs n in
    let e0 := Z.log2 a - Z.log2 d - 52 in
    let e := if fst (scaled a d e0) <? snd (scaled a d e0) * 2 ^ 52
             then e0 - 1 else e0 in
    let m := nearest_even (fst (scaled a d e)) (snd (scaled a d e)) in
    let mag := if 0 <=? e then inject_Z (m * 2 ^ e)
               else Qred (Qmake m (Z.to_pos (2 ^ (- e)))) in
    if Qle_bool (inject_Z (2 ^ 1024)) mag then inf_of_sign (Z.sgn n)
    else Fin (if n <? 0 then Qred (- mag) else mag).

Definition rounded_product (x y : float64) : float64 :=
  match fmul x y with
  | Fin q => round_to_nearest q
  | v => v
  end.

#[export] Instance binary64 : Binary64 := {| mul64 := rounded_product |}.

(** The float64 nearest to 0.7. *)
Definition seven_tenths : Q := 3152519739159347 # 4503599627370496.

(** Ten values, unsorted. *)
Definition ten : list float64 := of_Z <$> [4; 9; 1; 7; 3; 10; 2; 6; 8; 5].

(** Seven scores, unsorted. *)
Definition scores : list float64 := of_Z <$> [5; 9; 1; 7; 3; 9; 2].

End RefSort.

(** ** analysis.otsu

    [data] is a float array and [bins] a Python integer. *)

(** [numpy.arange(start, stop, step)] for a positive integer step. *)
Definition arange_step (start stop step : Z) : list Z :=
  (fun k => start + Z.of_nat k * step)
    <$> seq 0 (Z.to_nat ((stop - start + step - 1) / step)).

(** [a[start:len(a):step]] for [start >= 0] and a positive step. *)
Definition slice_step {A} (start step : Z) (a : list A) : list A :=
  omap (fun i => a !! Z.to_nat i) (arange_step start (Z.of_nat (length a)) step).

(** Python 2 [a / b] on integers: floor division, ZeroDivisionError for
    [b = 0]. *)
Definition py_floordiv (a b : Z) : option Z :=
  if b =? 0 then None else Some (a / b).

(** The sum of two float64 values where it can leave the finite range: an
    infinity as soon as the exact sum reaches [2^1024 - 2^970], half a
    unit in the last place beyond the largest finite value.  (The
    rounding of a finite sum is not modelled.) *)
Definition overflow_threshold : Q := inject_Z (2 ^ 1024 - 2 ^ 970).

Definition add64 (x y : float64) : float64 :=
  match fadd x y with
  | Fin s => if Qle_bool overflow_threshold (Qabs s) then inf_of_sign (Qsgn s)
             else Fin s
  | v => v
  end.

(** Half the largest finite float64, [2^1023 - 2^970]: the sum of two
    values of at most this magnitude stays finite. *)
Definition half_max : Q := inject_Z (2 ^ 1023 - 2 ^ 970).

(** The end of [otsu], from [if len(scores) == 0] on: the threshold next
    to the first minimum of the scores. *)
Definition otsu_pick (thresholds scores : list float64) : option float64 :=
  match scores with
  | [] => thresholds !! 0%nat
  | _ :: _ =>
      smin ← np_min scores;
      match argwhere ((fun s => feqb s smin) <$> scores) with
      | [] => thresholds !! 0%nat
      | index :: _ =>
          let index := Z.of_nat index in
          let last := Z.of_nat (length thresholds) - 1 in
          let index_low := if index =? 0 then 0 else index - 1 in
          let index_high := if index =? last then last else index + 1 in
          a ← py_index thresholds index_low;
          b ← py_index thresholds index_high;
          Some (fdiv (add64 a b) (of_Z 2))
      end
  end.

Section Otsu.

Context `{NumPySort}.

(** [otsu(data, bins)].  [int(numpy.sqrt(len(data)))] is the integer
    square root. *)
Definition otsu (data : list float64) (bins : Z) : option float64 :=
  let n := Z.of_nat (length data) in
  let bins := if bins <=? 0 then Z.sqrt n else bins in
  let bins := if n <? bins then n else bins in
  let data := np_sort data in
  let var := running_variance data in
  let rvar := reverse (running_variance (reverse data)) in
  rng ← py_floordiv n bins;
  let thresholds := slice_step 1 rng data in
  let idx := arange_step 0 (n - 1) rng in
  low ← mapM (py_index var) idx;
  let score_low := vmul low (of_Z <$> idx) in
  let idx := arange_step 1 n rng in
  high ← mapM (py_index rvar) idx;
  let score_high := vmul high ((fun i => of_Z (n - i)) <$> idx) in
  let scores := vadd score_low score_high in
  otsu_pick thresholds scores.

End Otsu.

(* ===================================================================== *)
(** * Properties *)
(* ===================================================================== *)

(** ** Finite floats and the rationals they carry *)

Lemma feq_Fin q : feq (Fin q) q.
Proof. exists q. split; [reflexivity | apply Qeq_refl]. Qed.

Lemma feq_Qeq f q q' : feq f q -> (q == q')%Q -> feq f q'.
Proof. intros (a & -> & Ha) Hq. exists a. split; [reflexivity|]. now rewrite Ha. Qed.

Lemma feq_add x y a b : feq x a -> feq y b -> feq (fadd x y) (a + b)%Q.
Proof.
  intros (a' & -> & Ha) (b' & -> & Hb). simpl. eexists. split; [reflexivity|].
  rewrite Qred_correct, Ha, Hb. apply Qeq_refl.
Qed.

Lemma feq_sub x y a b : feq x a -> feq y b -> feq (fsub x y) (a - b)%Q.
Proof.
  intros (a' & -> & Ha) (b' & -> & Hb). simpl. eexists. split; [reflexivity|].
  rewrite Qred_correct, Ha, Hb. apply Qeq_refl.
Qed.

Lemma feq_mul x y a b : feq x a -> feq y b -> feq (fmul x y) (a * b)%Q.
Proof.
  intros (a' & -> & Ha) (b' & -> & Hb). simpl. eexists. split; [reflexivity|].
  rewrite Qred_correct, Ha, Hb. apply Qeq_refl.
Qed.

Lemma Qsgn_inject_Z k : Qsgn (inject_Z k) = Z.sgn k.
Proof. reflexivity. Qed.

(** Division by a non-zero integer stays finite, and the quotient is stored
    in lowest terms. *)
Lemma fdiv_of_Z x a k :
  feq x a -> k <> 0 ->
  exists q, fdiv x (of_Z k) = Fin (Qred q) /\ (q == a / inject_Z k)%Q.
Proof.
  intros (a' & -> & Ha) Hk. unfold of_Z. simpl.
  rewrite Qsgn_inject_Z. destruct (Z.eqb_spec (Z.sgn k) 0) as [E|_].
  - destruct k; simpl in E; congruence.
  - eexists. split; [reflexivity|]. now rewrite Ha.
Qed.

Lemma feq_div_of_Z x a k : feq x a -> k <> 0 -> feq (fdiv x (of_Z k)) (a / inject_Z k)%Q.
Proof.
  intros Hx Hk. destruct (fdiv_of_Z x a k Hx Hk) as (q & -> & Hq).
  exists (Qred q). split; [reflexivity|]. now rewrite Qred_correct.
Qed.

(** ** running_variance *)

Section RunningVariance.

Import Stats.
Local Open Scope Q_scope.

Lemma arange_S a n : arange a (S n) = of_Z a :: arange (a + 1) n.
Proof.
  unfold arange. simpl. rewrite Z.add_0_r. f_equal.
  rewrite <- fmap_S_seq, <- list_fmap_compose.
  apply list_fmap_ext. intros _ k _. simpl. f_equal. lia.
Qed.

Lemma length_arange a n : length (arange a n) = n.
Proof. unfold arange. now rewrite length_fmap, length_seq. Qed.

Lemma length_cumsum_from acc l : length (cumsum_from acc l) = length l.
Proof. revert acc. induction l as [|x l IH]; intros acc; simpl; [|rewrite IH]; reflexivity. Qed.

Lemma lenQ_cons x l : lenQ (x :: l) == lenQ l + 1.
Proof.
  unfold lenQ. simpl length. rewrite Nat2Z.inj_succ, <- Z.add_1_r, inject_Z_plus.
  reflexivity.
Qed.

Lemma lenQ_pos l : l <> [] -> 0 < lenQ l.
Proof.
  intros Hl. unfold lenQ. change 0 with (inject_Z 0). rewrite <- Zlt_Qlt.
  destruct l; [congruence | simpl; lia].
Qed.

Lemma lenQ_nonzero l : l <> [] -> ~ lenQ l == 0.
Proof. intros Hl E. pose proof (lenQ_pos l Hl) as H. rewrite E in H. now apply Qlt_irrefl in H. Qed.

Lemma sumQ_app l1 l2 : sumQ (l1 ++ l2) == sumQ l1 + sumQ l2.
Proof.
  induction l1 as [|x l1 IH]; simpl.
  - now rewrite Qplus_0_l.
  - rewrite IH. ring.
Qed.

Lemma sumsqQ_app l1 l2 : sumsqQ (l1 ++ l2) == sumsqQ l1 + sumsqQ l2.
Proof. unfold sumsqQ. rewrite map_app. apply sumQ_app. Qed.

Lemma lenQ_snoc l x : lenQ (l ++ [x]) == lenQ l + 1.
Proof.
  unfold lenQ. rewrite length_app. simpl length.
  rewrite Nat2Z.inj_add, inject_Z_plus. reflexivity.
Qed.

(** Squared deviations from any centre [c], through the power sums. *)
Lemma sum_sqdev c l :
  sumQ (map (fun x => (x - c) * (x - c)) l)
  == sumsqQ l - (2 # 1) * c * sumQ l + lenQ l * c * c.
Proof.
  induction l as [|x l IH].
  - unfold sumsqQ, lenQ. simpl. ring.
  - unfold sumsqQ in *. simpl map. simpl sumQ. rewrite IH, lenQ_cons. ring.
Qed.

Lemma variance_ssq l : l <> [] -> variance l == ssq l / lenQ l.
Proof.
  intros Hl. unfold variance, ssq. cbv zeta. rewrite sum_sqdev.
  pose proof (lenQ_nonzero l Hl). field. assumption.
Qed.

(** Welford's step: appending one sample to a non-empty prefix. *)
Lemma ssq_snoc pre x :
  pre <> [] ->
  ssq (pre ++ [x])
  == ssq pre + (x - sumQ pre / lenQ pre) * (x - (sumQ pre + x) / (lenQ pre + 1)).
Proof.
  intros Hp. unfold ssq. rewrite sumsqQ_app, sumQ_app, lenQ_snoc.
  unfold sumsqQ at 2. simpl. pose proof (lenQ_pos pre Hp) as Hpos.
  assert (~ lenQ pre == 0) by (now apply lenQ_nonzero).
  assert (~ lenQ pre + 1 == 0).
  { intros E. assert (0 < lenQ pre + 1) as H1.
    { apply Qlt_trans with (lenQ pre); [assumption|].
      rewrite <- (Qplus_0_r (lenQ pre)) at 1. apply Qplus_lt_r. reflexivity. }
    rewrite E in H1. now apply Qlt_irrefl in H1. }
  field. split; assumption.
Qed.


Lemma length_rv_from r : forall k T s, length (rv_from k T s r) = length r.
Proof. induction r as [|x r IH]; intros; simpl; [|rewrite IH]; reflexivity. Qed.

(** The Q-level recurrence computes the variance of every prefix. *)
Lemma rv_from_variance r : forall pre k T s,
  pre <> [] -> k = Z.of_nat (length pre) -> T == sumQ pre -> s == ssq pre ->
  forall j v, rv_from k T s r !! j = Some v ->
              v == variance (pre ++ take (S j) r).
Proof.
  induction r as [|x r IH]; intros pre k T s Hpre Hk HT Hs j v Hj.
  - destruct j; discriminate.
  - assert (inject_Z k == lenQ pre) as Hklen by (subst k; reflexivity).
    assert (inject_Z (k + 1) == lenQ pre + 1) as Hk1.
    { rewrite inject_Z_plus, Hklen. reflexivity. }
    assert (s + (x - T / inject_Z k) * (x - (T + x) / inject_Z (k + 1))
            == ssq (pre ++ [x])) as Hs'.
    { rewrite ssq_snoc by assumption. rewrite Hs, HT, Hklen, Hk1. reflexivity. }
    destruct j as [|j]; simpl in Hj.
    + injection Hj as <-. simpl take.
      rewrite variance_ssq by (destruct pre; discriminate).
      rewrite Hs', Hk1, lenQ_snoc. reflexivity.
    + replace (pre ++ take (S (S j)) (x :: r)) with ((pre ++ [x]) ++ take (S j) r)
        by (rewrite <- app_assoc; reflexivity).
      eapply IH; [ | | | | exact Hj].
      * destruct pre; discriminate.
      * rewrite length_app. simpl. lia.
      * rewrite sumQ_app, HT. simpl. ring.
      * exact Hs'.
Qed.

(** Welford's recurrence ends with the same sum of squared deviations. *)
Lemma welford_from_ssq r : forall pre k M S,
  pre <> [] -> k = Z.of_nat (length pre) ->
  M == sumQ pre / lenQ pre -> S == ssq pre ->
  snd (welford_from k M S r) == ssq (pre ++ r).
Proof.
  induction r as [|x r IH]; intros pre k M S Hpre Hk HM HS.
  - simpl. now rewrite app_nil_r.
  - simpl. replace (pre ++ x :: r) with ((pre ++ [x]) ++ r)
      by (rewrite <- app_assoc; reflexivity).
    assert (inject_Z (k + 1) == lenQ pre + 1) as Hk1.
    { subst k. rewrite inject_Z_plus. reflexivity. }
    pose proof (lenQ_pos pre Hpre) as Hpos.
    assert (~ lenQ pre == 0) as Hnz by (now apply lenQ_nonzero).
    assert (~ lenQ pre + 1 == 0) as Hnz1.
    { rewrite <- lenQ_snoc with (x := x). apply lenQ_nonzero. destruct pre; discriminate. }
    assert (M + (x - M) / inject_Z (k + 1) == (sumQ pre + x) / (lenQ pre + 1)) as HM'.
    { rewrite Hk1, HM. field. split; assumption. }
    apply IH.
    + destruct pre; discriminate.
    + rewrite length_app. simpl. lia.
    + rewrite HM', sumQ_app, lenQ_snoc. simpl. rewrite Qplus_0_r. reflexivity.
    + rewrite ssq_snoc by assumption. rewrite HS, HM', HM. reflexivity.
Qed.

Lemma ssq_singleton x : ssq [x] == 0.
Proof. unfold ssq, sumsqQ, lenQ. simpl. field. Qed.

Lemma welford_variance_correct l : l <> [] -> welford_variance l == variance l.
Proof.
  intros Hl. destruct l as [|x r]; [congruence|].
  unfold welford_variance. rewrite variance_ssq by discriminate.
  rewrite (welford_from_ssq r [x] 1 x 0); try reflexivity; try discriminate.
  - unfold lenQ. simpl. field.
  - now rewrite ssq_singleton.
Qed.


Lemma fcan_eq f q : fcan f q -> f = Fin (Qred q).
Proof. intros (q0 & -> & H). f_equal. now apply Qred_complete. Qed.

(** The vectorised pipeline of [running_variance] after [k] samples with
    running sum [c] and accumulated products [sacc] follows [rv_from]. *)
Lemma rv_code r : forall c sacc T s k,
  (1 <= k)%Z -> feq c T -> feq sacc s ->
  let R := Fin <$> r in
  let MS := vdiv (cumsum_from c R) (arange (k + 1) (length r)) in
  Forall2 fcan
    (vdiv (cumsum_from sacc (vmul (vsub R (fdiv c (of_Z k) :: MS)) (vsub R MS)))
          (arange (k + 1) (length r)))
    (rv_from k T s r).
Proof.
  induction r as [|x r IH]; intros c sacc T s k Hk Hc Hs; cbv zeta.
  - constructor.
  - simpl length. rewrite arange_S. simpl.
    assert (feq (fadd c (Fin x)) (T + x)) as Hc'
      by (apply feq_add; [assumption | apply feq_Fin]).
    assert (feq (fadd sacc (fmul (fsub (Fin x) (fdiv c (of_Z k)))
                                 (fsub (Fin x) (fdiv (fadd c (Fin x)) (of_Z (k + 1))))))
                (s + (x - T / inject_Z k) * (x - (T + x) / inject_Z (k + 1)))) as Hs'.
    { apply feq_add; [assumption|]. apply feq_mul; apply feq_sub;
        try apply feq_Fin; apply feq_div_of_Z; try assumption; lia. }
    constructor.
    + destruct (fdiv_of_Z _ _ (k + 1)%Z Hs') as (q & Hq & Hq'); [lia|].
      exists q. split; assumption.
    + apply (IH _ _ _ _ (k + 1)%Z); [lia | assumption | assumption].
Qed.

Lemma running_variance_unfold x0 r :
  running_variance (Fin <$> (x0 :: r))
  = of_Z 0 ::
    (let R := Fin <$> r in
     let c := fadd (Fin 0) (Fin x0) in
     let MS := vdiv (cumsum_from c R) (arange 2 (length r)) in
     vdiv (cumsum_from (Fin 0) (vmul (vsub R (fdiv c (of_Z 1) :: MS)) (vsub R MS)))
          (arange 2 (length r))).
Proof.
  unfold running_variance. cbv zeta. f_equal.
  rewrite length_fmap. cbn [length]. rewrite arange_S.
  replace (S (length r) - 1)%nat with (length r) by lia.
  change (Fin <$> x0 :: r) with (Fin x0 :: (Fin <$> r)).
  unfold cumsum. cbn [cumsum_from].
  set (c := fadd (Fin 0) (Fin x0)).
  change (1 + 1)%Z with 2%Z.
  change (vdiv (c :: cumsum_from c (Fin <$> r)) (of_Z 1 :: arange 2 (length r)))
    with (fdiv c (of_Z 1) :: vdiv (cumsum_from c (Fin <$> r)) (arange 2 (length r))).
  set (MS := vdiv (cumsum_from c (Fin <$> r)) (arange 2 (length r))).
  change (drop 1 (Fin x0 :: (Fin <$> r))) with (Fin <$> r).
  change (drop 1 (fdiv c (of_Z 1) :: MS)) with MS.
  assert (length MS = length r) as HMS.
  { unfold MS, vdiv. rewrite length_zip_with, length_cumsum_from, length_fmap, length_arange. lia. }
  assert (drop_last (fdiv c (of_Z 1) :: MS) = take (length r) (fdiv c (of_Z 1) :: MS)) as ->.
  { unfold drop_last. cbn [length]. rewrite HMS. f_equal. lia. }
  f_equal. f_equal. f_equal. unfold vsub.
  rewrite <- (length_fmap Fin r) at 1. apply zip_with_take_r.
Qed.

End RunningVariance.

(** C9.  For every array [x] of finite values of length [n >= 1] (sorted or
    not), [running_variance x] has length [n], starts with 0, and for every
    index [i >= 1] its entry [i] is the variance of the prefix [x[0..i]]
    (the [i+1] first samples), which is also what Welford's incremental
    recurrence yields on that prefix. *)
Theorem running_variance_prefix (qs : list Q) :
  (1 <= length qs)%nat ->
  length (running_variance (Fin <$> qs)) = length qs
  /\ running_variance (Fin <$> qs) !! 0%nat = Some (Fin 0)
  /\ forall i, (1 <= i < length qs)%nat ->
       running_variance (Fin <$> qs) !! i
         = Some (Fin (Qred (Stats.variance (take (S i) qs))))
       /\ (Stats.variance (take (S i) qs)
           == Stats.welford_variance (take (S i) qs))%Q.
Proof.
  intros Hn. destruct qs as [|x0 r]; [simpl in Hn; lia|].
  rewrite running_variance_unfold. cbv zeta.
  pose proof (rv_code r (fadd (Fin 0) (Fin x0)) (Fin 0) x0 0%Q 1) as Hcode.
  cbv zeta in Hcode. change (1 + 1) with 2 in Hcode.
  assert (feq (fadd (Fin 0) (Fin x0)) x0) as Hc.
  { eapply feq_Qeq; [apply feq_add; apply feq_Fin|]. apply Qplus_0_l. }
  specialize (Hcode ltac:(lia) Hc (feq_Fin 0)).
  set (out := vdiv _ _) in *.
  pose proof (Forall2_length _ _ _ Hcode) as Hlen.
  rewrite length_rv_from in Hlen.
  split; [|split].
  - cbn [length]. now rewrite Hlen.
  - reflexivity.
  - intros i Hi. destruct i as [|j]; [lia|]. cbn [length] in Hi. split.
    + change ((of_Z 0 :: out) !! S j) with (out !! j).
      destruct (lookup_lt_is_Some_2 out j ltac:(lia)) as [f Hf].
      destruct (Forall2_lookup_l _ _ _ _ _ Hcode Hf) as (v & Hv & Hfc).
      rewrite Hf. f_equal. apply fcan_eq in Hfc. rewrite Hfc. f_equal.
      apply Qred_complete.
      apply (rv_from_variance r [x0] 1 x0 0%Q).
      * discriminate.
      * reflexivity.
      * simpl. now rewrite Qplus_0_r.
      * symmetry. apply ssq_singleton.
      * exact Hv.
    + symmetry. apply welford_variance_correct. discriminate.
Qed.

(** ** one_class_selection *)

Section OneClassSelectionProps.

Context `{NumPy}.

Lemma count_true_replicate n : count_true (replicate n true) = n.
Proof. induction n as [|n IH]; simpl; [|rewrite IH]; reflexivity. Qed.

(** The assertion closing the loop body lets only non-empty masks through. *)
Lemma clip_step_Some data sel nstd sel' :
  clip_step data sel nstd = Some sel' <->
  clip_band data sel nstd = Some sel' /\ (0 < count_true sel')%nat.
Proof.
  unfold clip_step. destruct (clip_band data sel nstd) as [b|]; simpl.
  - destruct (Nat.ltb_spec 0 (count_true b)) as [Hpos|Hle]; split.
    + intros [= <-]. split; [reflexivity | assumption].
    + intros [[= <-] _]. reflexivity.
    + discriminate.
    + intros [[= <-] Hc]. lia.
  - split; [discriminate | intros [? _]; discriminate].
Qed.

Lemma clip_step_empty_band data sel nstd sel' :
  clip_band data sel nstd = Some sel' -> count_true sel' = 0%nat ->
  clip_step data sel nstd = None.
Proof.
  intros Hb Hc. destruct (clip_step data sel nstd) as [b|] eqn:E; [|reflexivity].
  apply clip_step_Some in E as [E1 E2]. rewrite Hb in E1. injection E1 as <-. lia.
Qed.

Lemma clip_loop_app data sel pre post :
  clip_loop data sel (pre ++ post)
  = match clip_loop data sel pre with
    | Some sel1 => clip_loop data sel1 post
    | None => None
    end.
Proof.
  revert sel. induction pre as [|nstd pre IH]; intros sel; simpl; [reflexivity|].
  destruct (clip_step data sel nstd); [apply IH | reflexivity].
Qed.

(** The loop never turns a non-empty mask into an empty one. *)
Lemma clip_loop_nonempty data nstds : forall sel sel',
  clip_loop data sel nstds = Some sel' ->
  (0 < count_true sel)%nat -> (0 < count_true sel')%nat.
Proof.
  induction nstds as [|nstd rest IH]; intros sel sel' Hloop Hsel; simpl in Hloop.
  - now injection Hloop as <-.
  - destruct (clip_step data sel nstd) as [sel1|] eqn:E; [|discriminate].
    apply clip_step_Some in E as [_ Hpos]. eapply IH; eassumption.
Qed.

(** [numpy.max] over the sample axis succeeds only when there are samples. *)
Lemma along_axis_max_nonempty c data l :
  along_axis_opt np_max c data = Some l -> (0 < arr_len data)%nat.
Proof.
  destruct data as [v|rows]; simpl.
  - destruct v; simpl; [discriminate | lia].
  - destruct rows; simpl; [discriminate | lia].
Qed.

Lemma clip_start_nonempty data start :
  clip_start data = Some start -> (0 < arr_len data)%nat.
Proof.
  unfold clip_start.
  destruct (along_axis_opt np_max (data_ncols data) data) as [maxval|] eqn:E;
    [|discriminate].
  intros _. eapply along_axis_max_nonempty. exact E.
Qed.

End OneClassSelectionProps.

(** C2.  [one_class_selection] never returns an all-false mask: a normal
    return carries a mask with [sum(selected) > 0]; and when, at some pass
    of the loop, the recomputed band selects no sample, the call fails. *)
Theorem one_class_selection_never_empty `{NumPy} (data : ndarray) (nstd_min : Z) :
  (forall sel, one_class_selection data nstd_min = Some sel ->
               (0 < count_true sel)%nat)
  /\ (forall start pre nstd post sel1 sel',
        clip_start data = Some start ->
        xrange_down start (nstd_min - 1) = pre ++ nstd :: post ->
        clip_loop data (replicate (arr_len data) true) pre = Some sel1 ->
        clip_band data sel1 nstd = Some sel' ->
        count_true sel' = 0%nat ->
        one_class_selection data nstd_min = None).
Proof.
  split.
  - intros sel Hret. unfold one_class_selection in Hret.
    destruct (clip_start data) as [start|] eqn:Hstart; [|discriminate].
    simpl in Hret. eapply clip_loop_nonempty; [exact Hret|].
    rewrite count_true_replicate. eapply clip_start_nonempty; eassumption.
  - intros start pre nstd post sel1 sel' Hstart Hrange Hpre Hband Hzero.
    unfold one_class_selection. rewrite Hstart. simpl.
    rewrite Hrange, clip_loop_app, Hpre. simpl.
    now rewrite (clip_step_empty_band _ _ _ _ Hband Hzero).
Qed.

(** ** Order on floats *)

Lemma fltb_Fin a b : fltb (Fin a) (Fin b) = true <-> (a < b)%Q.
Proof. unfold fltb, Qlt. apply Z.ltb_lt. Qed.

Lemma fleb_Fin a b : fleb (Fin a) (Fin b) = true <-> (a <= b)%Q.
Proof. unfold fleb, Qle. apply Z.leb_le. Qed.

Lemma fltb_fleb_trans x y z :
  fltb x y = true -> fleb y z = true -> fltb x z = true.
Proof.
  destruct x as [a| | |], y as [b| | |], z as [c| | |]; simpl; try discriminate;
    try reflexivity.
  intros Hab Hbc. apply (fltb_Fin a c).
  apply (fltb_Fin a b) in Hab. apply (fleb_Fin b c) in Hbc.
  eapply Qlt_le_trans; eassumption.
Qed.

Lemma fltb_fleb x y : fltb x y = true -> fleb x y = true.
Proof.
  destruct x as [a| | |], y as [b| | |]; simpl; try discriminate; try reflexivity.
  intros Hab. apply (fleb_Fin a b). apply (fltb_Fin a b) in Hab. now apply Qlt_le_weak.
Qed.

(** On finite values the order is total. *)
Lemma fltb_false_fleb x y :
  isfinite x = true -> isfinite y = true -> fltb x y = false -> fleb y x = true.
Proof.
  destruct x as [a| | |], y as [b| | |]; simpl; try discriminate.
  intros _ _ Hab. apply Z.leb_le. apply Z.ltb_ge in Hab. exact Hab.
Qed.

Lemma fltb_nan_r x : fltb x NaN = false.
Proof. now destruct x. Qed.

(** ** one_class_classification *)

Lemma count_true_mono {A} (f g : A -> bool) (l : list A) :
  (forall x, f x = true -> g x = true) ->
  (count_true (f <$> l) <= count_true (g <$> l))%nat.
Proof.
  intros Hfg. induction l as [|x l IH]; [simpl; lia|].
  rewrite !fmap_cons. cbn [count_true].
  destruct (f x) eqn:Ef.
  - rewrite (Hfg x Ef). lia.
  - destruct (g x); lia.
Qed.

Lemma ncols_truncate_features feat neig :
  0 <= neig ->
  ncols (truncate_features feat neig) = Nat.min (Z.to_nat neig) (ncols feat).
Proof.
  intros Hn. unfold ncols, truncate_features, slice_to.
  destruct (Z.leb_spec 0 neig) as [_|Hneg]; [|lia].
  destruct feat as [|row feat]; simpl.
  - now rewrite Nat.min_0_r.
  - apply length_take.
Qed.

Lemma length_slice_to {A} (k : Z) (l : list A) :
  length (slice_to k l)
  = if 0 <=? k then Nat.min (Z.to_nat k) (length l)
    else (length l - Z.to_nat (- k))%nat.
Proof.
  unfold slice_to. destruct (0 <=? k); rewrite length_take; lia.
Qed.

(** The rows of a truncated 2-D array have one length. *)
Lemma rows_truncate_features feat neig :
  Forall (fun r => length r = ncols feat) feat ->
  Forall (fun r => length r = ncols (truncate_features feat neig))
         (truncate_features feat neig).
Proof.
  intros Hrect. unfold truncate_features, ncols.
  destruct feat as [|r0 feat]; [constructor|].
  cbn [hd] in Hrect.
  change (hd [] (slice_to neig <$> r0 :: feat)) with (slice_to neig r0).
  apply Forall_fmap. eapply Forall_impl; [exact Hrect|].
  intros r Hr. cbn [compose]. now rewrite !length_slice_to, Hr.
Qed.

Section Metric.

Context `{NumPy} `{SciPy} `{SkLearn} `{!SkLearnPrecision}.

Lemma median_columns_each feat :
  median_columns feat = (fun j => np_median (column j feat)) <$> seq 0 (ncols feat).
Proof.
  unfold median_columns, columns, columns_of. now rewrite <- list_fmap_compose.
Qed.

(** [estimator.mahalanobis(observations)] takes its observations as
    centred and returns [sum(dot(obs, precision) * obs, 1)], the squared
    distance of every row from the origin in the metric of the fitted
    precision matrix ... *)
Hypothesis mahalanobis_centred : forall cov X,
  Forall (fun r => length r = nrows (get_precision cov)) X ->
  mahalanobis cov X = quadratic_form (get_precision cov) <$> X.

(** ... which has one row per column of the fitted data. *)
Hypothesis precision_shape : forall M cov,
  fit_covariance M = Some cov -> nrows (get_precision cov) = ncols M.

(** C1.  Whenever [one_class_classification] returns on a 2-D array,
    the distance of sample [i] is its squared Mahalanobis distance, in the
    metric of the precision (inverse covariance) matrix of the fitted
    estimator, from the centre whose [j]-th coordinate is the median of
    column [j] of the truncated features; sample [i] is accepted exactly
    when this distance is strictly below the chi-squared quantile at
    [prob_reject] with [k] degrees of freedom; and [k], the number of
    columns used, is [neig], or the number of available columns when
    [neig] is at least that number. *)
Theorem one_class_classification_threshold
    (feat : matrix) (neig : Z) (prob_reject : float64)
    (sel rsel : list bool) (dist : list float64) :
  Forall (fun r => length r = ncols feat) feat ->
  one_class_classification feat neig prob_reject = Some (sel, rsel, dist) ->
  let used := truncate_features feat neig in
  let k := ncols used in
  let centre := (fun j => np_median (column j used)) <$> seq 0 k in
  (exists cov,
     fit_covariance used = Some cov
     /\ forall i row, used !! i = Some row ->
          dist !! i = Some (mahalanobis_from (get_precision cov) centre row)
          /\ sel !! i
             = Some (fltb (mahalanobis_from (get_precision cov) centre row)
                          (chi2_ppf prob_reject k)))
  /\ length dist = nrows feat
  /\ length sel = length dist
  /\ (forall i d, dist !! i = Some d ->
                  sel !! i = Some (fltb d (chi2_ppf prob_reject k)))
  /\ (0 <= neig -> k = Nat.min (Z.to_nat neig) (ncols feat)).
Proof.
  intros Hrect Hret used k centre.
  unfold one_class_classification in Hret. fold used in Hret.
  destruct (fit_covariance used) as [cov|] eqn:Hfit; [|discriminate].
  simpl in Hret. injection Hret as <- _ <-. fold k.
  pose proof (rows_truncate_features feat neig Hrect) as Hrows.
  fold used in Hrows. fold k in Hrows.
  rewrite median_columns_each. fold k. fold centre.
  assert (length centre = k) as Hcentre
    by (unfold centre; now rewrite length_fmap, length_seq).
  rewrite mahalanobis_centred.
  2:{ rewrite (precision_shape used cov Hfit). fold k. unfold sub_row.
      apply Forall_fmap. eapply Forall_impl; [exact Hrows|].
      intros r Hr. cbn beta in Hr. cbn [compose]. unfold vsub.
      rewrite length_zip_with, Hr, Hcentre. lia. }
  assert (forall i row, used !! i = Some row ->
            (quadratic_form (get_precision cov) <$> sub_row used centre) !! i
            = Some (mahalanobis_from (get_precision cov) centre row)) as Hdist.
  { intros i row Hrow. unfold sub_row.
    rewrite list_lookup_fmap, list_lookup_fmap.
    change (used !! i) with (Some row) || (unfold matrix in *; rewrite Hrow).
    reflexivity. }
  split; [|split; [|split; [|split]]].
  - exists cov. split; [reflexivity|]. intros i row Hrow. split; [now apply Hdist|].
    rewrite list_lookup_fmap, (Hdist i row Hrow). reflexivity.
  - unfold sub_row, used, truncate_features, nrows. now rewrite !length_fmap.
  - apply length_fmap.
  - intros i d Hd. rewrite list_lookup_fmap, Hd. reflexivity.
  - apply ncols_truncate_features.
Qed.

End Metric.

Section Monotone.

Context `{NumPy} `{SciPy} `{SkLearn}.

(** The chi-squared quantile is non-decreasing in the probability, for
    probabilities in (0, 1) and at least one degree of freedom ... *)
Hypothesis chi2_ppf_monotone : forall p q df,
  (0 < df)%nat -> fltb (of_Z 0) p = true -> fleb p q = true ->
  fltb q (of_Z 1) = true ->
  fleb (chi2_ppf p df) (chi2_ppf q df) = true.

(** ... and it is nan for zero degrees of freedom. *)
Hypothesis chi2_ppf_no_df : forall p, chi2_ppf p 0 = NaN.

Lemma accepted_mono (dist : list float64) (p1 p2 : float64) (k : nat) :
  fltb (of_Z 0) p1 = true -> fleb p1 p2 = true -> fltb p2 (of_Z 1) = true ->
  (count_true ((fun d => fltb d (chi2_ppf p1 k)) <$> dist)
   <= count_true ((fun d => fltb d (chi2_ppf p2 k)) <$> dist))%nat.
Proof.
  intros Hp0 H12 Hp1. apply count_true_mono. intros d Hd.
  destruct k as [|k].
  - rewrite chi2_ppf_no_df, fltb_nan_r in Hd. discriminate.
  - eapply fltb_fleb_trans; [exact Hd|].
    apply chi2_ppf_monotone; [lia | assumption..].
Qed.

(** C8.  For a fixed feature matrix (the fitted covariance and the
    distance vector are then fixed too), raising [prob_reject] within
    (0, 1) never lowers the number of accepted samples. *)
Theorem accepted_count_monotone (feat : matrix) (neig : Z) (p1 p2 : float64)
    (r1 r2 : list bool * list bool * list float64) :
  fltb (of_Z 0) p1 = true -> fleb p1 p2 = true -> fltb p2 (of_Z 1) = true ->
  one_class_classification feat neig p1 = Some r1 ->
  one_class_classification feat neig p2 = Some r2 ->
  r1.2 = r2.2 /\ (count_true r1.1.1 <= count_true r2.1.1)%nat.
Proof.
  intros Hp0 H12 Hp1 Hr1 Hr2. unfold one_class_classification in *.
  destruct (fit_covariance (truncate_features feat neig)) as [cov|]; [|discriminate].
  simpl in Hr1, Hr2. injection Hr1 as <-. injection Hr2 as <-. simpl.
  split; [reflexivity|]. now apply accepted_mono.
Qed.

End Monotone.

(** ** pca *)

Section PCAProps.

Context `{NumPy} `{SciPy}.

Lemma fleb_one_neg frac : fltb frac (of_Z 0) = true -> fleb (of_Z 1) frac = false.
Proof.
  destruct frac as [q| | |]; simpl; try discriminate; try reflexivity.
  intros Hq. apply Z.ltb_lt in Hq. apply Z.leb_gt. simpl in *. lia.
Qed.

Lemma feqb_zero_neg frac : fltb frac (of_Z 0) = true -> feqb frac (of_Z 0) = false.
Proof.
  destruct frac as [q| | |]; simpl; try discriminate; try reflexivity.
  intros Hq. apply Z.ltb_lt in Hq. apply Z.eqb_neq. simpl in *. lia.
Qed.

Lemma fgtb_zero_neg frac : fltb frac (of_Z 0) = true -> fgtb frac (of_Z 0) = false.
Proof.
  destruct frac as [q| | |]; simpl; try discriminate; try reflexivity.
  intros Hq. apply Z.ltb_lt in Hq. apply Z.ltb_ge. simpl in *. lia.
Qed.

(** With a negative [frac] the rank taken before the guard is the full
    length of the spectrum ... *)
Lemma pca_rank_negative frac d t n p :
  fltb frac (of_Z 0) = true -> pca_rank frac d t n p = Some (Z.of_nat (length d)).
Proof.
  intros Hneg. unfold pca_rank.
  now rewrite fleb_one_neg, feqb_zero_neg, fgtb_zero_neg.
Qed.

(** ... which the guard [idx >= len(d)] always replaces by 1. *)
Lemma pca_guard_full d : pca_guard (Z.of_nat (length d)) d = 1.
Proof. unfold pca_guard. now rewrite Z.leb_refl. Qed.

(** Every mode selects a rank of at least 1. *)
Lemma pca_rank_pos frac d t n p idx :
  pca_rank frac d t n p = Some idx -> 1 <= idx \/ idx = Z.of_nat (length d).
Proof.
  unfold pca_rank.
  destruct (fleb (of_Z 1) frac) eqn:Hge.
  - destruct frac as [q| | |]; simpl in *; try discriminate.
    intros [= <-]. left. apply Z.leb_le in Hge.
    apply Z.quot_le_lower_bound; simpl in *; lia.
  - destruct (feqb frac (of_Z 0)); [intros [= <-]; lia|].
    destruct (fgtb frac (of_Z 0)); intros [= <-]; lia.
Qed.

(** Unfolding of a successful call. *)
Lemma pca_Some trn tst frac r :
  pca trn tst frac = Some r ->
  exists U d V idx0,
    svd (centered trn) = Some (U, d, V)
    /\ pca_rank frac d (spectrum_of d (nrows trn)) (nrows trn) (ncols trn) = Some idx0
    /\ pca_idx r = pca_guard idx0 d
    /\ pca_basis r = take (Z.to_nat (pca_idx r)) V
    /\ (Z.to_nat (pca_idx r) < length d)%nat.
Proof.
  unfold pca, centered. intros Hret.
  destruct (svd (sub_row trn (column_means trn))) as [[[U d] V]|] eqn:Hsvd;
    [|discriminate].
  simpl in Hret.
  destruct (pca_rank frac d (spectrum_of d (nrows trn)) (nrows trn) (ncols trn))
    as [idx0|] eqn:Hrank; [|discriminate].
  simpl in Hret.
  destruct (spectrum_of d (nrows trn) !! Z.to_nat (pca_guard idx0 d))
    as [spec|] eqn:Hspec; [|discriminate].
  simpl in Hret. injection Hret as <-.
  exists U, d, V, idx0.
  split; [reflexivity|]. split; [exact Hrank|].
  split; [reflexivity|]. split; [reflexivity|]. simpl.
  apply lookup_lt_Some in Hspec. unfold spectrum_of in Hspec.
  rewrite !length_fmap in Hspec. exact Hspec.
Qed.

Lemma pca_guard_pos idx d :
  1 <= idx \/ idx = Z.of_nat (length d) -> 1 <= pca_guard idx d.
Proof.
  intros Hidx. unfold pca_guard.
  destruct (Z.leb_spec (Z.of_nat (length d)) idx); lia.
Qed.

Lemma ncols_centered trn : ncols (centered trn) = ncols trn.
Proof.
  unfold centered, sub_row, ncols. destruct trn as [|row trn]; [reflexivity|].
  cbn [fmap list_fmap hd]. unfold vsub. rewrite length_zip_with.
  unfold column_means, columns, columns_of.
  rewrite length_fmap, length_fmap, length_seq. unfold ncols. simpl. lia.
Qed.

Lemma nrows_centered trn : nrows (centered trn) = nrows trn.
Proof. unfold centered, sub_row, nrows. apply length_fmap. Qed.

(** With a negative [frac] a call that returns has selected rank 1. *)
Lemma pca_negative_idx trn tst frac r :
  fltb frac (of_Z 0) = true -> pca trn tst frac = Some r -> pca_idx r = 1.
Proof.
  intros Hneg Hret.
  destruct (pca_Some _ _ _ _ Hret) as (U & d & V & idx0 & _ & Hrank & Hidx & _).
  rewrite pca_rank_negative in Hrank by assumption. injection Hrank as <-.
  rewrite Hidx. apply pca_guard_full.
Qed.

(** A call returns as soon as the decomposition succeeds with a spectrum
    of at least two entries and [frac] is not infinite. *)
Lemma pca_returns trn tst frac U d V :
  svd (centered trn) = Some (U, d, V) -> (2 <= length d)%nat -> frac <> PInf ->
  exists r, pca trn tst frac = Some r.
Proof.
  intros Hsvd Hlen Hfrac. unfold pca. unfold centered in Hsvd. rewrite Hsvd. simpl.
  destruct (pca_rank frac d (spectrum_of d (nrows trn)) (nrows trn) (ncols trn))
    as [idx0|] eqn:Hrank.
  - simpl.
    assert (Z.to_nat (pca_guard idx0 d) < length (spectrum_of d (nrows trn)))%nat as Hlt.
    { unfold spectrum_of. rewrite !length_fmap.
      pose proof (pca_guard_pos idx0 d (pca_rank_pos _ _ _ _ _ _ Hrank)).
      unfold pca_guard in *. destruct (Z.leb_spec (Z.of_nat (length d)) idx0); lia. }
    apply lookup_lt_is_Some_2 in Hlt as [spec Hspec]. rewrite Hspec. simpl. eauto.
  - exfalso. unfold pca_rank in Hrank.
    destruct (fleb (of_Z 1) frac) eqn:Hge.
    + destruct frac; simpl in *; try discriminate. congruence.
    + destruct (feqb frac (of_Z 0)); [discriminate|].
      destruct (fgtb frac (of_Z 0)); discriminate.
Qed.

(** [scipy.linalg.svd(a, False)] returns as many singular values, and as
    many rows of right singular vectors, as the smaller dimension of [a]. *)
Hypothesis svd_shape : forall M U d V,
  svd M = Some (U, d, V) ->
  length d = Nat.min (nrows M) (ncols M) /\ length V = length d.

(** C5.  In every rank-specification mode, the rank returned by [pca]
    lies between 1 and [min(rows, cols)] and the returned basis has exactly
    that many rows (for every matrix, in particular when
    [rows >= 2 * cols]); and the call does return whenever the
    decomposition succeeds on a matrix with [min(rows, cols) >= 2] and
    [frac] is not infinite. *)
Theorem pca_rank_within_bounds (trn : matrix) (tst : option matrix) (frac : float64) :
  (forall r, pca trn tst frac = Some r ->
     1 <= pca_idx r <= Z.of_nat (Nat.min (nrows trn) (ncols trn))
     /\ length (pca_basis r) = Z.to_nat (pca_idx r))
  /\ (forall U d V, svd (centered trn) = Some (U, d, V) ->
        (2 <= Nat.min (nrows trn) (ncols trn))%nat -> frac <> PInf ->
        exists r, pca trn tst frac = Some r).
Proof.
  split.
  - intros r Hret.
    destruct (pca_Some _ _ _ _ Hret) as (U & d & V & idx0 & Hsvd & Hrank & Hidx & Hbasis & Hlt).
    destruct (svd_shape _ _ _ _ Hsvd) as [Hd HV].
    rewrite nrows_centered, ncols_centered in Hd.
    pose proof (pca_guard_pos idx0 d (pca_rank_pos _ _ _ _ _ _ Hrank)) as Hpos.
    rewrite <- Hidx in Hpos. split; [lia|].
    rewrite Hbasis, length_take. lia.
  - intros U d V Hsvd Hmin Hfrac.
    destruct (svd_shape _ _ _ _ Hsvd) as [Hd _].
    rewrite nrows_centered, ncols_centered in Hd.
    eapply pca_returns; [exact Hsvd | lia | exact Hfrac].
Qed.

End PCAProps.

(** C3, as the code has it.  With a negative [frac], [pca] takes the full
    length of the spectrum as rank and the final guard [idx >= len(d)]
    replaces it by 1: whenever the call returns, the selected rank is 1
    (and it returns only for a spectrum of at least two entries). *)
Theorem pca_negative_frac_rank_one `{NumPy} `{SciPy}
    (trn : matrix) (tst : option matrix) (frac : float64)
    (r : matrix * Z * matrix * float64) :
  fltb frac (of_Z 0) = true ->
  pca trn tst frac = Some r ->
  pca_idx r = 1
  /\ exists U d V,
       svd (centered trn) = Some (U, d, V)
       /\ pca_rank frac d (spectrum_of d (nrows trn)) (nrows trn) (ncols trn)
          = Some (Z.of_nat (length d))
       /\ pca_guard (Z.of_nat (length d)) d = 1
       /\ (2 <= length d)%nat.
Proof.
  intros Hneg Hret. split; [eapply pca_negative_idx; eassumption|].
  destruct (pca_Some _ _ _ _ Hret) as (U & d & V & idx0 & Hsvd & Hrank & Hidx & _ & Hlt).
  exists U, d, V. split; [exact Hsvd|].
  split; [now apply pca_rank_negative|]. split; [apply pca_guard_full|].
  rewrite (pca_negative_idx _ _ _ _ Hneg Hret) in Hlt. simpl in Hlt. lia.
Qed.

(** ** Automatic rank selection *)

Lemma fleb_refl x : isfinite x = true -> fleb x x = true.
Proof. destruct x; simpl; try discriminate. intros _. apply Z.leb_refl. Qed.

Lemma fleb_fltb_trans x y z :
  fleb x y = true -> fltb y z = true -> fltb x z = true.
Proof.
  destruct x as [a| | |], y as [b| | |], z as [c| | |]; simpl; try discriminate;
    try reflexivity.
  intros Hab Hbc. apply (fltb_Fin a c).
  apply (fleb_Fin a b) in Hab. apply (fltb_Fin b c) in Hbc.
  eapply Qle_lt_trans; eassumption.
Qed.

Section Assess.

Variable score : nat -> float64.

Local Abbreviation assess_inv := (assess_inv score).

Lemma assess_inv_step j max_ll :
  assess_inv j max_ll -> assess_inv (S j) (assess_step score max_ll j).
Proof.
  intros Hinv. unfold assess_step.
  destruct (isfinite (score j)) eqn:Hfin; cbn [andb].
  - destruct (fgtb (score j) max_ll.1) eqn:Hgt; unfold fgtb in Hgt.
    + right. cbn [fst snd]. destruct Hinv as [[-> Hnone] | (Hr & Hb & Hbf & Hbp & Hmax & Hfirst)].
      * cbn [fst] in Hgt.
        assert (forall k, (k < j)%nat -> isfinite (score k) = true ->
                          fleb (score k) (of_Z 0) = true) as Hle.
        { intros k Hk Hkf. apply fltb_false_fleb; [reflexivity | assumption|].
          destruct (fltb (of_Z 0) (score k)) eqn:E; [|reflexivity].
          exfalso. apply (Hnone k Hk). split; assumption. }
        repeat split; try assumption; try lia.
        -- intros k Hk Hkf. assert (k = j \/ k < j)%nat as [-> | Hk'] by lia.
           ++ now apply fleb_refl.
           ++ apply fltb_fleb. eapply fleb_fltb_trans; [apply Hle|]; eassumption.
        -- intros k Hk Hkf. eapply fleb_fltb_trans; [apply Hle|]; eassumption.
      * repeat split; try assumption; try lia.
        -- eapply fltb_fleb_trans; [exact Hbp|]. now apply fltb_fleb.
        -- intros k Hk Hkf. assert (k = j \/ k < j)%nat as [-> | Hk'] by lia.
           ++ now apply fleb_refl.
           ++ apply fltb_fleb. eapply fleb_fltb_trans; [apply Hmax|]; eassumption.
        -- intros k Hk Hkf. eapply fleb_fltb_trans; [apply Hmax|]; eassumption.
    + destruct Hinv as [[-> Hnone] | (Hr & Hb & Hbf & Hbp & Hmax & Hfirst)].
      * left. split; [reflexivity|]. intros k Hk [Hkf Hkp].
        assert (k = j \/ k < j)%nat as [-> | Hk'] by lia.
        -- cbn [fst] in Hgt. congruence.
        -- apply (Hnone k Hk'). split; assumption.
      * right. repeat split; try assumption; try lia.
        intros k Hk Hkf. assert (k = j \/ k < j)%nat as [-> | Hk'] by lia.
        -- now apply fltb_false_fleb.
        -- now apply Hmax.
  - destruct Hinv as [[-> Hnone] | (Hr & Hb & Hbf & Hbp & Hmax & Hfirst)].
    + left. split; [reflexivity|]. intros k Hk [Hkf Hkp].
      assert (k = j \/ k < j)%nat as [-> | Hk'] by lia.
      * congruence.
      * apply (Hnone k Hk'). split; assumption.
    + right. repeat split; try assumption; try lia.
      intros k Hk Hkf. assert (k = j \/ k < j)%nat as [-> | Hk'] by lia.
      * congruence.
      * now apply Hmax.
Qed.

Lemma assess_inv_fold n :
  assess_inv n (fold_left (assess_step score) (seq 0 n) (of_Z 0, 0%nat)).
Proof.
  induction n as [|n IH].
  - left. split; [reflexivity|]. intros k Hk. lia.
  - rewrite seq_S, fold_left_app. simpl. now apply assess_inv_step.
Qed.

End Assess.

Section AutomaticRank.

Context `{NumPy} `{SciPy}.

(** The rank returned by [_assess_dimension]: the first candidate of
    maximal finite score when some finite score is positive, and 0 when no
    candidate has a finite positive score. *)
Lemma assess_dimension_spec spectrum n p :
  let score := rank_loglik spectrum n p in
  let best := _assess_dimension spectrum n p in
  ((exists k, (k < length spectrum)%nat /\ isfinite (score k) = true
              /\ fltb (of_Z 0) (score k) = true) ->
   (best < length spectrum)%nat
   /\ isfinite (score best) = true
   /\ (forall k, (k < length spectrum)%nat -> isfinite (score k) = true ->
                 fleb (score k) (score best) = true)
   /\ (forall k, (k < best)%nat -> isfinite (score k) = true ->
                 fltb (score k) (score best) = true))
  /\ ((forall k, (k < length spectrum)%nat ->
         ~ (isfinite (score k) = true /\ fltb (of_Z 0) (score k) = true)) ->
      best = 0%nat).
Proof.
  intros score best.
  pose proof (assess_inv_fold score (length spectrum)) as Hinv.
  unfold best, _assess_dimension. fold score.
  destruct (fold_left (assess_step score) (seq 0 (length spectrum)) (of_Z 0, 0%nat))
    as [b r].
  destruct Hinv as [[[= -> ->] Hnone] | (Hr & Hb & Hbf & Hbp & Hmax & Hfirst)];
    cbn [fst snd] in *.
  - split; [|reflexivity]. intros (k & Hk & Hkf & Hkp).
    exfalso. apply (Hnone k Hk). split; assumption.
  - split.
    + intros _. rewrite <- Hb. repeat split; assumption.
    + intros Hnone. exfalso. apply (Hnone r Hr). rewrite <- Hb. split; assumption.
Qed.

Lemma feqb_zero_not_ge_one frac : feqb frac (of_Z 0) = true -> fleb (of_Z 1) frac = false.
Proof.
  destruct frac as [q| | |]; simpl; try discriminate.
  intros Hq. apply Z.eqb_eq in Hq. apply Z.leb_gt. simpl in *. lia.
Qed.

(** C4, as the code has it.  In automatic mode ([frac == 0]) a call that
    returns has selected [best + 1], where [best] is the result of
    [_assess_dimension], except that the final guard replaces a rank that
    reaches [len(d)] by 1.  When some candidate rank has a finite positive
    score, [best] is the first candidate whose score is maximal among the
    finite scores.  When no candidate rank has a finite score, the
    returned rank is 1. *)
Theorem pca_automatic_rank (trn : matrix) (tst : option matrix) (frac : float64)
    (r : matrix * Z * matrix * float64) :
  feqb frac (of_Z 0) = true ->
  pca trn tst frac = Some r ->
  exists U d V,
    svd (centered trn) = Some (U, d, V) /\
    let n := Z.of_nat (nrows trn) in
    let p := Z.of_nat (ncols trn) in
    let t := spectrum_of d (nrows trn) in
    let score := rank_loglik t n p in
    let best := _assess_dimension t n p in
    pca_idx r = (if Z.of_nat (length d) <=? Z.of_nat best + 1 then 1
                 else Z.of_nat best + 1)
    /\ ((exists k, (k < length t)%nat /\ isfinite (score k) = true
                   /\ fltb (of_Z 0) (score k) = true) ->
        (best < length t)%nat
        /\ isfinite (score best) = true
        /\ (forall k, (k < length t)%nat -> isfinite (score k) = true ->
                      fleb (score k) (score best) = true)
        /\ (forall k, (k < best)%nat -> isfinite (score k) = true ->
                      fltb (score k) (score best) = true))
    /\ ((forall k, (k < length t)%nat -> isfinite (score k) = false) ->
        pca_idx r = 1).
Proof.
  intros Hzero Hret.
  destruct (pca_Some _ _ _ _ Hret) as (U & d & V & idx0 & Hsvd & Hrank & Hidx & _ & Hlt).
  exists U, d, V. split; [exact Hsvd|]. cbv zeta.
  unfold pca_rank in Hrank. rewrite (feqb_zero_not_ge_one _ Hzero), Hzero in Hrank.
  injection Hrank as <-.
  destruct (assess_dimension_spec (spectrum_of d (nrows trn))
              (Z.of_nat (nrows trn)) (Z.of_nat (ncols trn))) as [Hbest Hnone].
  cbv zeta in Hbest, Hnone.
  split; [exact Hidx|]. split; [exact Hbest|].
  intros Hnonfinite. rewrite Hidx, Hnone.
  - unfold pca_guard. change (Z.of_nat 0 + 1) with 1.
    destruct (Z.of_nat (length d) <=? 1); reflexivity.
  - intros k Hk [Hkf _]. rewrite (Hnonfinite k Hk) in Hkf. discriminate.
Qed.

End AutomaticRank.

(** ** The selection registry *)

Lemma length_mask_select {A} (sel : list bool) : forall l : list A,
  length l = length sel -> length (mask_select sel l) = count_true sel.
Proof.
  induction sel as [|b sel IH]; intros l Hl; destruct l as [|x l]; simpl in *;
    try reflexivity; try lia.
  destruct b; simpl; rewrite IH by lia; reflexivity.
Qed.

Lemma length_argwhere sel : length (argwhere sel) = count_true sel.
Proof. unfold argwhere. apply length_mask_select. apply length_seq. Qed.

Section Registry.

Variable label : labels.

Local Abbreviation step := (record_entry label).

Lemma record_entry_Some m i :
  record_entry label (Some m) i
  = match selection_entry label i with
    | Some (k, v) => Some (setdefault_append k v m)
    | None => None
    end.
Proof. unfold record_entry. simpl. now destruct (selection_entry label i) as [[k v]|]. Qed.

Lemma record_None idxs : foldl step None idxs = None.
Proof. induction idxs as [|i idxs IH]; simpl; [reflexivity | exact IH]. Qed.

Lemma setdefault_append_lookup k v m k' :
  default [] (setdefault_append k v m !! k')
  = default [] (m !! k') ++ (if decide (k = k') then [v] else []).
Proof.
  unfold setdefault_append. destruct (decide (k = k')) as [->|Hne].
  - now rewrite lookup_insert_eq.
  - rewrite lookup_insert_ne by assumption. now rewrite app_nil_r.
Qed.

(** A successful pass appends, for every micrograph, the accepted indices
    of that micrograph to its list. *)
Lemma record_lookup idxs : forall m m',
  foldl step (Some m) idxs = Some m' ->
  forall k, default [] (m' !! k) = default [] (m !! k) ++ accepted_for k label idxs.
Proof.
  induction idxs as [|i idxs IH]; intros m m' Hrun k; cbn [foldl] in Hrun.
  - injection Hrun as <-. unfold accepted_for. simpl. now rewrite app_nil_r.
  - rewrite record_entry_Some in Hrun.
    destruct (selection_entry label i) as [[k0 v]|] eqn:He.
    + rewrite (IH _ _ Hrun k), setdefault_append_lookup.
      unfold accepted_for. simpl. rewrite He. simpl.
      destruct (decide (k0 = k)); simpl; now rewrite <- app_assoc.
    + rewrite record_None in Hrun. discriminate.
Qed.

(** Whether a pass succeeds depends on the labels alone. *)
Lemma record_success idxs : forall m,
  is_Some (foldl step (Some m) idxs)
  <-> Forall (fun i => is_Some (selection_entry label i)) idxs.
Proof.
  induction idxs as [|i idxs IH]; intros m; cbn [foldl].
  - split; [constructor | eauto].
  - rewrite record_entry_Some.
    destruct (selection_entry label i) as [[k0 v]|] eqn:He.
    + rewrite IH. split.
      * intros Hall. constructor; [rewrite He; eauto | assumption].
      * now inversion 1.
    + rewrite record_None. split.
      * intros [? ?]. discriminate.
      * inversion 1 as [|? ? [? Hs] ?]. rewrite He in Hs. discriminate.
Qed.

End Registry.

(** C6, as the code has it.  [update_selection_dict] appends without
    looking for duplicates: when a first application succeeds, a second
    one with the same view result succeeds too and appends, for every
    micrograph, the accepted indices once more; the registry after two
    applications equals the registry after one exactly when the mask
    accepts no particle. *)
Theorem update_selection_dict_twice (reg reg1 : gmap mic_key (list Z))
    (label : labels) (sel : list bool) :
  update_selection_dict reg label sel = Some reg1 ->
  exists reg2,
    update_selection_dict reg1 label sel = Some reg2
    /\ (forall k, default [] (reg1 !! k)
                  = default [] (reg !! k) ++ accepted_for k label (argwhere sel))
    /\ (forall k, default [] (reg2 !! k)
                  = default [] (reg1 !! k) ++ accepted_for k label (argwhere sel))
    /\ (reg2 = reg1 <-> count_true sel = 0%nat).
Proof.
  unfold update_selection_dict. intros Hone.
  assert (is_Some (foldl (record_entry label) (Some reg1) (argwhere sel)))
    as [reg2 Htwo].
  { apply record_success. eapply record_success. rewrite Hone. eauto. }
  exists reg2. split; [exact Htwo|].
  split; [exact (record_lookup label _ _ _ Hone)|].
  split; [exact (record_lookup label _ _ _ Htwo)|].
  rewrite <- length_argwhere. split.
  - intros ->. destruct (argwhere sel) as [|i idxs] eqn:Hidx; [reflexivity|]. exfalso.
    assert (is_Some (selection_entry label i)) as [[k v] He].
    { assert (is_Some (Some reg1)) as Hs by eauto. rewrite <- Htwo in Hs.
      apply record_success in Hs. now inversion Hs. }
    pose proof (record_lookup label _ _ _ Htwo k) as Hk.
    apply (f_equal length) in Hk. rewrite length_app in Hk.
    unfold accepted_for in Hk. simpl in Hk. rewrite He in Hk. simpl in Hk.
    rewrite decide_True in Hk by reflexivity. simpl in Hk. lia.
  - intros Hlen. destruct (argwhere sel); [|discriminate].
    simpl in Htwo. now injection Htwo as <-.
Qed.

(** ** The view filter of init_root *)

Lemma insert_by_count_perm count i l : insert_by_count count i l ≡ₚ i :: l.
Proof.
  induction l as [|j l IH]; simpl; [reflexivity|].
  destruct (nth i count 0 <=? nth j count 0)%nat; [reflexivity|].
  rewrite IH. apply Permutation_swap.
Qed.

Lemma argsort_perm count : argsort count ≡ₚ seq 0 (length count).
Proof.
  unfold argsort. induction (seq 0 (length count)) as [|i l IH]; simpl; [reflexivity|].
  now rewrite insert_by_count_perm, IH.
Qed.

Lemma elem_of_argsort count i : i ∈ argsort count <-> (i < length count)%nat.
Proof. rewrite argsort_perm, elem_of_seq. lia. Qed.

(** C7, as the code has it.  When no single view is requested
    ([single_view <= 0]), every view with more than 20 particles is handed
    on for processing and every view handed on comes from the input and
    has no fewer than 20 particles; when [single_view > 0], the one view at
    that 1-based position is handed on, whatever its particle count. *)
Theorem select_views_spec (single_view : Z) (group : list view) :
  (single_view <= 0 ->
   exists kept,
     select_views single_view group = Some kept
     /\ (forall g, g ∈ group -> (20 < label_count g.1.2)%nat -> g ∈ kept)
     /\ (forall g, g ∈ kept -> g ∈ group /\ ~ (label_count g.1.2 < 20)%nat))
  /\ (0 < single_view ->
      select_views single_view group
      = (fun g => [g]) <$> group !! Z.to_nat (single_view - 1)).
Proof.
  unfold select_views. split; intros Hsv.
  - destruct (Z.ltb_spec 0 single_view) as [?|_]; [lia|].
    eexists. split; [reflexivity|].
    set (count := (fun g : view => label_count g.1.2) <$> group).
    assert (forall i g, group !! i = Some g -> nth i count 0%nat = label_count g.1.2)
      as Hcount.
    { intros i g Hg. apply nth_lookup_Some with (d := 0%nat).
      unfold count. now rewrite list_lookup_fmap, Hg. }
    split.
    + intros g Hg Hbig. apply list_elem_of_lookup in Hg as [i Hi].
      apply list_elem_of_omap. exists i. split.
      * apply elem_of_reverse, elem_of_argsort. unfold count.
        rewrite length_fmap. eapply lookup_lt_Some; eassumption.
      * rewrite (Hcount i g Hi). apply Nat.ltb_lt in Hbig. now rewrite Hbig.
    + intros g Hg. apply list_elem_of_omap in Hg as (i & _ & Hi).
      destruct (Nat.ltb_spec 20 (nth i count 0%nat)) as [Hbig|_]; [|discriminate].
      rewrite (Hcount i g Hi) in Hbig. split; [|lia].
      apply list_elem_of_lookup. eauto.
  - destruct (Z.ltb_spec 0 single_view) as [_|?]; [|lia].
    now destruct (group !! Z.to_nat (single_view - 1)).
Qed.

(** ** group_by_reference *)

Lemma elem_of_insert_unique x r l : x ∈ insert_unique r l <-> x = r \/ x ∈ l.
Proof.
  induction l as [|y l IH]; simpl.
  - rewrite list_elem_of_singleton, elem_of_nil. tauto.
  - destruct (Z.ltb_spec r y); [apply elem_of_cons|].
    destruct (Z.eqb_spec r y) as [->|Hne]; [rewrite elem_of_cons; tauto|].
    rewrite !elem_of_cons, IH. tauto.
Qed.

Lemma elem_of_np_unique x ref : x ∈ np_unique ref <-> x ∈ ref.
Proof.
  unfold np_unique. induction ref as [|r ref IH]; simpl; [reflexivity|].
  rewrite elem_of_insert_unique, IH, elem_of_cons. reflexivity.
Qed.

Lemma view_size_pos r ref : r ∈ ref -> (1 <= view_size r ref)%nat.
Proof.
  unfold view_size. induction ref as [|x ref IH]; intros Hr.
  - now apply elem_of_nil in Hr.
  - rewrite fmap_cons. cbn [count_true]. apply elem_of_cons in Hr as [<-|Hr].
    + rewrite Z.eqb_refl. lia.
    + specialize (IH Hr). lia.
Qed.

Lemma iter_squeezed_argwhere_None sel :
  iter_squeezed_argwhere sel = None <-> count_true sel = 1%nat.
Proof.
  unfold iter_squeezed_argwhere. rewrite <- length_argwhere.
  destruct (argwhere sel) as [|i [|j l]]; simpl; split; intros; try discriminate;
    try reflexivity; lia.
Qed.

Lemma elem_of_mask_select {A} (x : A) sel : forall l, x ∈ mask_select sel l -> x ∈ l.
Proof.
  induction sel as [|b sel IH]; intros l Hx; destruct l as [|y l]; simpl in Hx;
    try (now apply elem_of_nil in Hx).
  destruct b; [apply elem_of_cons in Hx as [->|Hx]|]; rewrite elem_of_cons; auto.
Qed.

Lemma elem_of_argwhere i sel : i ∈ argwhere sel -> (i < length sel)%nat.
Proof. intros Hi. apply elem_of_mask_select, elem_of_seq in Hi. lia. Qed.

(** C10.  With per-particle labels, [group_by_reference] raises whenever
    some view identifier occurs exactly once in [ref]; so a call that
    returns has at least two particles in every view.  Conversely it does
    return when every view has at least two particles and every particle
    has a label. *)
Theorem group_by_reference_singleton_view (entries : list (string * Z))
    (align : matrix) (ref : list Z) :
  (forall r, r ∈ ref -> view_size r ref = 1%nat ->
             group_by_reference (PerParticle entries) align ref = None)
  /\ (forall groups, group_by_reference (PerParticle entries) align ref = Some groups ->
        forall r, r ∈ ref -> (2 <= view_size r ref)%nat)
  /\ ((forall r, r ∈ ref -> (2 <= view_size r ref)%nat) ->
      (length ref <= length entries)%nat ->
      is_Some (group_by_reference (PerParticle entries) align ref)).
Proof.
  assert (forall r, r ∈ ref -> view_size r ref = 1%nat ->
             group_by_reference (PerParticle entries) align ref = None) as Hfail.
  { intros r Hr Hone. unfold group_by_reference. apply mapM_None.
    apply Exists_exists. exists r. split; [now apply elem_of_np_unique|].
    apply iter_squeezed_argwhere_None in Hone. now rewrite Hone. }
  split; [exact Hfail|]. split.
  - intros groups Hret r Hr. pose proof (view_size_pos r ref Hr) as Hpos.
    destruct (decide (view_size r ref = 1%nat)) as [Hone|Hne]; [|lia].
    rewrite (Hfail r Hr Hone) in Hret. discriminate.
  - intros Hall Hlen. unfold group_by_reference. apply mapM_is_Some.
    apply Forall_forall. intros r Hr. apply (proj1 (elem_of_np_unique _ _)) in Hr.
    simpl.
    set (sel := (fun x => r =? x) <$> ref).
    destruct (iter_squeezed_argwhere sel) as [idx|] eqn:Hidx.
    + simpl.
      assert (is_Some (mapM (fun i => entries !! i) idx)) as [picked ->]; [|simpl; eauto].
      apply mapM_is_Some, Forall_forall. intros i Hi. simpl.
      apply lookup_lt_is_Some_2.
      assert (i ∈ argwhere sel) as Hi'.
      { unfold iter_squeezed_argwhere in Hidx.
        destruct (argwhere sel) as [|? [|? ?]]; try discriminate; now injection Hidx as <-. }
      apply elem_of_argwhere in Hi'. unfold sel in Hi'. rewrite length_fmap in Hi'. lia.
    + apply iter_squeezed_argwhere_None in Hidx. specialize (Hall r Hr).
      unfold view_size in Hall. fold sel in Hall. lia.
Qed.

(** ** The computable instance satisfies the library facts used above *)

Lemma Qsgn_Qred q : Qsgn (Qred q) = Qsgn q.
Proof.
  pose proof (Qred_correct q) as E. unfold Qeq in E. unfold Qsgn.
  assert (Z.sgn (Qnum (Qred q) * QDen q) = Z.sgn (Qnum q * QDen (Qred q))) as S
    by now rewrite E.
  rewrite !Z.sgn_mul in S. rewrite !(Z.sgn_pos (Zpos _)) in S by apply Pos2Z.is_pos.
  lia.
Qed.

Lemma Qsgn_mult a b : Qsgn (a * b) = Qsgn a * Qsgn b.
Proof. unfold Qsgn. simpl. apply Z.sgn_mul. Qed.

Lemma Qsgn_inv b : Qsgn (/ b) = Qsgn b.
Proof. destruct b as [[|p|p] d]; reflexivity. Qed.

Lemma Qsgn_square a : Qsgn (a * a) = Z.abs (Qsgn a).
Proof. rewrite Qsgn_mult. unfold Qsgn. destruct (Qnum a); reflexivity. Qed.

Lemma Qred_zero q : (q == 0)%Q -> Qred q = 0%Q.
Proof. intros E. now rewrite (Qred_complete q 0 E). Qed.

(** For one feature, [x^2 / var] is the quadratic form of the inverse
    variance. *)
Lemma ref_quadratic_form (var x : float64) :
  fdiv (fmul x x) var = quadratic_form (Ref.inverse_variance var) [x].
Proof.
  unfold quadratic_form, Ref.inverse_variance, columns, columns_of, ncols, column,
    vdot, vmul, np_sum.
  cbn [hd length seq fmap list_fmap nth zip_with fold_left].
  destruct x as [a| | |], var as [b| | |]; try reflexivity.
  - cbn [fmul fdiv of_Z]. change (Qsgn (inject_Z 1)) with 1.
    destruct (Z.eqb_spec (Qsgn b) 0) as [Eb|Eb].
    + cbn [inf_of_sign Z.eqb Z.ltb Z.compare fmul fsign]. rewrite Qsgn_Qred, Qsgn_square.
      rewrite Z.mul_1_r.
      destruct (Qsgn a) eqn:Ea; cbn; rewrite ?Ea; reflexivity.
    + cbn [fmul fadd]. f_equal. apply Qred_complete.
      rewrite !Qred_correct.
      assert (~ b == 0)%Q as Hb.
      { intros E. apply Eb. unfold Qeq in E. simpl in E. unfold Qsgn.
        rewrite Z.mul_1_r in E. now rewrite E. }
      change (inject_Z 1) with 1%Q. field. exact Hb.
  - cbn [fmul fdiv of_Z fadd]. f_equal. symmetry. apply Qred_zero.
    rewrite !Qred_correct. ring.
  - cbn [fmul fdiv of_Z fadd]. f_equal. symmetry. apply Qred_zero.
    rewrite !Qred_correct. ring.
  - change (fmul PInf PInf) with PInf. cbn [fdiv fsign of_Z].
    change (Qsgn (inject_Z 1)) with 1.
    destruct (Z.eqb_spec (Qsgn b) 0) as [Eb|Eb]; [reflexivity|].
    cbn [fmul fsign]. rewrite Qsgn_Qred.
    assert (Qsgn (inject_Z 1 / b) = Qsgn b) as ->
      by (unfold Qdiv; rewrite Qsgn_mult, Qsgn_inv; change (Qsgn (inject_Z 1)) with 1; lia).
    unfold Qsgn in *.
    destruct (Qnum b); [exfalso; apply Eb; reflexivity | reflexivity | reflexivity].
  - change (fmul NInf NInf) with PInf. cbn [fdiv fsign of_Z].
    change (Qsgn (inject_Z 1)) with 1.
    destruct (Z.eqb_spec (Qsgn b) 0) as [Eb|Eb]; [reflexivity|].
    cbn [fmul fsign]. rewrite Qsgn_Qred.
    assert (Qsgn (inject_Z 1 / b) = Qsgn b) as ->
      by (unfold Qdiv; rewrite Qsgn_mult, Qsgn_inv; change (Qsgn (inject_Z 1)) with 1; lia).
    unfold Qsgn in *.
    destruct (Qnum b); [exfalso; apply Eb; reflexivity | reflexivity | reflexivity].
Qed.

Lemma ref_mahalanobis_centred (cov : float64) (X : matrix) :
  Forall (fun r => length r = nrows (Ref.inverse_variance cov)) X ->
  Ref.sq_distance cov X = quadratic_form (Ref.inverse_variance cov) <$> X.
Proof.
  intros Hrows. unfold Ref.sq_distance. apply Forall_fmap_ext_1.
  eapply Forall_impl; [exact Hrows|]. intros r Hr. cbn in Hr.
  destruct r as [|x [|y r]]; try discriminate. apply ref_quadratic_form.
Qed.

Lemma ref_precision_shape (M : matrix) (cov : float64) :
  @fit_covariance Ref.sklearn M = Some cov ->
  nrows (Ref.inverse_variance cov) = ncols M.
Proof.
  unfold fit_covariance. cbn [MinCovDet_fit EmpiricalCovariance_fit Ref.sklearn].
  unfold Ref.empirical_fit. destruct M as [|r M]; [discriminate|].
  destruct (forallb _ _) eqn:Hall; [|discriminate]. intros _.
  cbn [forallb] in Hall. apply andb_true_iff in Hall as [Hr _].
  apply Nat.eqb_eq in Hr. unfold ncols. cbn [hd]. now rewrite Hr.
Qed.

Lemma step_value_mono tbl (a b : Q) :
  (a <= b)%Q -> (Ref.step_value tbl a <= Ref.step_value tbl b)%Q.
Proof.
  intros Hab. unfold Ref.step_value.
  assert (forall acc1 acc2, (acc1 <= acc2)%Q ->
            (fold_left (fun acc e => if Qle_bool (fst e) a && Qle_bool acc (snd e)
                                     then snd e else acc) tbl acc1
             <= fold_left (fun acc e => if Qle_bool (fst e) b && Qle_bool acc (snd e)
                                        then snd e else acc) tbl acc2)%Q) as Hgen.
  { induction tbl as [|[th v] tbl IH]; intros acc1 acc2 Hacc; simpl; [exact Hacc|].
    apply IH.
    destruct (Qle_bool th a) eqn:Ha; simpl.
    - assert (Qle_bool th b = true) as ->.
      { apply Qle_bool_iff. apply Qle_bool_iff in Ha. eapply Qle_trans; eassumption. }
      simpl. destruct (Qle_bool acc1 v) eqn:E1, (Qle_bool acc2 v) eqn:E2.
      + apply Qle_refl.
      + apply Qlt_le_weak, Qnot_le_lt. intros Hc. apply Qle_bool_iff in Hc. congruence.
      + apply Qle_bool_iff in E2. eapply Qle_trans; eassumption.
      + exact Hacc.
    - destruct (Qle_bool th b && Qle_bool acc2 v) eqn:E2; [|exact Hacc].
      apply andb_true_iff in E2 as [_ E2]. apply Qle_bool_iff in E2.
      eapply Qle_trans; eassumption. }
  apply Hgen, Qle_refl.
Qed.

Lemma chi2_quantile_monotone p q df :
  (0 < df)%nat -> fltb (of_Z 0) p = true -> fleb p q = true ->
  fltb q (of_Z 1) = true ->
  fleb (Ref.chi2_quantile p df) (Ref.chi2_quantile q df) = true.
Proof.
  intros Hdf Hp Hpq Hq. destruct df as [|df]; [lia|].
  destruct p as [a| | |], q as [b| | |]; simpl in Hp, Hpq, Hq; try discriminate.
  apply (fltb_Fin 0 a) in Hp. apply (fleb_Fin a b) in Hpq. apply (fltb_Fin b 1) in Hq.
  unfold Ref.chi2_quantile.
  assert (Qle_bool 0 a && Qle_bool a 1 = true) as ->.
  { apply andb_true_iff. split; apply Qle_bool_iff.
    - now apply Qlt_le_weak.
    - apply Qlt_le_weak. eapply Qle_lt_trans; eassumption. }
  assert (Qle_bool 0 b && Qle_bool b 1 = true) as ->.
  { apply andb_true_iff. split; apply Qle_bool_iff.
    - apply Qlt_le_weak. eapply Qlt_le_trans; eassumption.
    - now apply Qlt_le_weak. }
  apply fleb_Fin. rewrite !Qred_correct. now apply step_value_mono.
Qed.

Lemma chi2_quantile_no_df p : Ref.chi2_quantile p 0 = NaN.
Proof. now destruct p. Qed.

Lemma float_eqb_eq x y : Ref.float_eqb x y = true -> x = y.
Proof.
  destruct x as [[a c]| | |], y as [[b d]| | |]; simpl; try discriminate; try reflexivity.
  intros Hxy. apply andb_true_iff in Hxy as [Hn Hd].
  apply Z.eqb_eq in Hn. apply Pos.eqb_eq in Hd. now subst.
Qed.

Lemma list_eqb_eq {A} (eqb : A -> A -> bool) :
  (forall x y, eqb x y = true -> x = y) ->
  forall l k, Ref.list_eqb eqb l k = true -> l = k.
Proof.
  intros Heq. induction l as [|x l IH]; intros [|y k]; simpl; try discriminate;
    try reflexivity.
  intros Hxy. apply andb_true_iff in Hxy as [Hx Hl].
  f_equal; [now apply Heq | now apply IH].
Qed.

Lemma matrix_eqb_eq M N : Ref.matrix_eqb M N = true -> M = N.
Proof. apply list_eqb_eq, list_eqb_eq, float_eqb_eq. Qed.

Lemma svd_lookup_shape M U d V :
  Ref.svd_lookup M = Some (U, d, V) ->
  length d = Nat.min (nrows M) (ncols M) /\ length V = length d.
Proof.
  unfold Ref.svd_lookup, Ref.svd_table. simpl.
  destruct (decide (Ref.matrix_eqb M Ref.steep = true)) as [E|_].
  - apply matrix_eqb_eq in E. subst M. simpl. intros [= <- <- <-]. split; reflexivity.
  - destruct (decide (Ref.matrix_eqb M Ref.gentle = true)) as [E|_].
    + apply matrix_eqb_eq in E. subst M. simpl. intros [= <- <- <-]. split; reflexivity.
    + discriminate.
Qed.

(** ** The properties on concrete inputs *)

Section Concrete.

Import Ref.

(** The variance of the three samples 1, 2, 4 is the last entry. *)
Lemma running_variance_prefix_witness :
  running_variance (Fin <$> [1; 2; 4]%Q) !! 2%nat
  = Some (Fin (Qred (Stats.variance [1; 2; 4]%Q))).
Proof.
  exact (proj1 (proj2 (proj2 (running_variance_prefix [1; 2; 4]%Q ltac:(simpl; lia)))
                 2%nat ltac:(simpl; lia))).
Defined.

(** Nine of the ten measurements survive the clipping; on data without
    spread the first band is empty and the call fails. *)
Lemma one_class_selection_never_empty_witness :
  (exists sel, one_class_selection (Arr1 Sample.measurements) 3 = Some sel
               /\ (0 < count_true sel)%nat)
  /\ one_class_selection (Arr1 Sample.constant) 3 = None.
Proof.
  split.
  - eexists. split; [vm_compute; reflexivity|].
    apply (proj1 (one_class_selection_never_empty (Arr1 Sample.measurements) 3)).
    vm_compute. reflexivity.
  - apply (proj2 (one_class_selection_never_empty (Arr1 Sample.constant) 3)
             10 [] 10 [9; 8; 7; 6; 5; 4; 3] [true; true; true] [false; false; false]);
      vm_compute; reflexivity.
Defined.

(** A classification on the first of two feature columns: the distance
    of the last sample is measured from the median of that column. *)
Lemma one_class_classification_threshold_witness :
  exists sel rsel dist,
    one_class_classification Sample.features 1 (Fin (97 # 100)) = Some (sel, rsel, dist)
    /\ length sel = length dist
    /\ ncols (truncate_features Sample.features 1) = 1%nat
    /\ exists cov,
         fit_covariance (truncate_features Sample.features 1) = Some cov
         /\ dist !! 9%nat
            = Some (mahalanobis_from (get_precision cov)
                      [np_median Sample.measurements] [of_Z 100]).
Proof.
  do 3 eexists. split; [vm_compute; reflexivity|].
  assert (Forall (fun r => length r = ncols Sample.features) Sample.features)
    as Hrect by (repeat constructor).
  pose proof (@one_class_classification_threshold numpy scipy sklearn
                sklearn_precision ref_mahalanobis_centred ref_precision_shape
                Sample.features 1 (Fin (97 # 100))
                _ _ _ Hrect ltac:(vm_compute; reflexivity)) as Hthm.
  cbv zeta in Hthm. destruct Hthm as ((cov & Hfit & Hrow) & _ & Hlen & _ & Hk).
  split; [exact Hlen|]. split; [exact (Hk ltac:(lia))|].
  exists cov. split; [exact Hfit|].
  exact (proj1 (Hrow 9%nat [of_Z 100] eq_refl)).
Defined.

(** On the ramp four samples are accepted at 0.5 and all ten at 0.97. *)
Lemma accepted_count_monotone_witness :
  exists r1 r2,
    one_class_classification Sample.ramp 1 (Fin (1 # 2)) = Some r1
    /\ one_class_classification Sample.ramp 1 (Fin (97 # 100)) = Some r2
    /\ count_true r1.1.1 = 4%nat
    /\ count_true r2.1.1 = 10%nat
    /\ (count_true r1.1.1 <= count_true r2.1.1)%nat.
Proof.
  do 2 eexists. split; [vm_compute; reflexivity|]. split; [vm_compute; reflexivity|].
  split; [reflexivity|]. split; [reflexivity|].
  apply (@accepted_count_monotone numpy scipy sklearn
           chi2_quantile_monotone chi2_quantile_no_df
           Sample.ramp 1 (Fin (1 # 2)) (Fin (97 # 100)));
    vm_compute; reflexivity.
Defined.

(** C3 as stated fails: on a 4 x 3 matrix a negative [frac] yields rank 1,
    not [min(4, 3) = 3]. *)
Lemma pca_negative_frac_not_full_rank :
  fltb (of_Z (-1)) (of_Z 0) = true
  /\ exists r, pca gentle None (of_Z (-1)) = Some r
               /\ pca_idx r = 1
               /\ Z.of_nat (Nat.min (nrows gentle) (ncols gentle)) = 3.
Proof.
  split; [reflexivity|]. eexists. split; [vm_compute; reflexivity|].
  split; reflexivity.
Qed.

(** The same call, through the theorem. *)
Lemma pca_negative_frac_rank_one_witness :
  exists r, pca gentle None (of_Z (-1)) = Some r /\ pca_idx r = 1.
Proof.
  eexists. split; [vm_compute; reflexivity|].
  apply (proj1 (@pca_negative_frac_rank_one numpy scipy gentle None (of_Z (-1)) _
                  eq_refl ltac:(vm_compute; reflexivity))).
Defined.

(** Two components asked of a 4 x 3 matrix. *)
Lemma pca_rank_within_bounds_witness :
  exists r, pca gentle None (of_Z 2) = Some r
            /\ 1 <= pca_idx r <= Z.of_nat (Nat.min (nrows gentle) (ncols gentle))
            /\ length (pca_basis r) = Z.to_nat (pca_idx r).
Proof.
  eexists. split; [vm_compute; reflexivity|].
  apply (proj1 (@pca_rank_within_bounds numpy scipy svd_lookup_shape
                  gentle None (of_Z 2))).
  vm_compute. reflexivity.
Defined.

(** C4 as stated fails: on [steep] the candidate rank 2 has the largest
    finite score, the rank selected from it reaches [len(d) = 3], and the
    guard returns 1; the score of rank 1, and that of rank 0, are strictly
    smaller than the score of rank 2. *)
Lemma pca_automatic_rank_not_maximal :
  svd (centered steep) = Some (hadamard_U, of_Z <$> [200; 20; 2], identity3)
  /\ pca_idx <$> pca steep None (of_Z 0) = Some 1
  /\ (let score := rank_loglik (spectrum_of (of_Z <$> [200; 20; 2]) 4) 4 3 in
      isfinite (score 2%nat) = true
      /\ isfinite (score 1%nat) = true
      /\ fltb (score 1%nat) (score 2%nat) = true
      /\ fltb (score 0%nat) (score 2%nat) = true).
Proof. vm_compute. repeat split; reflexivity. Qed.

(** On [gentle] the automatic rank is not touched by the guard. *)
Lemma pca_automatic_rank_witness :
  exists r, pca gentle None (of_Z 0) = Some r
    /\ exists U d V,
         svd (centered gentle) = Some (U, d, V)
         /\ pca_idx r
            = (if Z.of_nat (length d)
                  <=? Z.of_nat (_assess_dimension (spectrum_of d 4) 4 3) + 1
               then 1
               else Z.of_nat (_assess_dimension (spectrum_of d 4) 4 3) + 1).
Proof.
  eexists. split; [vm_compute; reflexivity|].
  destruct (@pca_automatic_rank numpy scipy gentle None (of_Z 0) _
              eq_refl ltac:(vm_compute; reflexivity))
    as (U & d & V & Hsvd & Hthm).
  cbv zeta in Hthm. exists U, d, V. split; [exact Hsvd | exact (proj1 Hthm)].
Defined.

(** C6 as stated fails: a second application with the same view result
    appends the two accepted indices of micrograph 3 once more. *)
Lemma update_selection_dict_not_idempotent :
  recorded (inl 3) (update_selection_dict ∅ Sample.stack [true; true])
  = Some [1; 5]
  /\ recorded (inl 3) (update_twice ∅ Sample.stack [true; true])
     = Some [1; 5; 1; 5].
Proof. split; vm_compute; reflexivity. Qed.

(** The two applications, through the theorem. *)
Lemma update_selection_dict_twice_witness :
  exists reg1 reg2,
    update_selection_dict ∅ Sample.stack [true; true] = Some reg1
    /\ update_selection_dict reg1 Sample.stack [true; true] = Some reg2
    /\ default [] (reg2 !! (inl 3 : mic_key))
       = default [] (reg1 !! (inl 3 : mic_key))
         ++ accepted_for (inl 3) Sample.stack (argwhere [true; true]).
Proof.
  assert (is_Some (update_selection_dict ∅ Sample.stack [true; true])) as [reg1 Hone]
    by (vm_compute; eauto).
  destruct (update_selection_dict_twice ∅ reg1 Sample.stack [true; true] Hone)
    as (reg2 & Htwo & _ & Hk & _).
  exists reg1, reg2. split; [exact Hone|]. split; [exact Htwo | exact (Hk (inl 3))].
Defined.

(** C7 as stated fails: with [single_view = 1], the views of 25, 15 and 40
    particles leave only the first one; the view of 40 particles is passed
    over although it is not below the minimum. *)
Lemma select_views_single_view_skips :
  select_views 1 Sample.three_views = Some [Sample.view_of 1 25]
  /\ Sample.view_of 3 40 ∈ Sample.three_views
  /\ (20 <= label_count (Sample.view_of 3 40).1.2)%nat
  /\ Sample.view_of 3 40 ∉ [Sample.view_of 1 25].
Proof.
  split; [reflexivity|]. split; [|split].
  - unfold Sample.three_views. rewrite !elem_of_cons. auto.
  - rewrite ?length_replicate; simpl; rewrite ?length_replicate; lia.
  - rewrite list_elem_of_singleton. discriminate.
Qed.

(** The default filter keeps a view only above 20 particles: one of exactly
    20 particles is dropped. *)
Example select_views_twenty_dropped :
  select_views 0 [Sample.view_of 1 25; Sample.view_of 2 20; Sample.view_of 3 40]
  = Some [Sample.view_of 3 40; Sample.view_of 1 25].
Proof. reflexivity. Qed.

(** The end-to-end scenario: of the views of 25, 15 and 40 particles the
    second is dropped. *)
Lemma select_views_spec_witness :
  exists kept,
    select_views 0 Sample.three_views = Some kept
    /\ Sample.view_of 3 40 ∈ kept
    /\ Sample.view_of 1 25 ∈ kept
    /\ Sample.view_of 2 15 ∉ kept.
Proof.
  destruct (proj1 (select_views_spec 0 Sample.three_views) ltac:(lia))
    as (kept & Hkept & Hin & Hout).
  exists kept. split; [exact Hkept|]. split; [|split].
  - apply Hin; [unfold Sample.three_views; rewrite !elem_of_cons; auto|].
    rewrite ?length_replicate; simpl; rewrite ?length_replicate; lia.
  - apply Hin; [unfold Sample.three_views; rewrite !elem_of_cons; auto|].
    rewrite ?length_replicate; simpl; rewrite ?length_replicate; lia.
  - intros Hc. apply Hout in Hc as [_ Hc]. apply Hc.
    rewrite ?length_replicate; simpl; rewrite ?length_replicate; lia.
Defined.

(** View 2 has a single particle: the grouping fails. *)
Lemma group_by_reference_singleton_view_witness :
  group_by_reference (PerParticle Sample.particles) [] [1; 2; 1] = None.
Proof.
  apply (proj1 (group_by_reference_singleton_view Sample.particles [] [1; 2; 1]) 2).
  - rewrite !elem_of_cons. auto.
  - reflexivity.
Defined.

End Concrete.

(* ===================================================================== *)
(** * Further properties of the code *)
(* ===================================================================== *)

(** ** one_class_selection: shape of the mask and range of the multiples *)

Section SelectionShape.

Context `{NumPy}.

Lemma length_column j (rows : matrix) : length (column j rows) = length rows.
Proof. unfold column. apply length_fmap. Qed.

Lemma band_mask_length data hcut lcut sel :
  band_mask data hcut lcut = Some sel -> length sel = arr_len data.
Proof.
  destruct data as [v|rows]; simpl.
  - destruct hcut as [|h [|? ?]]; try discriminate.
    destruct lcut as [|l [|? ?]]; try discriminate.
    intros [= <-]. apply length_fmap.
  - destruct hcut as [|h0 hcut]; [discriminate|].
    destruct lcut as [|l0 lcut]; [discriminate|].
    intros [= <-].
    generalize (seq 1 (ncols rows - 1)).
    assert (length ((fun x => fltb x h0 && fgtb x l0) <$> column 0 rows) = length rows)
      as Hlen by (now rewrite length_fmap, length_column).
    revert Hlen. generalize ((fun x => fltb x h0 && fgtb x l0) <$> column 0 rows).
    intros sel0 Hlen idxs. revert sel0 Hlen.
    induction idxs as [|i idxs IH]; intros sel0 Hlen; simpl; [exact Hlen|].
    apply IH. rewrite length_zip_with, length_fmap, length_column, Hlen. lia.
Qed.

Lemma clip_step_length data sel nstd sel' :
  clip_step data sel nstd = Some sel' -> length sel' = arr_len data.
Proof.
  intros Hstep. apply clip_step_Some in Hstep as [Hband _].
  unfold clip_band in Hband. eapply band_mask_length. exact Hband.
Qed.

Lemma clip_loop_length data nstds : forall sel sel',
  clip_loop data sel nstds = Some sel' ->
  length sel = arr_len data -> length sel' = arr_len data.
Proof.
  induction nstds as [|nstd rest IH]; intros sel sel' Hloop Hlen; simpl in Hloop.
  - now injection Hloop as <-.
  - destruct (clip_step data sel nstd) as [sel1|] eqn:E; [|discriminate].
    eapply IH; [exact Hloop|]. eapply clip_step_length. exact E.
Qed.

Lemma one_class_selection_length data nstd_min sel :
  one_class_selection data nstd_min = Some sel -> length sel = arr_len data.
Proof.
  unfold one_class_selection. destruct (clip_start data) as [start|]; [|discriminate].
  simpl. intros Hloop. eapply clip_loop_length; [exact Hloop|]. apply length_replicate.
Qed.

Lemma one_class_selection_count_pos data nstd_min sel :
  one_class_selection data nstd_min = Some sel -> (0 < count_true sel)%nat.
Proof.
  unfold one_class_selection.
  destruct (clip_start data) as [start|] eqn:Hstart; [|discriminate].
  simpl. intros Hloop. eapply clip_loop_nonempty; [exact Hloop|].
  rewrite count_true_replicate. eapply clip_start_nonempty. exact Hstart.
Qed.

(** [int(min(10, x))] never exceeds 10. *)
Lemma py_int_min_ten x start :
  py_int (py_min (of_Z 10) x) = Some start -> start <= 10.
Proof.
  unfold py_min. destruct (fltb x (of_Z 10)) eqn:Hlt.
  - destruct x as [[a b]| | |]; simpl in *; try discriminate.
    intros [= <-]. apply Z.ltb_lt in Hlt.
    destruct (Z.le_gt_cases 0 a) as [Hpos|Hneg].
    + apply Z.lt_le_incl. apply Z.quot_lt_upper_bound; lia.
    + assert (Z.quot a (Zpos b) <= 0); [|lia].
      rewrite <- (Z.opp_involutive a), Z.quot_opp_l by lia.
      assert (0 <= Z.quot (- a) (Zpos b)) by (apply Z.quot_pos; lia). lia.
  - simpl. intros [= <-]. reflexivity.
Qed.

Lemma clip_start_le_ten data start : clip_start data = Some start -> start <= 10.
Proof.
  unfold clip_start. intros Hs.
  apply bind_Some in Hs as (maxval & _ & Hs).
  apply bind_Some in Hs as (minval & _ & Hs).
  apply bind_Some in Hs as (a & _ & Hs).
  apply bind_Some in Hs as (b & _ & Hs).
  eapply py_int_min_ten. exact Hs.
Qed.

End SelectionShape.

(** X1.  The mask returned by [one_class_selection] has exactly one entry
    per sample: per element of 1-D data, per row of 2-D data. *)
Theorem one_class_selection_mask_shape `{NumPy} (data : ndarray) (nstd_min : Z)
    (sel : list bool) :
  one_class_selection data nstd_min = Some sel -> length sel = arr_len data.
Proof.
  unfold one_class_selection. intros Hret.
  apply bind_Some in Hret as (start & _ & Hloop).
  eapply clip_loop_length; [exact Hloop|]. apply length_replicate.
Qed.

(** X2.  The clipping never starts above 10 standard deviations, whatever
    the spread of the data; so with [nstd_min > 10] no pass is made and a
    call that returns accepts every sample. *)
Theorem one_class_selection_no_pass_above_ten `{NumPy} (data : ndarray)
    (nstd_min : Z) (sel : list bool) :
  10 < nstd_min ->
  one_class_selection data nstd_min = Some sel ->
  (forall start, clip_start data = Some start -> start <= 10)
  /\ sel = replicate (arr_len data) true.
Proof.
  intros Hmin Hret. split; [intros start; apply clip_start_le_ten|].
  unfold one_class_selection in Hret.
  destruct (clip_start data) as [start|] eqn:Hstart; [|discriminate].
  simpl in Hret. pose proof (clip_start_le_ten _ _ Hstart) as Hle.
  unfold xrange_down in Hret.
  replace (Z.to_nat (start - (nstd_min - 1))) with 0%nat in Hret by lia.
  simpl in Hret. now injection Hret as <-.
Qed.

(** ** analysis.one_class_distance and analysis.one_class_classification *)

Lemma count_true_le_length sel : (count_true sel <= length sel)%nat.
Proof. induction sel as [|[] sel IH]; simpl; lia. Qed.

Section DistanceProps.

Context `{NumPy} `{NumPyRoot}.

Lemma one_class_distance_Some data nstd_min dist :
  Analysis.one_class_distance data nstd_min = Some dist ->
  exists rows, data = Arr2 rows /\ length dist = length rows /\ (2 <= length rows)%nat.
Proof.
  unfold Analysis.one_class_distance. intros Hret.
  apply bind_Some in Hret as (sel & Hsel & Hret).
  destruct data as [v|rows]; [discriminate|]. exists rows. split; [reflexivity|].
  pose proof (one_class_selection_length _ _ _ Hsel) as Hlen.
  pose proof (one_class_selection_count_pos _ _ _ Hsel) as Hpos.
  pose proof (count_true_le_length sel) as Hle. simpl in Hlen.
  set (m := along_axis np_median (ncols rows) (arr_select sel (Arr2 rows))) in Hret.
  assert (length (Analysis.row_distance m <$> rows) = length rows) as Hd
    by apply length_fmap.
  destruct (Analysis.row_distance m <$> rows) as [|d0 [|d1 ds]] eqn:Hdist;
    try discriminate; injection Hret as <-; simpl in *; lia.
Qed.

End DistanceProps.

(** X3.  [one_class_distance] refuses 1-D data: its assertion on the
    dimension fails even when the selection succeeds.  On 2-D data a call
    that returns gives one distance per row, and there are at least two
    rows (a single distance is squeezed to a 0-d array, which the second
    assertion refuses). *)
Theorem one_class_distance_shape `{NumPy} `{NumPyRoot} (data : ndarray)
    (nstd_min : Z) :
  (forall v, data = Arr1 v -> Analysis.one_class_distance data nstd_min = None)
  /\ (forall dist, Analysis.one_class_distance data nstd_min = Some dist ->
        exists rows, data = Arr2 rows /\ length dist = length rows
                     /\ (2 <= length rows)%nat).
Proof.
  split.
  - intros v ->. unfold Analysis.one_class_distance.
    now destruct (one_class_selection (Arr1 v) nstd_min).
  - intros dist. apply one_class_distance_Some.
Qed.

(** X4.  A call of [analysis.one_class_classification] that returns was
    given 2-D data; its mask has one entry per row and accepts at least
    one row. *)
Theorem analysis_one_class_classification_mask `{NumPy} `{NumPyRoot}
    (data : ndarray) (nstd_min : Z) (sel : list bool) :
  Analysis.one_class_classification data nstd_min = Some sel ->
  exists rows, data = Arr2 rows /\ length sel = length rows
               /\ (0 < count_true sel)%nat.
Proof.
  unfold Analysis.one_class_classification. intros Hret.
  apply bind_Some in Hret as (dist & Hdist & Hsel).
  destruct (one_class_distance_Some _ _ _ Hdist) as (rows & -> & Hlen & _).
  exists rows. split; [reflexivity|]. split.
  - rewrite (one_class_selection_length _ _ _ Hsel). exact Hlen.
  - eapply one_class_selection_count_pos. exact Hsel.
Qed.

Section ConcreteSelection.

Import Ref RefExt.

(** Ten rows give a mask of ten entries. *)
Lemma one_class_selection_mask_shape_witness :
  exists sel, one_class_selection (Arr2 SampleExt.cloud) 3 = Some sel
              /\ length sel = 10%nat.
Proof.
  eexists. split; [vm_compute; reflexivity|].
  apply (@one_class_selection_mask_shape numpy (Arr2 SampleExt.cloud) 3).
  vm_compute. reflexivity.
Defined.

(** With a minimum of 11 the outlying row is kept too. *)
Lemma one_class_selection_no_pass_above_ten_witness :
  one_class_selection (Arr2 SampleExt.cloud) 11 = Some (replicate 10 true).
Proof.
  assert (is_Some (one_class_selection (Arr2 SampleExt.cloud) 11)) as [sel Hsel]
    by (vm_compute; eauto).
  rewrite Hsel. f_equal.
  exact (proj2 (@one_class_selection_no_pass_above_ten numpy (Arr2 SampleExt.cloud)
                  11 sel ltac:(lia) Hsel)).
Defined.

(** Ten rows give ten distances. *)
Lemma one_class_distance_shape_witness :
  exists dist, Analysis.one_class_distance (Arr2 SampleExt.cloud) 3 = Some dist
               /\ exists rows, Arr2 SampleExt.cloud = Arr2 rows
                               /\ length dist = length rows /\ (2 <= length rows)%nat.
Proof.
  eexists. split; [vm_compute; reflexivity|].
  apply (proj2 (@one_class_distance_shape numpy numpy_root (Arr2 SampleExt.cloud) 3)).
  vm_compute. reflexivity.
Defined.

Lemma analysis_one_class_classification_mask_witness :
  exists sel, Analysis.one_class_classification (Arr2 SampleExt.cloud) 3 = Some sel
              /\ exists rows, Arr2 SampleExt.cloud = Arr2 rows
                              /\ length sel = length rows /\ (0 < count_true sel)%nat.
Proof.
  eexists. split; [vm_compute; reflexivity|].
  apply (@analysis_one_class_classification_mask numpy numpy_root
           (Arr2 SampleExt.cloud) 3).
  vm_compute. reflexivity.
Defined.

End ConcreteSelection.

(** ** reduce_all: what one view adds to the registry *)

Lemma registry_size_insert_fresh (k : mic_key) (l : list Z)
    (m : gmap mic_key (list Z)) :
  m !! k = None -> registry_size (<[k := l]> m) = (length l + registry_size m)%nat.
Proof.
  intros Hk. unfold registry_size.
  rewrite map_fold_insert_L; [reflexivity | | exact Hk].
  intros. lia.
Qed.

Lemma registry_size_insert (k : mic_key) (l : list Z) (m : gmap mic_key (list Z)) :
  (registry_size (<[k := l]> m) + length (default [] (m !! k))
   = length l + registry_size m)%nat.
Proof.
  destruct (m !! k) as [old|] eqn:Hk; simpl.
  - rewrite <- (insert_delete_id m k old Hk) at 2.
    rewrite <- (insert_delete_eq m k l).
    rewrite !registry_size_insert_fresh by apply lookup_delete_eq. lia.
  - rewrite registry_size_insert_fresh by exact Hk. lia.
Qed.

Lemma registry_size_setdefault_append (k : mic_key) (v : Z)
    (m : gmap mic_key (list Z)) :
  registry_size (setdefault_append k v m) = S (registry_size m).
Proof.
  unfold setdefault_append.
  pose proof (registry_size_insert k (default [] (m !! k) ++ [v]) m) as Hsz.
  rewrite length_app in Hsz. simpl in Hsz. lia.
Qed.

Lemma record_size label idxs : forall m m',
  foldl (record_entry label) (Some m) idxs = Some m' ->
  registry_size m' = (registry_size m + length idxs)%nat.
Proof.
  induction idxs as [|i idxs IH]; intros m m' Hrun; cbn [foldl] in Hrun.
  - injection Hrun as <-. simpl. lia.
  - rewrite record_entry_Some in Hrun.
    destruct (selection_entry label i) as [[k0 v]|] eqn:He.
    + rewrite (IH _ _ Hrun), registry_size_setdefault_append. simpl. lia.
    + rewrite record_None in Hrun. discriminate.
Qed.

Lemma selection_entry_lt label i e :
  selection_entry label i = Some e -> (i < label_count label)%nat.
Proof.
  destruct label as [f rows|entries]; simpl; intros He;
    apply bind_Some in He as (x & Hx & _); eapply lookup_lt_Some; exact Hx.
Qed.

(** The accepted positions come in increasing order: the [j]-th of them is
    at least [j]. *)
Lemma mask_select_seq_ge sel : forall a n j i,
  mask_select sel (seq a n) !! j = Some i -> (a + j <= i)%nat.
Proof.
  induction sel as [|b sel IH]; intros a n j i Hj; [discriminate|].
  destruct n as [|n]; [discriminate|]. simpl in Hj.
  destruct b.
  - destruct j as [|j]; simpl in Hj.
    + injection Hj as <-. lia.
    + apply IH in Hj. lia.
  - apply IH in Hj. lia.
Qed.

Lemma accepted_within_labels label sel m m' :
  foldl (record_entry label) (Some m) (argwhere sel) = Some m' ->
  (count_true sel <= label_count label)%nat.
Proof.
  intros Hrun. rewrite <- length_argwhere.
  destruct (argwhere sel) as [|i0 rest] eqn:Hidx; [simpl; lia|].
  rewrite <- Hidx in *.
  assert (is_Some (foldl (record_entry label) (Some m) (argwhere sel))) as Hs
    by (rewrite Hrun; eauto).
  apply record_success in Hs.
  assert (is_Some (argwhere sel !! (length (argwhere sel) - 1)%nat)) as [i Hi].
  { apply lookup_lt_is_Some_2. rewrite Hidx. simpl. lia. }
  assert (i < label_count label)%nat as Hlt.
  { rewrite Forall_forall in Hs.
    destruct (Hs i) as [e He]; [eapply list_elem_of_lookup_2; exact Hi|].
    eapply selection_entry_lt. exact He. }
  unfold argwhere in Hi. apply mask_select_seq_ge in Hi.
  fold (argwhere sel) in Hi. lia.
Qed.

(** X5.  When [reduce_all] returns, the numbers of its message add up:
    [Removed] is not negative and [Selected + Removed] is the number of
    particles of the view; and the registry holds exactly [Selected] more
    indices than before, all micrographs together. *)
Theorem reduce_all_accounts (val : view * list bool)
    (sel_by_mic m : gmap mic_key (list Z)) (id : Z) (selected : nat) (removed : Z) :
  reduce_all val sel_by_mic = Some (m, (id, selected, removed)) ->
  0 <= removed
  /\ Z.of_nat selected + removed = Z.of_nat (label_count val.1.1.2)
  /\ registry_size m = (registry_size sel_by_mic + selected)%nat.
Proof.
  unfold reduce_all. cbv zeta. intros Hret.
  apply bind_Some in Hret as (m1 & Hupd & Hret).
  injection Hret as -> _ <- <-. unfold update_selection_dict in Hupd.
  pose proof (accepted_within_labels _ _ _ _ Hupd) as Hle.
  split; [lia|]. split; [lia|].
  rewrite (record_size _ _ _ _ Hupd). now rewrite length_argwhere.
Qed.

(** A view of two particles, one of them accepted. *)
Lemma reduce_all_accounts_witness :
  exists m id selected removed,
    reduce_all ((3, Sample.stack, []), [true; false]) ∅
    = Some (m, (id, selected, removed))
    /\ 0 <= removed
    /\ Z.of_nat selected + removed = 2
    /\ registry_size m = (registry_size (∅ : gmap mic_key (list Z)) + selected)%nat.
Proof.
  assert (is_Some (reduce_all ((3, Sample.stack, []), [true; false]) ∅))
    as [[m [[id selected] removed]] Hm] by (vm_compute; eauto).
  exists m, id, selected, removed. split; [exact Hm|].
  exact (reduce_all_accounts _ _ _ _ _ _ Hm).
Defined.

(** ** update_selection_dict: the order of the views *)

Lemma setdefault_append_None (k k' : mic_key) (v : Z) (m : gmap mic_key (list Z)) :
  setdefault_append k v m !! k' = None <-> k <> k' /\ m !! k' = None.
Proof.
  unfold setdefault_append. destruct (decide (k = k')) as [->|Hne].
  - rewrite lookup_insert_eq. split; [discriminate | intros [Hc _]; now destruct Hc].
  - rewrite lookup_insert_ne by assumption. tauto.
Qed.

(** A micrograph is absent after a pass exactly when it was absent before
    and no accepted particle belongs to it. *)
Lemma record_lookup_None label idxs : forall (m m' : gmap mic_key (list Z)),
  foldl (record_entry label) (Some m) idxs = Some m' ->
  forall k, m' !! k = None <-> m !! k = None /\ accepted_for k label idxs = [].
Proof.
  induction idxs as [|i idxs IH]; intros m m' Hrun k; cbn [foldl] in Hrun.
  - injection Hrun as <-. unfold accepted_for. simpl. tauto.
  - rewrite record_entry_Some in Hrun.
    destruct (selection_entry label i) as [[k0 v]|] eqn:He.
    + rewrite (IH _ _ Hrun k), setdefault_append_None.
      unfold accepted_for. simpl. rewrite He. simpl.
      destruct (decide (k0 = k)) as [->|Hne]; simpl.
      * split; [intros [[Hc _] _]; now destruct Hc | intros [_ Hc]; discriminate].
      * tauto.
    + rewrite record_None in Hrun. discriminate.
Qed.

Lemma lookup_from_default (m1 m2 : gmap mic_key (list Z)) (k : mic_key) :
  (m1 !! k = None <-> m2 !! k = None) ->
  default [] (m1 !! k) = default [] (m2 !! k) -> m1 !! k = m2 !! k.
Proof.
  destruct (m1 !! k) as [l1|], (m2 !! k) as [l2|]; simpl; intros Hnone Heq.
  - now subst.
  - destruct Hnone as [_ Hc]. now specialize (Hc eq_refl).
  - destruct Hnone as [Hc _]. now specialize (Hc eq_refl).
  - reflexivity.
Qed.

(** X6.  The results of two views can be recorded in either order: when
    recording view A and then view B succeeds, so does recording B and then
    A; the two registries have the same micrographs, every micrograph has
    the same indices up to their order in the list, and a micrograph that
    only one of the two views contributes to has the very same list. *)
Theorem update_selection_dict_order (reg rA rAB : gmap mic_key (list Z))
    (labelA labelB : labels) (selA selB : list bool) :
  update_selection_dict reg labelA selA = Some rA ->
  update_selection_dict rA labelB selB = Some rAB ->
  exists rB rBA,
    update_selection_dict reg labelB selB = Some rB
    /\ update_selection_dict rB labelA selA = Some rBA
    /\ forall k,
         (rAB !! k = None <-> rBA !! k = None)
         /\ default [] (rAB !! k) ≡ₚ default [] (rBA !! k)
         /\ (accepted_for k labelA (argwhere selA) = []
             \/ accepted_for k labelB (argwhere selB) = [] ->
             rAB !! k = rBA !! k).
Proof.
  unfold update_selection_dict. intros HA HAB.
  assert (is_Some (foldl (record_entry labelB) (Some reg) (argwhere selB)))
    as [rB HB].
  { apply record_success. eapply record_success. rewrite HAB. eauto. }
  assert (is_Some (foldl (record_entry labelA) (Some rB) (argwhere selA)))
    as [rBA HBA].
  { apply record_success. eapply record_success. rewrite HA. eauto. }
  exists rB, rBA. split; [exact HB|]. split; [exact HBA|]. intros k.
  pose proof (record_lookup _ _ _ _ HA k) as LA.
  pose proof (record_lookup _ _ _ _ HAB k) as LAB.
  pose proof (record_lookup _ _ _ _ HB k) as LB.
  pose proof (record_lookup _ _ _ _ HBA k) as LBA.
  pose proof (record_lookup_None _ _ _ _ HA k) as NA.
  pose proof (record_lookup_None _ _ _ _ HAB k) as NAB.
  pose proof (record_lookup_None _ _ _ _ HB k) as NB.
  pose proof (record_lookup_None _ _ _ _ HBA k) as NBA.
  assert (rAB !! k = None <-> rBA !! k = None) as Hnone by tauto.
  split; [exact Hnone|]. split.
  - rewrite LAB, LA, LBA, LB, <- !app_assoc.
    apply Permutation_app_head, Permutation_app_comm.
  - intros Hempty. apply lookup_from_default; [exact Hnone|].
    rewrite LAB, LA, LBA, LB, <- !app_assoc. f_equal.
    destruct Hempty as [-> | ->]; now rewrite ?app_nil_r.
Qed.

(** Two views sharing micrograph 3, recorded in both orders. *)
Lemma update_selection_dict_order_witness :
  exists rA rAB rB rBA,
    update_selection_dict ∅ Sample.stack [true; true] = Some rA
    /\ update_selection_dict rA SampleExt.neighbour [true; true] = Some rAB
    /\ update_selection_dict ∅ SampleExt.neighbour [true; true] = Some rB
    /\ update_selection_dict rB Sample.stack [true; true] = Some rBA
    /\ default [] (rAB !! (inl 3 : mic_key)) ≡ₚ default [] (rBA !! (inl 3 : mic_key))
    /\ rAB !! (inl 4 : mic_key) = rBA !! (inl 4 : mic_key).
Proof.
  assert (is_Some (update_selection_dict ∅ Sample.stack [true; true])) as [rA HA]
    by (vm_compute; eauto).
  assert (is_Some (update_selection_dict rA SampleExt.neighbour [true; true]))
    as [rAB HAB].
  { apply record_success.
    apply (record_success SampleExt.neighbour (argwhere [true; true]) ∅).
    vm_compute; eauto. }
  destruct (update_selection_dict_order ∅ rA rAB Sample.stack SampleExt.neighbour
              [true; true] [true; true] HA HAB) as (rB & rBA & HB & HBA & Hk).
  exists rA, rAB, rB, rBA. repeat (split; [assumption|]).
  split; [apply (Hk (inl 3)) | apply (Hk (inl 4)); left; reflexivity].
Defined.

(** ** group_by_reference: the views partition the particles *)

Lemma insert_unique_lower r l x :
  Forall (Z.lt x) l -> x < r -> Forall (Z.lt x) (insert_unique r l).
Proof.
  intros Hl Hx. apply Forall_forall. intros y Hy.
  apply elem_of_insert_unique in Hy as [->|Hy]; [exact Hx|].
  rewrite Forall_forall in Hl. now apply Hl.
Qed.

Lemma insert_unique_sorted r l :
  StronglySorted Z.lt l -> StronglySorted Z.lt (insert_unique r l).
Proof.
  induction 1 as [|y l Hs IH Hy]; simpl.
  - repeat constructor.
  - destruct (Z.ltb_spec r y) as [Hlt|Hge].
    + constructor; [now constructor|]. constructor; [exact Hlt|].
      eapply Forall_impl; [exact Hy|]. intros z Hz. simpl in Hz. lia.
    + destruct (Z.eqb_spec r y) as [->|Hne]; [now constructor|].
      constructor; [exact IH|]. apply insert_unique_lower; [exact Hy | lia].
Qed.

Lemma np_unique_sorted ref : StronglySorted Z.lt (np_unique ref).
Proof.
  unfold np_unique. induction ref as [|x ref IH]; simpl; [constructor|].
  now apply insert_unique_sorted.
Qed.

Lemma sum_list_cons (a : nat) l : sum_list (a :: l) = (a + sum_list l)%nat.
Proof. reflexivity. Qed.

(** Summing over the distinct values: inserting [x] adds its term unless
    [x] is there already. *)
Lemma sum_insert_unique (g : Z -> nat) x l :
  StronglySorted Z.lt l ->
  sum_list (g <$> insert_unique x l)
  = (sum_list (g <$> l) + (if bool_decide (x ∈ l) then 0 else g x))%nat.
Proof.
  induction 1 as [|y l Hs IH Hy].
  - rewrite (bool_decide_eq_false_2 (x ∈ [])) by apply not_elem_of_nil. simpl. lia.
  - rewrite Forall_forall in Hy. cbn [insert_unique].
    destruct (Z.ltb_spec x y) as [Hlt|Hge].
    + rewrite (bool_decide_eq_false_2 (x ∈ y :: l)); [simpl; lia|].
      intros Hin. apply elem_of_cons in Hin as [->|Hin]; [lia|].
      specialize (Hy x Hin). lia.
    + destruct (Z.eqb_spec x y) as [->|Hne].
      * rewrite (bool_decide_eq_true_2 (y ∈ y :: l)) by apply list_elem_of_here. lia.
      * rewrite !fmap_cons. rewrite !sum_list_cons. rewrite IH.
        destruct (decide (x ∈ l)) as [Hin|Hin].
        -- rewrite (bool_decide_eq_true_2 (x ∈ l)) by exact Hin.
           rewrite (bool_decide_eq_true_2 (x ∈ y :: l))
             by (now apply list_elem_of_further). lia.
        -- rewrite (bool_decide_eq_false_2 (x ∈ l)) by exact Hin.
           rewrite (bool_decide_eq_false_2 (x ∈ y :: l)); [lia|].
           intros Hc. apply elem_of_cons in Hc as [?|?]; [lia | contradiction].
Qed.

Lemma sum_indicator x l :
  StronglySorted Z.lt l ->
  sum_list ((fun r : Z => if r =? x then 1%nat else 0%nat) <$> l)
  = (if bool_decide (x ∈ l) then 1 else 0)%nat.
Proof.
  induction 1 as [|y l Hs IH Hy].
  - rewrite (bool_decide_eq_false_2 (x ∈ [])) by apply not_elem_of_nil. reflexivity.
  - rewrite Forall_forall in Hy. rewrite fmap_cons. rewrite !sum_list_cons.
    rewrite IH. destruct (Z.eqb_spec y x) as [->|Hne].
    + rewrite (bool_decide_eq_true_2 (x ∈ x :: l)) by apply list_elem_of_here.
      rewrite (bool_decide_eq_false_2 (x ∈ l)); [reflexivity|].
      intros Hin. specialize (Hy x Hin). lia.
    + destruct (decide (x ∈ l)) as [Hin|Hin].
      * rewrite (bool_decide_eq_true_2 (x ∈ l)) by exact Hin.
        now rewrite (bool_decide_eq_true_2 (x ∈ y :: l))
          by (now apply list_elem_of_further).
      * rewrite (bool_decide_eq_false_2 (x ∈ l)) by exact Hin.
        rewrite (bool_decide_eq_false_2 (x ∈ y :: l)); [reflexivity|].
        intros Hc. apply elem_of_cons in Hc as [?|?]; [congruence | contradiction].
Qed.

Lemma view_size_absent x ref : x ∉ ref -> view_size x ref = 0%nat.
Proof.
  unfold view_size. induction ref as [|y ref IH]; intros Hx; [reflexivity|].
  rewrite fmap_cons. cbn [count_true].
  rewrite not_elem_of_cons in Hx. destruct Hx as [Hne Hx].
  destruct (Z.eqb_spec x y); [contradiction|]. now rewrite IH.
Qed.

Lemma sum_list_fmap_add {A} (f g : A -> nat) (l : list A) :
  sum_list ((fun r => f r + g r)%nat <$> l)
  = (sum_list (f <$> l) + sum_list (g <$> l))%nat.
Proof.
  induction l as [|x l IH]; [reflexivity|].
  rewrite !fmap_cons. rewrite !sum_list_cons. rewrite IH. lia.
Qed.

(** Every particle is counted in exactly one view. *)
Lemma view_sizes_total ref :
  sum_list ((fun r => view_size r ref) <$> np_unique ref) = length ref.
Proof.
  induction ref as [|x ref IH]; [reflexivity|].
  change (np_unique (x :: ref)) with (insert_unique x (np_unique ref)).
  rewrite (list_fmap_ext (fun r => view_size r (x :: ref))
             (fun r : Z => ((if (r =? x)%Z then 1 else 0) + view_size r ref)%nat)).
  2:{ intros _ r _. unfold view_size. rewrite fmap_cons. cbn [count_true].
      reflexivity. }
  rewrite sum_insert_unique by apply np_unique_sorted.
  rewrite (sum_list_fmap_add (fun r : Z => if r =? x then 1%nat else 0%nat)
             (fun r => view_size r ref)).
  rewrite sum_indicator by apply np_unique_sorted.
  rewrite IH, Z.eqb_refl. simpl length.
  destruct (bool_decide (x ∈ np_unique ref)) eqn:Hin; [lia|].
  apply bool_decide_eq_false_1 in Hin. rewrite elem_of_np_unique in Hin.
  rewrite (view_size_absent x ref Hin). lia.
Qed.

Lemma sublist_mask_select {A} (sel : list bool) : forall l : list A,
  sublist (mask_select sel l) l.
Proof.
  induction sel as [|b sel IH]; intros [|x l]; cbn [mask_select];
    try apply sublist_nil_l.
  destruct b; [apply sublist_skip | apply sublist_cons]; apply IH.
Qed.

(** The list comprehension over [numpy.argwhere(sel)] picks the same
    elements as the boolean index [label[sel]]. *)
Lemma mapM_lookup_mask_select {A} (l : list A) (sel : list bool) : forall n picked,
  mapM (fun i => l !! i) (mask_select sel (seq n (length sel))) = Some picked ->
  picked = mask_select sel (drop n l).
Proof.
  induction sel as [|b sel IH]; intros n picked Hp.
  - cbn in Hp. injection Hp as <-. reflexivity.
  - cbn [length seq mask_select] in Hp. destruct b.
    + cbn [mapM] in Hp. apply bind_Some in Hp as (x & Hx & Hp).
      apply bind_Some in Hp as (rest & Hrest & Hp). injection Hp as <-.
      rewrite (drop_S _ _ _ Hx). cbn [mask_select]. f_equal.
      now apply IH.
    + specialize (IH (S n) picked Hp). subst picked.
      destruct (drop n l) as [|y l'] eqn:Hd.
      * rewrite (drop_ge l (S n)).
        { now destruct sel. }
        apply drop_nil_inv in Hd. lia.
      * cbn [mask_select]. f_equal.
        change (S n) with (1 + n)%nat. rewrite Nat.add_comm, <- drop_drop, Hd.
        reflexivity.
Qed.

Lemma mapM_lookup_argwhere {A} (l : list A) sel picked :
  mapM (fun i => l !! i) (argwhere sel) = Some picked -> picked = mask_select sel l.
Proof. intros Hp. now apply mapM_lookup_mask_select in Hp. Qed.

(** What [group_by_reference] returns, view by view, for either kind of
    labels. *)
Lemma group_by_reference_views label align ref group :
  group_by_reference label align ref = Some group ->
  group = (fun r => (r, select_labels (view_mask r ref) label,
                     mask_select (view_mask r ref) align)) <$> np_unique ref.
Proof.
  unfold group_by_reference. destruct label as [filename rows|entries]; intros Hg.
  - injection Hg as <-. reflexivity.
  - apply mapM_Some in Hg. induction Hg as [|r g refs group Hr _ IH]; [reflexivity|].
    rewrite fmap_cons, <- IH. f_equal. cbv beta zeta in Hr.
    apply bind_Some in Hr as (idx & Hidx & Hr).
    apply bind_Some in Hr as (picked & Hpicked & Hr). injection Hr as <-.
    assert (idx = argwhere (view_mask r ref)) as ->.
    { unfold iter_squeezed_argwhere in Hidx. fold (view_mask r ref) in Hidx.
      destruct (argwhere (view_mask r ref)) as [|? [|? ?]]; try discriminate;
        now injection Hidx as <-. }
    apply mapM_lookup_argwhere in Hpicked. now subst picked.
Qed.

Lemma label_count_select_labels sel label :
  label_count label = length sel ->
  label_count (select_labels sel label) = count_true sel.
Proof.
  destruct label; cbn [label_count select_labels]; apply length_mask_select.
Qed.

Lemma labels_sublist_select_labels sel label :
  labels_sublist (select_labels sel label) label.
Proof.
  destruct label; cbn [labels_sublist select_labels];
    [split; [reflexivity|]|]; apply sublist_mask_select.
Qed.

(** X7.  When [group_by_reference] returns for labels with one entry per
    element of [ref], the views partition the particles: the view
    identifiers are the distinct values of [ref] in strictly increasing
    order, every view holds as many labels as [ref] has entries with its
    identifier, which is at least one, and the view sizes add up to the
    number of particles.  With one alignment row per particle, every view
    has as many alignment rows as labels. *)
Theorem group_by_reference_partition (label : labels) (align : matrix)
    (ref : list Z) (group : list view) :
  group_by_reference label align ref = Some group ->
  label_count label = length ref ->
  (fun g : view => g.1.1) <$> group = np_unique ref
  /\ StronglySorted Z.lt ((fun g : view => g.1.1) <$> group)
  /\ Forall (fun g : view => label_count g.1.2 = view_size g.1.1 ref
                             /\ (1 <= label_count g.1.2)%nat) group
  /\ sum_list ((fun g : view => label_count g.1.2) <$> group) = length ref
  /\ (length align = length ref ->
      Forall (fun g : view => length g.2 = label_count g.1.2) group).
Proof.
  intros Hg Hlen. apply group_by_reference_views in Hg. subst group.
  assert (forall r, length (view_mask r ref) = length ref) as Hmask
    by (intros r; apply length_fmap).
  assert (forall r, label_count (select_labels (view_mask r ref) label)
                    = view_size r ref) as Hsize.
  { intros r. apply label_count_select_labels. now rewrite Hmask. }
  rewrite <- !list_fmap_compose.
  assert (forall l : list Z, (fun r : Z => r) <$> l = l) as Hid
    by (intros l; apply list_fmap_id).
  split; [apply Hid|]. split.
  { unfold compose. cbn [fst snd]. rewrite Hid. apply np_unique_sorted. }
  split.
  - apply Forall_fmap, Forall_forall. intros r Hr. cbn [compose fst snd].
    unfold compose. cbn [fst snd]. rewrite Hsize. split; [reflexivity|].
    apply view_size_pos. now apply elem_of_np_unique.
  - split.
    + rewrite <- (view_sizes_total ref). f_equal. apply list_fmap_ext.
      intros _ r _. unfold compose. cbn [fst snd]. apply Hsize.
    + intros Halign. apply Forall_fmap, Forall_forall. intros r _.
      unfold compose. cbn [fst snd]. rewrite Hsize.
      apply length_mask_select. now rewrite Hmask.
Qed.

(** X8.  Both branches of [group_by_reference] select like the boolean
    index: every view returned holds the labels [label[r == ref]] and the
    alignment rows [align[r == ref]] of its identifier [r], so labels and
    rows keep the relative order they have in the input, and [r] occurs
    in [ref]. *)
Theorem group_by_reference_selects (label : labels) (align : matrix)
    (ref : list Z) (group : list view) :
  group_by_reference label align ref = Some group ->
  forall g : view, g ∈ group ->
    g.1.1 ∈ ref
    /\ g.1.2 = select_labels (view_mask g.1.1 ref) label
    /\ g.2 = mask_select (view_mask g.1.1 ref) align
    /\ labels_sublist g.1.2 label
    /\ sublist g.2 align.
Proof.
  intros Hg g Hin. apply group_by_reference_views in Hg. subst group.
  apply list_elem_of_fmap in Hin as (r & -> & Hr). cbn [fst snd].
  split; [now apply elem_of_np_unique|].
  split; [reflexivity|]. split; [reflexivity|].
  split; [apply labels_sublist_select_labels | apply sublist_mask_select].
Qed.

(** Five particles in views 1, 2 and 3. *)
Lemma group_by_reference_partition_witness :
  exists group,
    group_by_reference SampleExt.tilt SampleExt.tilt_align SampleExt.tilt_ref
    = Some group
    /\ (fun g : view => g.1.1) <$> group = [1; 2; 3]
    /\ sum_list ((fun g : view => label_count g.1.2) <$> group) = 5%nat
    /\ Forall (fun g : view => length g.2 = label_count g.1.2) group.
Proof.
  eexists. split; [reflexivity|].
  destruct (group_by_reference_partition SampleExt.tilt SampleExt.tilt_align
              SampleExt.tilt_ref _ eq_refl eq_refl) as (Hids & _ & _ & Hsum & Hrows).
  split; [exact Hids|]. split; [exact Hsum | exact (Hrows eq_refl)].
Defined.

(** The per-particle branch: view 5 holds the second and the fourth
    particle, in that order. *)
Lemma group_by_reference_selects_witness :
  exists group g,
    group_by_reference SampleExt.pairs SampleExt.pairs_align SampleExt.pairs_ref
    = Some group
    /\ group !! 0%nat = Some g
    /\ g.1.1 = 5
    /\ g.1.2 = select_labels [false; true; false; true] SampleExt.pairs
    /\ labels_sublist g.1.2 SampleExt.pairs.
Proof.
  eexists. eexists. split; [reflexivity|]. split; [reflexivity|].
  split; [reflexivity|].
  destruct (group_by_reference_selects SampleExt.pairs SampleExt.pairs_align
              SampleExt.pairs_ref _ eq_refl _ (list_elem_of_here _ _))
    as (_ & Hl & _ & Hs & _).
  split; [exact Hl | exact Hs].
Defined.

(** ** init_root: the order and the multiplicity of the views handed on *)

Lemma insert_by_count_sorted count i l :
  StronglySorted (fun a b => nth a count 0 <= nth b count 0)%nat l ->
  StronglySorted (fun a b => nth a count 0 <= nth b count 0)%nat
                 (insert_by_count count i l).
Proof.
  induction 1 as [|j l Hs IH Hj]; cbn [insert_by_count].
  - repeat constructor.
  - destruct (Nat.leb_spec (nth i count 0%nat) (nth j count 0%nat)) as [Hle|Hgt].
    + constructor; [now constructor|]. constructor; [exact Hle|].
      eapply Forall_impl; [exact Hj|]. intros k Hk. simpl in Hk. lia.
    + constructor; [exact IH|]. rewrite insert_by_count_perm.
      constructor; [lia | exact Hj].
Qed.

Lemma argsort_sorted count :
  StronglySorted (fun a b => nth a count 0 <= nth b count 0)%nat (argsort count).
Proof.
  unfold argsort. induction (seq 0 (length count)) as [|i l IH]; cbn [foldr].
  - constructor.
  - now apply insert_by_count_sorted.
Qed.

Lemma StronglySorted_reverse {A} (R : relation A) l :
  StronglySorted R l -> StronglySorted (flip R) (reverse l).
Proof.
  induction 1 as [|x l Hs IH Hx]; [constructor|].
  rewrite reverse_cons. apply StronglySorted_app_2; [|exact IH|repeat constructor].
  intros a b Ha Hb. apply list_elem_of_singleton in Hb as ->.
  apply (proj1 (elem_of_reverse _ _)) in Ha. rewrite Forall_forall in Hx.
  unfold flip.
  now apply Hx.
Qed.

Lemma StronglySorted_omap {A B} (f : A -> option B) (R : relation A)
    (R' : relation B) l :
  (forall a b a' b', f a = Some a' -> f b = Some b' -> R a b -> R' a' b') ->
  StronglySorted R l -> StronglySorted R' (omap f l).
Proof.
  intros Hf. induction 1 as [|x l Hs IH Hx]; [constructor|].
  change (omap f (x :: l)) with (match f x with Some y => y :: omap f l
                                             | None => omap f l end).
  destruct (f x) as [y|] eqn:Hy; [|exact IH].
  constructor; [exact IH|]. apply Forall_forall. intros b' Hb'.
  apply list_elem_of_omap in Hb' as (b & Hb & Hfb).
  rewrite Forall_forall in Hx. eapply Hf; eauto.
Qed.

(** Walking over all positions and keeping the elements that pass a test
    is filtering. *)
Lemma omap_lookup_seq {A} (P : A -> Prop) `{!forall x, Decision (P x)} (l : list A) :
  omap (fun i => x ← l !! i; if decide (P x) then Some x else None)
       (seq 0 (length l))
  = filter P l.
Proof.
  induction l as [|x l IH] using rev_ind; [reflexivity|].
  rewrite length_app, Nat.add_comm. cbn [length Nat.add]. rewrite seq_S, omap_app.
  rewrite filter_app. f_equal.
  - rewrite <- IH. apply list_omap_ext, Forall_Forall2_diag, Forall_forall.
    intros i Hi. apply elem_of_seq in Hi. rewrite lookup_app_l by lia. reflexivity.
  - cbn [Nat.add omap list_omap]. rewrite list_lookup_middle by reflexivity.
    cbn [mbind option_bind]. rewrite filter_cons.
    destruct (decide (P x)); reflexivity.
Qed.

Lemma select_views_default (single_view : Z) (group : list view) :
  single_view <= 0 ->
  exists kept,
    select_views single_view group = Some kept
    /\ kept ≡ₚ filter (fun g : view => (20 < label_count g.1.2)%nat) group
    /\ StronglySorted
         (fun g h : view => (label_count h.1.2 <= label_count g.1.2)%nat) kept.
Proof.
  intros Hsv. unfold select_views.
  destruct (Z.ltb_spec 0 single_view) as [?|_]; [lia|].
  eexists. split; [reflexivity|].
  set (count := (fun g : view => label_count g.1.2) <$> group).
  assert (forall i g, group !! i = Some g -> nth i count 0%nat = label_count g.1.2)
    as Hcount.
  { intros i g Hg. apply nth_lookup_Some with (d := 0%nat).
    unfold count. now rewrite list_lookup_fmap, Hg. }
  split.
  - rewrite reverse_Permutation, argsort_perm.
    replace (length count) with (length group)
      by (unfold count; now rewrite length_fmap).
    rewrite <- (omap_lookup_seq (fun g : view => (20 < label_count g.1.2)%nat)).
    apply reflexive_eq, list_omap_ext, Forall_Forall2_diag, Forall_forall.
    intros i _. destruct (group !! i) as [g|] eqn:Hg.
    + rewrite (Hcount i g Hg). cbn [mbind option_bind].
      destruct (Nat.ltb_spec 20 (label_count g.1.2));
        destruct (decide (20 < label_count g.1.2)%nat); try reflexivity; lia.
    + now destruct (20 <? nth i count 0)%nat.
  - eapply StronglySorted_omap;
      [|apply StronglySorted_reverse, (argsort_sorted count)].
    intros i j g h Hi Hj Hij. unfold flip in Hij.
    destruct (20 <? nth i count 0)%nat; [|discriminate].
    destruct (20 <? nth j count 0)%nat; [|discriminate].
    rewrite <- (Hcount i g Hi), <- (Hcount j h Hj). exact Hij.
Qed.

Lemma StronglySorted_lt_NoDup (l : list Z) : StronglySorted Z.lt l -> NoDup l.
Proof.
  induction 1 as [|x l Hs IH Hx]; constructor; [|exact IH].
  intros Hin. rewrite Forall_forall in Hx. specialize (Hx x Hin). lia.
Qed.

Lemma sum_list_filter_le {A} (f : A -> nat) (P : A -> Prop)
    `{!forall x, Decision (P x)} (l : list A) :
  (sum_list (f <$> filter P l) <= sum_list (f <$> l))%nat.
Proof.
  induction l as [|x l IH]; [reflexivity|].
  rewrite filter_cons, fmap_cons, sum_list_cons.
  destruct (decide (P x)); [rewrite fmap_cons, sum_list_cons|]; lia.
Qed.

(** The particle counts of the views of [group_by_reference]. *)
Lemma group_by_reference_counts label align ref group :
  group_by_reference label align ref = Some group ->
  label_count label = length ref ->
  (fun g : view => g.1.1) <$> group = np_unique ref
  /\ (fun g : view => label_count g.1.2) <$> group
     = (fun r => view_size r ref) <$> np_unique ref
  /\ forall g : view, g ∈ group ->
       g.1.1 ∈ ref /\ label_count g.1.2 = view_size g.1.1 ref.
Proof.
  intros Hg Hlen. apply group_by_reference_views in Hg. subst group.
  assert (forall r, label_count (select_labels (view_mask r ref) label)
                    = view_size r ref) as Hsize.
  { intros r. apply label_count_select_labels.
    unfold view_mask. now rewrite length_fmap. }
  rewrite <- !list_fmap_compose. split; [apply list_fmap_id|]. split.
  - apply list_fmap_ext. intros _ r _. apply Hsize.
  - intros g Hin. apply list_elem_of_fmap in Hin as (r & -> & Hr). cbn [fst snd].
    split; [now apply elem_of_np_unique | apply Hsize].
Qed.

Section InitRootProps.

Context `{Healpix} `{Reconstruction}.

(** A call of [init_root] that returns has read tuple labels, grouped them
    and selected among the views. *)
Lemma init_root_Some param kept :
  init_root param = Some kept ->
  exists p1 p2 filename rows align ref group,
    spider_params_read param = Some p1
    /\ resolve_order p1 = Some p2
    /\ read_alignment p2 = Some (Grouped filename rows, align, ref)
    /\ group_by_reference (Grouped filename rows) align ref = Some group
    /\ select_views (param_single_view p2) group = Some kept.
Proof.
  unfold init_root. intros Hret.
  apply bind_Some in Hret as (p1 & Hp1 & Hret).
  apply bind_Some in Hret as (p2 & Hp2 & Hret).
  apply bind_Some in Hret as (u & _ & Hret).
  apply bind_Some in Hret as ([[label align] ref] & Hread & Hret).
  apply bind_Some in Hret as (group & Hgroup & Hret).
  apply bind_Some in Hret as (kept' & Hkept & Hret).
  apply bind_Some in Hret as (vol & Hvol & Hret).
  apply bind_Some in Hret as (angs & _ & Hret). injection Hret as ->.
  destruct label as [filename rows|entries]; [|discriminate].
  exists p1, p2, filename, rows, align, ref, group. auto.
Qed.

(** X9.  Whenever [init_root] returns, the alignment file gave tuple
    labels (per-particle labels do not get through [reconstruct_volume]).
    If no single view is requested and there is one label per element of
    [ref], each view of more than 20 particles is handed on once and no
    other: the identifiers handed on are pairwise distinct and are the
    values with more than 20 occurrences in [ref]; the views come with the
    largest first; and together they hold no more particles than were
    read. *)
Theorem init_root_default_views (param : params) (kept : list view) :
  init_root param = Some kept ->
  exists p1 p2 filename rows align ref,
    spider_params_read param = Some p1
    /\ resolve_order p1 = Some p2
    /\ read_alignment p2 = Some (Grouped filename rows, align, ref)
    /\ (param_single_view p2 <= 0 -> length rows = length ref ->
        NoDup ((fun g : view => g.1.1) <$> kept)
        /\ (forall r, r ∈ (fun g : view => g.1.1) <$> kept
                      <-> r ∈ ref /\ (20 < view_size r ref)%nat)
        /\ Forall (fun g : view => label_count g.1.2 = view_size g.1.1 ref) kept
        /\ StronglySorted
             (fun g h : view => (label_count h.1.2 <= label_count g.1.2)%nat) kept
        /\ (sum_list ((fun g : view => label_count g.1.2) <$> kept)
            <= length ref)%nat).
Proof.
  intros Hret.
  destruct (init_root_Some param kept Hret)
    as (p1 & p2 & filename & rows & align & ref & group
        & Hp1 & Hp2 & Hread & Hg & Hsel).
  exists p1, p2, filename, rows, align, ref.
  split; [exact Hp1|]. split; [exact Hp2|]. split; [exact Hread|].
  intros Hsv Hlen.
  destruct (select_views_default (param_single_view p2) group Hsv)
    as (kept' & Hkept & Hperm & Hsorted).
  rewrite Hsel in Hkept. injection Hkept as <-.
  destruct (group_by_reference_counts _ _ _ _ Hg Hlen) as (Hids & Hcounts & Hview).
  assert (forall g : view, g ∈ kept <-> g ∈ group /\ (20 < label_count g.1.2)%nat)
    as Hmem.
  { intros g. rewrite Hperm, list_elem_of_filter. tauto. }
  split; [|split; [|split; [|split; [exact Hsorted|]]]].
  - rewrite Hperm. apply (sublist_NoDup _ ((fun g : view => g.1.1) <$> group)).
    + rewrite Hids. apply StronglySorted_lt_NoDup, np_unique_sorted.
    + apply fmap_sublist, sublist_filter.
  - intros r. rewrite list_elem_of_fmap. split.
    + intros (g & -> & Hin). apply Hmem in Hin as [Hin Hbig].
      destruct (Hview g Hin) as [Href Hsize]. rewrite <- Hsize. auto.
    + intros [Href Hbig]. apply elem_of_np_unique in Href.
      rewrite <- Hids in Href. apply list_elem_of_fmap in Href as (g & -> & Hin).
      exists g. split; [reflexivity|]. apply Hmem. split; [exact Hin|].
      now rewrite (proj2 (Hview g Hin)).
  - apply Forall_forall. intros g Hin. apply Hmem in Hin as [Hin _].
    apply (Hview g Hin).
  - rewrite Hperm, <- (view_sizes_total ref), <- Hcounts.
    apply sum_list_filter_le.
Qed.

(** X10.  A requested single view is a position, not an identifier: a
    call of [init_root] with [single_view = k > 0] that returns hands on
    the one view of the [k]-th smallest distinct value of [ref], whatever
    its size; and the call raises when [ref] has fewer than [k] distinct
    values. *)
Theorem init_root_single_view (param : params) :
  (forall kept, init_root param = Some kept ->
     exists p1 p2 filename rows align ref,
       spider_params_read param = Some p1
       /\ resolve_order p1 = Some p2
       /\ read_alignment p2 = Some (Grouped filename rows, align, ref)
       /\ (0 < param_single_view p2 ->
           exists g : view,
             kept = [g]
             /\ np_unique ref !! Z.to_nat (param_single_view p2 - 1) = Some g.1.1
             /\ g.1.2 = select_labels (view_mask g.1.1 ref) (Grouped filename rows)
             /\ g.2 = mask_select (view_mask g.1.1 ref) align))
  /\ (forall p1 p2 label align ref,
        spider_params_read param = Some p1 ->
        resolve_order p1 = Some p2 ->
        read_alignment p2 = Some (label, align, ref) ->
        Z.of_nat (length (np_unique ref)) < param_single_view p2 ->
        init_root param = None).
Proof.
  split.
  - intros kept Hret.
    destruct (init_root_Some param kept Hret)
      as (p1 & p2 & filename & rows & align & ref & group
          & Hp1 & Hp2 & Hread & Hg & Hsel).
    exists p1, p2, filename, rows, align, ref.
    split; [exact Hp1|]. split; [exact Hp2|]. split; [exact Hread|].
    intros Hsv. unfold select_views in Hsel.
    destruct (Z.ltb_spec 0 (param_single_view p2)) as [_|?]; [|lia].
    apply bind_Some in Hsel as (g & Hlook & Hsel). injection Hsel as <-.
    apply group_by_reference_views in Hg. subst group.
    rewrite list_lookup_fmap in Hlook.
    destruct (np_unique ref !! Z.to_nat (param_single_view p2 - 1)) as [r|] eqn:Hr;
      [|discriminate].
    injection Hlook as <-. exists (r, select_labels (view_mask r ref)
                                        (Grouped filename rows),
                                   mask_select (view_mask r ref) align).
    cbn [fst snd]. auto.
  - intros p1 p2 label align ref Hp1 Hp2 Hread Hfew.
    unfold init_root. rewrite Hp1. cbn [mbind option_bind]. rewrite Hp2.
    cbn [mbind option_bind].
    destruct (log_parameters p2); [|reflexivity]. cbn [mbind option_bind].
    rewrite Hread. cbn [mbind option_bind].
    destruct (group_by_reference label align ref) as [group|] eqn:Hg;
      [|reflexivity].
    cbn [mbind option_bind]. apply group_by_reference_views in Hg. subst group.
    unfold select_views.
    destruct (Z.ltb_spec 0 (param_single_view p2)) as [_|?]; [|lia].
    rewrite list_lookup_fmap, lookup_ge_None_2 by lia. reflexivity.
Qed.

End InitRootProps.

(** Tuple labels with views of 25, 3 and 22 particles. *)
Lemma init_root_default_views_witness :
  exists kept,
    @init_root RefHealpix.healpix
       (RefFiles.reading (SampleExt.crowd, SampleExt.crowd_align, SampleExt.crowd_ref))
       (RefFiles.settings 0) = Some kept
    /\ NoDup ((fun g : view => g.1.1) <$> kept)
    /\ (9 ∈ (fun g : view => g.1.1) <$> kept
        <-> 9 ∈ SampleExt.crowd_ref /\ (20 < view_size 9 SampleExt.crowd_ref)%nat)
    /\ (sum_list ((fun g : view => label_count g.1.2) <$> kept) <= 50)%nat.
Proof.
  assert (is_Some (@init_root RefHealpix.healpix
            (RefFiles.reading (SampleExt.crowd, SampleExt.crowd_align,
                               SampleExt.crowd_ref))
            (RefFiles.settings 0))) as [kept Hkept] by (vm_compute; eauto).
  destruct (@init_root_default_views RefHealpix.healpix
              (RefFiles.reading (SampleExt.crowd, SampleExt.crowd_align,
                                 SampleExt.crowd_ref))
              (RefFiles.settings 0) kept Hkept)
    as (p1 & p2 & filename & rows & align & ref & Hp1 & Hp2 & Hread & Hthm).
  cbn in Hp1. injection Hp1 as <-. cbn in Hp2. injection Hp2 as <-.
  cbn in Hread. injection Hread as <- <- <- <-.
  destruct (Hthm ltac:(simpl; lia) eq_refl) as (Hnd & Hmem & _ & _ & Hsum).
  exists kept. split; [exact Hkept|]. split; [exact Hnd|].
  split; [exact (Hmem 9) | exact Hsum].
Defined.

(** The second of the views 1, 2 and 3; a fourth there is not. *)
Lemma init_root_single_view_witness :
  (exists g : view,
     @init_root RefHealpix.healpix
        (RefFiles.reading (SampleExt.tilt, SampleExt.tilt_align, SampleExt.tilt_ref))
        (RefFiles.settings 2) = Some [g]
     /\ np_unique SampleExt.tilt_ref !! 1%nat = Some g.1.1)
  /\ @init_root RefHealpix.healpix
        (RefFiles.reading (SampleExt.tilt, SampleExt.tilt_align, SampleExt.tilt_ref))
        (RefFiles.settings 4) = None.
Proof.
  split.
  - assert (is_Some (@init_root RefHealpix.healpix
              (RefFiles.reading (SampleExt.tilt, SampleExt.tilt_align,
                                 SampleExt.tilt_ref))
              (RefFiles.settings 2))) as [kept Hkept] by (vm_compute; eauto).
    destruct (proj1 (@init_root_single_view RefHealpix.healpix
                (RefFiles.reading (SampleExt.tilt, SampleExt.tilt_align,
                                   SampleExt.tilt_ref))
                (RefFiles.settings 2)) kept Hkept)
      as (p1 & p2 & filename & rows & align & ref & Hp1 & Hp2 & Hread & Hthm).
    cbn in Hp1. injection Hp1 as <-. cbn in Hp2. injection Hp2 as <-.
    cbn in Hread. injection Hread as <- <- <- <-.
    destruct (Hthm ltac:(simpl; lia)) as (g & -> & Hid & _).
    exists g. split; [exact Hkept | exact Hid].
  - apply (proj2 (@init_root_single_view RefHealpix.healpix
              (RefFiles.reading (SampleExt.tilt, SampleExt.tilt_align,
                                 SampleExt.tilt_ref))
              (RefFiles.settings 4))
             (RefFiles.settings 4) (RefFiles.settings 4)
             SampleExt.tilt SampleExt.tilt_align SampleExt.tilt_ref
             eq_refl eq_refl eq_refl).
    vm_compute. reflexivity.
Defined.

(** ** decimation_level *)

Lemma Qsgn_zero q : Qsgn q = 0 <-> (q == 0)%Q.
Proof.
  unfold Qsgn, Qeq. simpl. rewrite Z.mul_1_r. apply Z.sgn_null_iff.
Qed.

Lemma feq_div x y a b :
  feq x a -> feq y b -> ~ (b == 0)%Q -> feq (fdiv x y) (a / b)%Q.
Proof.
  intros (a' & -> & Ha) (b' & -> & Hb) Hnz. cbn [fdiv].
  destruct (Z.eqb_spec (Qsgn b') 0) as [E|_].
  - apply Qsgn_zero in E. rewrite Hb in E. contradiction.
  - eexists. split; [reflexivity|]. rewrite Qred_correct, Ha, Hb. apply Qeq_refl.
Qed.

Lemma py_truediv_feq x y b :
  feq y b -> py_truediv x y = if Qeq_bool b 0 then None else Some (fdiv x y).
Proof.
  intros (b' & -> & Hb). unfold py_truediv.
  destruct (Z.eqb_spec (Qsgn b') 0) as [E|E]; rewrite Qsgn_zero, Hb in E.
  - now rewrite (proj2 (Qeq_bool_iff b 0) E).
  - destruct (Qeq_bool b 0) eqn:Hq; [|reflexivity].
    apply Qeq_bool_iff in Hq. contradiction.
Qed.

(** The clamp [min(max(d, 1), 8)] on any float. *)
Lemma clamp_range d :
  let r := py_min (py_max d (of_Z 1)) (of_Z 8) in
  isnan r = isnan d
  /\ (isnan d = false -> fleb (of_Z 1) r = true /\ fleb r (of_Z 8) = true).
Proof.
  destruct d as [q| | |]; cbn zeta; try (vm_compute; auto; fail).
  unfold py_max, py_min, fgtb, of_Z.
  destruct (fltb (Fin q) (Fin (inject_Z 1))) eqn:H1.
  - vm_compute. auto.
  - destruct (fltb (Fin (inject_Z 8)) (Fin q)) eqn:H8.
    + vm_compute. auto.
    + split; [reflexivity|]. intros _. split; apply fltb_false_fleb; auto.
Qed.

Section DecimationLevel.

Context `{Healpix}.

Lemma resolution_from_order_id apix pixel_diameter order resolution :
  resolution_from_order apix pixel_diameter order resolution = resolution.
Proof. unfold resolution_from_order. now rewrite orb_true_r. Qed.

(** The three divisions of [decimation_level] on finite arguments. *)
Lemma decimation_level_finite (a res : Q) (window pixel_diameter order : Z) :
  ((a == 0 \/ res == 0 \/ 3 * a * inject_Z window + 10 * res == 0)%Q ->
   decimation_level (Fin a) window pixel_diameter order (Fin res) = None)
  /\ (~ (a == 0)%Q -> ~ (res == 0)%Q ->
      ~ (3 * a * inject_Z window + 10 * res == 0)%Q ->
      exists d,
        feq d (decimation_ratio a res window)
        /\ decimation_level (Fin a) window pixel_diameter order (Fin res)
           = Some (py_min (py_max d (of_Z 1)) (of_Z 8))).
Proof.
  unfold decimation_level. rewrite resolution_from_order_id. cbv zeta.
  assert (feq (fmul (Fin a) (of_Z 3)) (a * 3)) as H3
    by (apply feq_mul; apply feq_Fin).
  rewrite (py_truediv_feq _ _ _ H3).
  destruct (Qeq_bool (a * 3) 0) eqn:Ea.
  { apply Qeq_bool_iff in Ea.
    assert (a == 0)%Q as Ha0
      by (destruct (Qmult_integral _ _ Ea) as [E|E]; [exact E | discriminate E]).
    split; [reflexivity|]. intros Hc. contradiction. }
  apply Qeq_bool_neq in Ea.
  assert (~ (a == 0)%Q) as Ha by (intros E; apply Ea; rewrite E; reflexivity).
  cbn [mbind option_bind].
  assert (feq (fdiv (Fin res) (fmul (Fin a) (of_Z 3))) (res / (a * 3))) as Hdec
    by (apply feq_div; [apply feq_Fin | exact H3 | exact Ea]).
  rewrite (py_truediv_feq _ _ _ Hdec).
  destruct (Qeq_bool (res / (a * 3)) 0) eqn:Er.
  { apply Qeq_bool_iff in Er.
    assert (res == 0)%Q as Hr0.
    { assert (res == res / (a * 3) * (a * 3))%Q as E by (field; repeat split; assumption).
      rewrite E, Er. ring. }
    split; [reflexivity|]. intros _ Hc. contradiction. }
  apply Qeq_bool_neq in Er.
  assert (~ (res == 0)%Q) as Hres.
  { intros E. apply Er. rewrite E. field. repeat split; assumption. }
  cbn [mbind option_bind].
  assert (feq (fadd (fdiv (of_Z window) (fdiv (Fin res) (fmul (Fin a) (of_Z 3))))
                    (of_Z 10))
              (inject_Z window / (res / (a * 3)) + 10)) as Hd.
  { apply feq_add; [|apply feq_Fin].
    apply feq_div; [apply feq_Fin | exact Hdec | exact Er]. }
  rewrite (py_truediv_feq _ _ _ Hd).
  assert (inject_Z window / (res / (a * 3)) + 10
          == (3 * a * inject_Z window + 10 * res) / res)%Q as Hsum.
  { field. repeat split; assumption. }
  destruct (Qeq_bool (inject_Z window / (res / (a * 3)) + 10) 0) eqn:Ed.
  { apply Qeq_bool_iff in Ed. rewrite Hsum in Ed.
    assert (3 * a * inject_Z window + 10 * res == 0)%Q as HD0.
    { assert (3 * a * inject_Z window + 10 * res
              == (3 * a * inject_Z window + 10 * res) / res * res)%Q as E
        by (field; repeat split; assumption).
      rewrite E, Ed. ring. }
    split; [reflexivity|]. intros _ _ Hc. contradiction. }
  apply Qeq_bool_neq in Ed. split.
  - intros [Hc|[Hc|Hc]]; try contradiction.
    exfalso. apply Ed. rewrite Hsum, Hc. field. repeat split; assumption.
  - intros _ _ HD. eexists. split; [|reflexivity].
    eapply feq_Qeq; [apply feq_div; [apply feq_Fin | exact Hd | exact Ed]|].
    unfold decimation_ratio. rewrite Hsum. field. repeat split; assumption.
Qed.

Lemma clamp_feq d rho :
  feq d rho ->
  exists q,
    py_min (py_max d (of_Z 1)) (of_Z 8) = Fin q
    /\ (1 <= q <= 8)%Q
    /\ (rho < 1 -> q == 1)%Q
    /\ (8 < rho -> q == 8)%Q
    /\ (1 <= rho <= 8 -> q == rho)%Q.
Proof.
  intros (q' & -> & Hq). unfold py_max, py_min, fgtb, of_Z.
  destruct (fltb (Fin q') (Fin (inject_Z 1))) eqn:H1.
  - apply fltb_Fin in H1. exists (inject_Z 1). split; [reflexivity|].
    rewrite Hq in H1. change (inject_Z 1) with 1%Q in *.
    repeat split; intros; lra.
  - assert (1 <= q')%Q as H1'.
    { apply fleb_Fin. now apply fltb_false_fleb. }
    destruct (fltb (Fin (inject_Z 8)) (Fin q')) eqn:H8.
    + apply fltb_Fin in H8. exists (inject_Z 8). split; [reflexivity|].
      rewrite Hq in H8. change (inject_Z 8) with 8%Q in *.
      repeat split; intros; lra.
    + assert (q' <= 8)%Q as H8'.
      { apply fleb_Fin. now apply fltb_false_fleb. }
      exists q'. split; [reflexivity|]. rewrite Hq in *.
      repeat split; intros; lra.
Qed.

(** X11.  The angular order never enters: [resolution_from_order] returns
    the resolution it was given, for every order and mask diameter, and so
    [decimation_level] depends on the pixel size, the window and the
    resolution only. *)
Theorem decimation_level_ignores_order (apix resolution : float64)
    (window pixel_diameter pixel_diameter' order order' : Z) :
  resolution_from_order apix pixel_diameter order resolution = resolution
  /\ decimation_level apix window pixel_diameter order resolution
     = decimation_level apix window pixel_diameter' order' resolution.
Proof.
  split; [apply resolution_from_order_id|].
  unfold decimation_level. now rewrite !resolution_from_order_id.
Qed.

(** X12.  Whatever the arguments, a factor that [decimation_level] returns
    is nan or lies between 1 and 8; for finite pixel size and resolution
    it is finite. *)
Theorem decimation_level_range (apix resolution r : float64)
    (window pixel_diameter order : Z) :
  decimation_level apix window pixel_diameter order resolution = Some r ->
  (isnan r = false -> fleb (of_Z 1) r = true /\ fleb r (of_Z 8) = true)
  /\ (isfinite apix = true -> isfinite resolution = true -> isfinite r = true).
Proof.
  intros Hret. split.
  - unfold decimation_level in Hret. cbv zeta in Hret.
    apply bind_Some in Hret as (dec & _ & Hret).
    apply bind_Some in Hret as (d1 & _ & Hret).
    apply bind_Some in Hret as (d & _ & Hret). injection Hret as <-.
    intros Hnan. destruct (clamp_range d) as [Hsame Hrange]. cbv zeta in *.
    apply Hrange. now rewrite <- Hsame.
  - intros Ha Hres. destruct apix as [a| | |]; try discriminate.
    destruct resolution as [res| | |]; try discriminate.
    destruct (decimation_level_finite a res window pixel_diameter order)
      as [Hnone Hsome].
    destruct (Qeq_dec a 0) as [E|Ea]; [rewrite Hnone in Hret by auto; discriminate|].
    destruct (Qeq_dec res 0) as [E|Er]; [rewrite Hnone in Hret by auto; discriminate|].
    destruct (Qeq_dec (3 * a * inject_Z window + 10 * res) 0) as [E|ED];
      [rewrite Hnone in Hret by auto; discriminate|].
    destruct (Hsome Ea Er ED) as (d & Hd & Heq). rewrite Heq in Hret.
    injection Hret as <-. destruct (clamp_feq _ _ Hd) as (q & -> & _). reflexivity.
Qed.

(** X13.  For a finite pixel size [a], resolution [res] and window [w],
    [decimation_level] raises exactly when [a = 0], [res = 0] or
    [3 a w + 10 res = 0]; otherwise it returns
    [w res / (3 a w + 10 res)] clamped to the range from 1 to 8. *)
Theorem decimation_level_closed_form (a res : Q)
    (window pixel_diameter order : Z) :
  (decimation_level (Fin a) window pixel_diameter order (Fin res) = None
   <-> (a == 0 \/ res == 0 \/ 3 * a * inject_Z window + 10 * res == 0)%Q)
  /\ forall r,
       decimation_level (Fin a) window pixel_diameter order (Fin res) = Some r ->
       exists q,
         r = Fin q
         /\ (decimation_ratio a res window < 1 -> q == 1)%Q
         /\ (8 < decimation_ratio a res window -> q == 8)%Q
         /\ (1 <= decimation_ratio a res window <= 8 ->
             q == decimation_ratio a res window)%Q.
Proof.
  destruct (decimation_level_finite a res window pixel_diameter order)
    as [Hnone Hsome].
  split.
  - split; [|exact Hnone]. intros Hret.
    destruct (Qeq_dec a 0) as [E|Ea]; [auto|].
    destruct (Qeq_dec res 0) as [E|Er]; [auto|].
    destruct (Qeq_dec (3 * a * inject_Z window + 10 * res) 0) as [E|ED]; [auto|].
    destruct (Hsome Ea Er ED) as (d & _ & Heq). rewrite Heq in Hret. discriminate.
  - intros r Hret.
    destruct (Qeq_dec a 0) as [E|Ea]; [rewrite Hnone in Hret by auto; discriminate|].
    destruct (Qeq_dec res 0) as [E|Er]; [rewrite Hnone in Hret by auto; discriminate|].
    destruct (Qeq_dec (3 * a * inject_Z window + 10 * res) 0) as [E|ED];
      [rewrite Hnone in Hret by auto; discriminate|].
    destruct (Hsome Ea Er ED) as (d & Hd & Heq). rewrite Heq in Hret.
    injection Hret as <-. destruct (clamp_feq _ _ Hd) as (q & -> & _ & Hq).
    exists q. split; [reflexivity | exact Hq].
Qed.

Lemma decimation_ratio_bounds (a res : Q) (window : Z) :
  (0 < a)%Q -> (0 < res)%Q -> 0 < window ->
  (0 < 3 * a * inject_Z window + 10 * res
   /\ 0 < decimation_ratio a res window
   /\ 10 * decimation_ratio a res window < inject_Z window
   /\ 3 * a * decimation_ratio a res window < res)%Q.
Proof.
  intros Ha Hres Hw.
  assert (0 < inject_Z window)%Q as Hw'.
  { change 0%Q with (inject_Z 0). rewrite <- Zlt_Qlt. exact Hw. }
  set (w := inject_Z window) in *.
  assert (0 < 3 * a * w + 10 * res)%Q as HD by nra.
  split; [exact HD|]. unfold decimation_ratio. fold w.
  set (D := (3 * a * w + 10 * res)%Q) in *.
  assert (~ D == 0)%Q as HD0 by lra.
  assert (0 < / D)%Q as Hinv by (now apply Qinv_lt_0_compat).
  assert (w * res / D * D == w * res)%Q as Hmul by (field; exact HD0).
  assert (0 < w * res)%Q as Hnum by nra.
  assert (0 < w * res / D)%Q as Hpos.
  { unfold Qdiv. nra. }
  split; [exact Hpos|].
  set (d := (w * res / D)%Q) in *.
  assert (0 < a * w)%Q as Haw by (apply Qmult_lt_0_compat; assumption).
  assert (0 < a * w * w)%Q as Haww by (apply Qmult_lt_0_compat; assumption).
  assert (0 < a * w * res)%Q as Hawr by (apply Qmult_lt_0_compat; assumption).
  split.
  - apply (Qmult_lt_r _ _ D HD).
    assert (10 * d * D == 10 * (w * res))%Q as E by (rewrite <- Hmul; ring).
    rewrite E. unfold D. lra.
  - apply (Qmult_lt_r _ _ D HD).
    assert (3 * a * d * D == 3 * a * (w * res))%Q as E by (rewrite <- Hmul; ring).
    assert (0 < res * res)%Q as Hrr by (apply Qmult_lt_0_compat; assumption).
    rewrite E. unfold D. lra.
Qed.

(** X14.  In exact arithmetic (the rounding of float64 is not modelled):
    for a positive pixel size, resolution and window, [decimation_level]
    returns a finite factor from 1 to 8; the factor is 1 for a window of
    at most 10 pixels or a resolution of at most three pixels; a factor
    above 1 exceeds neither a tenth of the window nor the resolution in
    units of three pixels; and the full factor 8 takes a window of at
    least 80 pixels and a resolution of at least 24 pixels. *)
Theorem decimation_level_positive (a res : Q) (window pixel_diameter order : Z) :
  (0 < a)%Q -> (0 < res)%Q -> 0 < window ->
  exists q,
    decimation_level (Fin a) window pixel_diameter order (Fin res) = Some (Fin q)
    /\ (1 <= q <= 8)%Q
    /\ (window <= 10 \/ (res <= 3 * a)%Q -> (q == 1)%Q)
    /\ ((1 < q)%Q -> (10 * q <= inject_Z window /\ 3 * a * q <= res)%Q)
    /\ ((q == 8)%Q -> 80 <= window /\ (24 * a <= res)%Q).
Proof.
  intros Ha Hres Hw.
  destruct (decimation_ratio_bounds a res window Ha Hres Hw)
    as (HD & Hpos & Hten & Hthree).
  destruct (proj2 (decimation_level_finite a res window pixel_diameter order))
    as (d & Hd & Heq); try lra.
  destruct (clamp_feq _ _ Hd) as (q & Hq & Hrange & Hlow & Hhigh & Hmid).
  rewrite Hq in Heq. exists q. split; [exact Heq|]. split; [exact Hrange|].
  set (rho := decimation_ratio a res window) in *.
  assert (q == 1 \/ q <= rho)%Q as Hle.
  { destruct (Qlt_le_dec rho 1) as [Hl|Hl]; [left; auto|]. right.
    destruct (Qlt_le_dec 8 rho) as [Hh|Hh]; [rewrite (Hhigh Hh); lra|].
    rewrite Hmid by lra. lra. }
  assert (inject_Z window <= 10 -> rho < 1)%Q as Hwin by (intros; lra).
  split; [|split].
  - intros [Hsmall|Hsmall]; apply Hlow.
    + apply Hwin. change 10%Q with (inject_Z 10). rewrite <- Zle_Qle. exact Hsmall.
    + nra.
  - intros Hq1. destruct Hle as [E|Hle]; [lra|]. split; [lra | nra].
  - intros Hq8. destruct Hle as [E|Hle]; [lra|]. split.
    + rewrite Zle_Qle. change (inject_Z 80) with 80%Q. lra.
    + nra.
Qed.

End DecimationLevel.

(** A pixel of 1.5 A, a window of 200 pixels and a resolution of 12 A:
    the factor is 40/17. *)
Lemma decimation_level_range_witness :
  exists r,
    @decimation_level RefHealpix.healpix (Fin (3 # 2)) 200 150 2 (of_Z 12) = Some r
    /\ fleb (of_Z 1) r = true /\ fleb r (of_Z 8) = true.
Proof.
  eexists. split; [vm_compute; reflexivity|].
  apply (proj1 (@decimation_level_range RefHealpix.healpix (Fin (3 # 2)) (of_Z 12)
                  _ 200 150 2 eq_refl)).
  reflexivity.
Defined.

(** A window of 8 pixels is not decimated. *)
Lemma decimation_level_positive_witness :
  exists q,
    @decimation_level RefHealpix.healpix (Fin (3 # 2)) 8 150 2 (Fin 12)
    = Some (Fin q)
    /\ (q == 1)%Q.
Proof.
  destruct (@decimation_level_positive RefHealpix.healpix (3 # 2) 12 8 150 2)
    as (q & Hq & _ & Hone & _); [reflexivity | reflexivity | lia |].
  exists q. split; [exact Hq|]. apply Hone. left. lia.
Defined.

(** ** pca: the number of components asked for, and a nan *)

Section PCAModes.

Context `{NumPy} `{SciPy}.

Lemma pca_rank_count frac d t n p :
  fleb (of_Z 1) frac = true -> pca_rank frac d t n p = py_int frac.
Proof. intros Hge. unfold pca_rank. now rewrite Hge. Qed.

Lemma py_int_ge_one frac k :
  fleb (of_Z 1) frac = true -> py_int frac = Some k -> 1 <= k.
Proof.
  destruct frac as [q| | |]; simpl; try discriminate.
  intros Hge [= <-]. apply Z.leb_le in Hge.
  apply Z.quot_le_lower_bound; simpl in *; lia.
Qed.

Lemma pca_rank_nan d t n p : pca_rank NaN d t n p = Some (Z.of_nat (length d)).
Proof. reflexivity. Qed.

(** X15.  A number of components [frac >= 1] is honoured only below the
    number of singular values: a call that returns has selected [int(frac)]
    when this is less than [len(d)], and 1 when all components or more are
    asked for.  With [frac = inf] the call raises. *)
Theorem pca_count_mode (trn : matrix) (tst : option matrix) :
  pca trn tst PInf = None
  /\ forall frac r,
       fleb (of_Z 1) frac = true ->
       pca trn tst frac = Some r ->
       exists U d V k,
         svd (centered trn) = Some (U, d, V)
         /\ py_int frac = Some k
         /\ 1 <= k
         /\ pca_idx r = (if k <? Z.of_nat (length d) then k else 1)
         /\ (2 <= length d)%nat.
Proof.
  split.
  - unfold pca. destruct (svd _) as [[[U d] V]|]; reflexivity.
  - intros frac r Hge Hret.
    destruct (pca_Some _ _ _ _ Hret)
      as (U & d & V & idx0 & Hsvd & Hrank & Hidx & _ & Hlt).
    rewrite pca_rank_count in Hrank by exact Hge.
    pose proof (py_int_ge_one _ _ Hge Hrank) as Hk.
    exists U, d, V, idx0. split; [exact Hsvd|]. split; [exact Hrank|].
    split; [exact Hk|]. rewrite Hidx in *. unfold pca_guard in *.
    destruct (Z.leb_spec (Z.of_nat (length d)) idx0);
      destruct (Z.ltb_spec idx0 (Z.of_nat (length d))); try lia.
    all: split; [reflexivity | lia].
Qed.

(** X16.  A nan for [frac] fails every test on [frac] and falls through to
    the last branch, like a negative value: a call that returns has
    selected rank 1. *)
Theorem pca_nan_frac_rank_one (trn : matrix) (tst : option matrix)
    (r : matrix * Z * matrix * float64) :
  pca trn tst NaN = Some r ->
  pca_idx r = 1 /\ (length (pca_basis r) <= 1)%nat.
Proof.
  intros Hret.
  destruct (pca_Some _ _ _ _ Hret) as (U & d & V & idx0 & _ & Hrank & Hidx & Hbasis & _).
  rewrite pca_rank_nan in Hrank. injection Hrank as <-.
  rewrite pca_guard_full in Hidx. split; [exact Hidx|].
  rewrite Hbasis, Hidx, length_take. lia.
Qed.

(** X17.  [_assess_dimension] starts from the score 0: it returns a rank
    below the number of candidates (0 when there is none), a rank other
    than 0 only when its score is finite and positive, and 0 whenever no
    finite score is positive, whatever the order of the scores. *)
Theorem assess_dimension_needs_positive_score (spectrum : list float64) (n p : Z) :
  let score := rank_loglik spectrum n p in
  let best := _assess_dimension spectrum n p in
  (best < Nat.max 1 (length spectrum))%nat
  /\ (best <> 0%nat ->
      isfinite (score best) = true /\ fltb (of_Z 0) (score best) = true)
  /\ ((forall k, (k < length spectrum)%nat -> isfinite (score k) = true ->
                 fleb (score k) (of_Z 0) = true) ->
      best = 0%nat).
Proof.
  intros score best.
  pose proof (assess_inv_fold score (length spectrum)) as Hinv.
  unfold best, _assess_dimension. fold score.
  destruct (fold_left (assess_step score) (seq 0 (length spectrum)) (of_Z 0, 0%nat))
    as [b r].
  destruct Hinv as [[[= -> ->] Hnone] | (Hr & Hb & Hbf & Hbp & Hmax & Hfirst)];
    cbn [fst snd] in *.
  - split; [lia|]. split; [congruence | reflexivity].
  - split; [lia|]. split.
    + intros _. rewrite <- Hb. split; assumption.
    + intros Hneg. exfalso. specialize (Hneg r Hr). rewrite <- Hb in Hneg.
      specialize (Hneg Hbf).
      pose proof (fltb_fleb_trans _ _ _ Hbp Hneg) as Hc.
      vm_compute in Hc. discriminate.
Qed.

End PCAModes.

Section ConcreteModes.

Import Ref.

(** Of the three components of a 4 x 3 matrix, two can be asked for; asking
    for all three gives one. *)
Lemma pca_count_mode_witness :
  pca_idx <$> pca gentle None (of_Z 2) = Some 2
  /\ exists r U d V k,
       pca gentle None (of_Z 3) = Some r
       /\ svd (centered gentle) = Some (U, d, V)
       /\ py_int (of_Z 3) = Some k
       /\ pca_idx r = (if k <? Z.of_nat (length d) then k else 1).
Proof.
  split; [vm_compute; reflexivity|].
  assert (is_Some (pca gentle None (of_Z 3))) as [r Hr] by (vm_compute; eauto).
  destruct (proj2 (@pca_count_mode numpy scipy gentle None) (of_Z 3) r eq_refl Hr)
    as (U & d & V & k & Hsvd & Hk & _ & Hidx & _).
  exists r, U, d, V, k. auto.
Defined.

(** A nan on the same matrix. *)
Lemma pca_nan_frac_rank_one_witness :
  exists r, pca gentle None NaN = Some r /\ pca_idx r = 1.
Proof.
  assert (is_Some (pca gentle None NaN)) as [r Hr] by (vm_compute; eauto).
  exists r. split; [exact Hr|].
  exact (proj1 (@pca_nan_frac_rank_one numpy scipy gentle None r Hr)).
Defined.

End ConcreteModes.

(** ** threshold_from_total and threshold_max *)

Lemma count_true_app l k : count_true (l ++ k) = (count_true l + count_true k)%nat.
Proof. induction l as [|b l IH]; [reflexivity|]. cbn [app count_true]. lia. Qed.

Lemma count_true_perm {A} (f : A -> bool) l k :
  l ≡ₚ k -> count_true (f <$> l) = count_true (f <$> k).
Proof.
  induction 1 as [|x l k _ IH|x y l|l k m _ IH1 _ IH2]; rewrite ?fmap_cons;
    cbn [count_true]; lia.
Qed.

Lemma count_true_all {A} (f : A -> bool) l :
  (forall x, x ∈ l -> f x = true) -> count_true (f <$> l) = length l.
Proof.
  induction l as [|x l IH]; intros Hall; [reflexivity|].
  rewrite fmap_cons. cbn [count_true length].
  rewrite (Hall x) by apply list_elem_of_here.
  rewrite IH; [lia|]. intros y Hy. apply Hall. now apply list_elem_of_further.
Qed.

Lemma count_true_none {A} (f : A -> bool) l :
  (forall x, x ∈ l -> f x = false) -> count_true (f <$> l) = 0%nat.
Proof.
  induction l as [|x l IH]; intros Hall; [reflexivity|].
  rewrite fmap_cons. cbn [count_true].
  rewrite (Hall x) by apply list_elem_of_here.
  rewrite IH; [lia|]. intros y Hy. apply Hall. now apply list_elem_of_further.
Qed.

Lemma fmap_nth_seq {A} (d : A) (l : list A) :
  (fun j => nth j l d) <$> seq 0 (length l) = l.
Proof.
  apply list_eq. intros i. rewrite list_lookup_fmap.
  destruct (l !! i) as [x|] eqn:Hx.
  - rewrite lookup_seq_lt by (eapply lookup_lt_Some; eassumption).
    cbn [fmap option_fmap option_map Nat.add]. f_equal.
    now apply nth_lookup_Some with (d := d) in Hx.
  - rewrite lookup_seq_ge by (now apply lookup_ge_None). reflexivity.
Qed.

(** Counting over the elements is counting over any arrangement of the
    positions. *)
Lemma count_by_position (p : float64 -> bool) (data : list float64) (s : list nat) :
  s ≡ₚ seq 0 (length data) ->
  count_true (p <$> data) = count_true ((fun j => p (nth j data NaN)) <$> s).
Proof.
  intros Hs. rewrite (count_true_perm _ _ _ Hs).
  rewrite <- (fmap_nth_seq NaN data) at 1. now rewrite <- list_fmap_compose.
Qed.

(** In a sorted arrangement, what fails at position [t] and beyond leaves
    at most [t] hits; what holds up to position [t] gives more than [t]. *)
Lemma sorted_position_le (R : relation nat) (q : nat -> bool) s t i :
  StronglySorted R s -> s !! t = Some i ->
  q i = false -> (forall j, R i j -> q j = false) ->
  (count_true (q <$> s) <= t)%nat.
Proof.
  intros Hs Hi Hqi Hq. rewrite <- (take_drop_middle _ _ _ Hi) in Hs |- *.
  apply StronglySorted_app in Hs as (_ & _ & Hs).
  apply StronglySorted_cons in Hs as [Hrest _].
  rewrite fmap_app, count_true_app, fmap_cons. cbn [count_true]. rewrite Hqi.
  rewrite (count_true_none q (drop (S t) s)).
  - pose proof (count_true_le_length (q <$> take t s)) as Hle.
    rewrite length_fmap, length_take in Hle. lia.
  - intros j Hj. apply Hq. rewrite Forall_forall in Hrest. now apply Hrest.
Qed.

Lemma sorted_position_gt (R : relation nat) (q : nat -> bool) s t i :
  StronglySorted R s -> s !! t = Some i ->
  q i = true -> (forall j, R j i -> q j = true) ->
  (t < count_true (q <$> s))%nat.
Proof.
  intros Hs Hi Hqi Hq. pose proof (lookup_lt_Some _ _ _ Hi) as Hlt.
  rewrite <- (take_drop_middle _ _ _ Hi) in Hs |- *.
  apply StronglySorted_app in Hs as (Hcross & _ & _).
  rewrite fmap_app, count_true_app, fmap_cons. cbn [count_true]. rewrite Hqi.
  rewrite (count_true_all q (take t s)).
  - rewrite length_take. lia.
  - intros j Hj. apply Hq. apply Hcross; [exact Hj | apply list_elem_of_here].
Qed.

Lemma fleb_not_fltb x y : fleb y x = true -> fltb x y = false.
Proof.
  destruct x as [a| | |], y as [b| | |]; simpl; try discriminate; try reflexivity.
  intros Hle. apply Z.leb_le in Hle. apply Z.ltb_ge. lia.
Qed.

Lemma fltb_irrefl x : fltb x x = false.
Proof. destruct x as [a| | |]; simpl; try reflexivity. apply Z.ltb_irrefl. Qed.

Lemma fleb_refl_not_nan x : isnan x = false -> fleb x x = true.
Proof. destruct x as [a| | |]; simpl; try discriminate; try reflexivity.
  intros _. apply Z.leb_refl. Qed.

Lemma py_index_nonneg {A} (l : list A) k : 0 <= k -> py_index l k = l !! Z.to_nat k.
Proof. intros Hk. unfold py_index. destruct (Z.leb_spec 0 k); [reflexivity | lia]. Qed.

Section ThresholdProps.

Context `{NumPySort} `{Binary64}.

(** [numpy.argsort] returns every position once ... *)
Hypothesis argsort_positions : forall data,
  np_argsort data ≡ₚ seq 0 (length data).

(** ... in ascending order of the values, when no value is nan. *)
Hypothesis argsort_ascending : forall data,
  Forall (fun x => isnan x = false) data ->
  StronglySorted (fun i j => fleb (nth i data NaN) (nth j data NaN) = true)
                 (np_argsort data).

Lemma selection_order_positions data rev :
  selection_order data rev ≡ₚ seq 0 (length data).
Proof.
  unfold selection_order. destruct rev; [|rewrite reverse_Permutation];
    apply argsort_positions.
Qed.

Lemma selection_order_sorted data (rev : bool) :
  Forall (fun x => isnan x = false) data ->
  StronglySorted
    (fun i j => (if rev then fleb (nth i data NaN) (nth j data NaN)
                 else fleb (nth j data NaN) (nth i data NaN)) = true)
    (selection_order data rev).
Proof.
  intros Hnan. unfold selection_order. destruct rev.
  - now apply argsort_ascending.
  - apply (StronglySorted_reverse
             (fun i j => fleb (nth i data NaN) (nth j data NaN) = true)).
    now apply argsort_ascending.
Qed.

(** The element at position [t] of the selection order. *)
Lemma selection_threshold data (rev : bool) t :
  0 <= t ->
  ((i ← py_index (selection_order data rev) t; data !! i) = None
   <-> (length data <= Z.to_nat t)%nat)
  /\ forall th,
       Forall (fun x => isnan x = false) data ->
       (i ← py_index (selection_order data rev) t; data !! i) = Some th ->
       th ∈ data
       /\ ((if rev then count_below th data else count_above th data)
           <= Z.to_nat t)%nat
       /\ (Z.to_nat t
           < (if rev then count_not_above th data else count_not_below th data))%nat.
Proof.
  intros Ht. rewrite py_index_nonneg by exact Ht.
  pose proof (selection_order_positions data rev) as Hperm.
  assert (length (selection_order data rev) = length data) as Hlen
    by (rewrite Hperm; apply length_seq).
  split.
  - destruct (selection_order data rev !! Z.to_nat t) as [i|] eqn:Hi.
    + cbn [mbind option_bind]. pose proof (lookup_lt_Some _ _ _ Hi) as Hlt.
      assert (i ∈ seq 0 (length data)) as Hin
        by (rewrite <- Hperm; eapply list_elem_of_lookup_2; exact Hi).
      apply elem_of_seq in Hin.
      destruct (lookup_lt_is_Some_2 data i ltac:(lia)) as [x Hx]. rewrite Hx.
      split; [discriminate | lia].
    + apply lookup_ge_None in Hi. split; [lia | reflexivity].
  - intros th Hnan Hret. apply bind_Some in Hret as (i & Hi & Hth).
    pose proof (selection_order_sorted data rev Hnan) as Hsorted.
    assert (nth i data NaN = th) as Hnth by (now apply nth_lookup_Some with (d := NaN)).
    assert (isnan th = false) as Hth_nan.
    { rewrite Forall_forall in Hnan. apply Hnan.
      eapply list_elem_of_lookup_2; exact Hth. }
    split; [eapply list_elem_of_lookup_2; exact Hth|].
    unfold count_below, count_above, count_not_above, count_not_below.
    destruct rev.
    + split.
      * rewrite (count_by_position _ data _ Hperm).
        eapply (sorted_position_le _ _ _ _ i Hsorted Hi).
        -- rewrite Hnth. apply fltb_irrefl.
        -- intros j Hj. rewrite Hnth in Hj. now apply fleb_not_fltb.
      * rewrite (count_by_position _ data _ Hperm).
        eapply (sorted_position_gt _ _ _ _ i Hsorted Hi).
        -- rewrite Hnth. now apply fleb_refl_not_nan.
        -- intros j Hj. now rewrite Hnth in Hj.
    + split.
      * rewrite (count_by_position _ data _ Hperm).
        eapply (sorted_position_le _ _ _ _ i Hsorted Hi).
        -- rewrite Hnth. apply fltb_irrefl.
        -- intros j Hj. rewrite Hnth in Hj. now apply fleb_not_fltb.
      * rewrite (count_by_position _ data _ Hperm).
        eapply (sorted_position_gt _ _ _ _ i Hsorted Hi).
        -- rewrite Hnth. now apply fleb_refl_not_nan.
        -- intros j Hj. now rewrite Hnth in Hj.
Qed.

Lemma total_position_int n k : 0 <= k -> total_position n (PyInt k) = Some k.
Proof.
  intros Hk. unfold total_position. destruct (Z.ltb_spec k 1); [|reflexivity].
  assert (k = 0) as -> by lia. reflexivity.
Qed.

(** X18.  [threshold_from_total] with an integer [total = k >= 0] raises
    exactly when [data] has no more than [k] elements; on data without nan
    it returns an element [th] of [data] that leaves at most [k] elements
    above it, and more than [k] not below it: the [(k+1)]-th largest.
    (Below and not above, the [(k+1)]-th smallest, with [reverse].) *)
Theorem threshold_from_total_keeps (data : list float64) (k : Z) (rev : bool) :
  0 <= k ->
  (threshold_from_total data (PyInt k) rev = None <-> Z.of_nat (length data) <= k)
  /\ forall th,
       Forall (fun x => isnan x = false) data ->
       threshold_from_total data (PyInt k) rev = Some th ->
       th ∈ data
       /\ Z.of_nat (if rev then count_below th data else count_above th data) <= k
       /\ k < Z.of_nat (if rev then count_not_above th data
                        else count_not_below th data).
Proof.
  intros Hk. unfold threshold_from_total.
  rewrite total_position_int by exact Hk. cbn [mbind option_bind].
  destruct (selection_threshold data rev k Hk) as [Hnone Hsome]. split.
  - rewrite Hnone. lia.
  - intros th Hnan Hret. destruct (Hsome th Hnan Hret) as (Hin & Hle & Hgt).
    split; [exact Hin|]. lia.
Qed.

Lemma total_position_fraction n (f p : Q) :
  (f < 1)%Q -> mul64 (Fin f) (of_Z n) = Fin p -> (0 <= p)%Q ->
  total_position n (PyFloat (Fin f)) = Some (Qfloor p)
  /\ 0 <= Qfloor p /\ (inject_Z (Qfloor p) <= p)%Q.
Proof.
  intros Hf1 Hp Hp0. unfold total_position.
  assert (fltb (Fin f) (of_Z 1) = true) as -> by (now apply fltb_Fin).
  rewrite Hp. cbn [py_int].
  assert (0 <= Qnum p) as Hnum by (unfold Qle in Hp0; simpl in Hp0; lia).
  rewrite Z.quot_div_nonneg by (try exact Hnum; apply Pos2Z.is_pos).
  assert (Qnum p / QDen p = Qfloor p) as -> by (destruct p; reflexivity).
  split; [reflexivity|]. split; [|apply Qfloor_le].
  change 0 with (Qfloor 0). now apply Qfloor_resp_le.
Qed.

(** X19.  With a float [total = f < 1], [threshold_from_total] takes the
    position [int(p)], where [p] is the float64 product
    [f * len(data)] as rounded by the hardware (here [p >= 0]): the call
    raises exactly when [int(p)] is not below [len(data)], and on data
    without nan a returned element leaves at most [int(p)] elements above
    it (below it with [reverse]), so no more than [p]. *)
Theorem threshold_from_total_fraction (data : list float64) (f p : Q)
    (rev : bool) :
  (f < 1)%Q ->
  mul64 (Fin f) (of_Z (Z.of_nat (length data))) = Fin p ->
  (0 <= p)%Q ->
  (threshold_from_total data (PyFloat (Fin f)) rev = None
   <-> Z.of_nat (length data) <= Qfloor p)
  /\ forall th,
       Forall (fun x => isnan x = false) data ->
       threshold_from_total data (PyFloat (Fin f)) rev = Some th ->
       th ∈ data
       /\ Z.of_nat (if rev then count_below th data else count_above th data)
          <= Qfloor p
       /\ Qfloor p < Z.of_nat (if rev then count_not_above th data
                               else count_not_below th data)
       /\ (inject_Z (Z.of_nat (if rev then count_below th data
                               else count_above th data)) <= p)%Q.
Proof.
  intros Hf1 Hp Hp0.
  destruct (total_position_fraction _ f p Hf1 Hp Hp0) as (Ht & Ht0 & Hle).
  unfold threshold_from_total. rewrite Ht. cbn [mbind option_bind].
  destruct (selection_threshold data rev (Qfloor p) Ht0) as [Hnone Hsome]. split.
  - rewrite Hnone. lia.
  - intros th Hnan Hret. destruct (Hsome th Hnan Hret) as (Hin & Hcount & Hgt).
    split; [exact Hin|]. split; [lia|]. split; [lia|].
    eapply Qle_trans; [|exact Hle]. rewrite <- Zle_Qle. lia.
Qed.

(** X20.  [threshold_max] keeps its promise whatever [numpy.searchsorted]
    answers on the descending array: for [max_num >= 0] and data without
    nan, a returned threshold is an element of [data] with at most
    [max_num] elements above it (below it with [reverse]); and the call
    does return when [max_num] is less than the number of elements. *)
Theorem threshold_max_bound (data : list float64) (threshold : float64)
    (max_num : Z) (rev : bool) :
  0 <= max_num ->
  (max_num < Z.of_nat (length data) ->
   is_Some (threshold_max data threshold max_num rev))
  /\ forall th,
       Forall (fun x => isnan x = false) data ->
       threshold_max data threshold max_num rev = Some th ->
       th ∈ data
       /\ Z.of_nat (if rev then count_below th data else count_above th data)
          <= max_num.
Proof.
  intros Hmax. unfold threshold_max. cbv zeta.
  pose proof (selection_order_positions data rev) as Hperm.
  assert (is_Some (mapM (fun i => data !! i) (selection_order data rev)))
    as [sorted Hsorted].
  { apply mapM_is_Some, Forall_forall. intros i Hi. rewrite Hperm in Hi.
    apply elem_of_seq in Hi. apply lookup_lt_is_Some_2. lia. }
  rewrite Hsorted. cbn [mbind option_bind].
  set (t := if max_num <? Z.of_nat (np_searchsorted sorted threshold)
            then max_num else Z.of_nat (np_searchsorted sorted threshold)).
  assert (0 <= t <= max_num) as Ht.
  { unfold t. destruct (Z.ltb_spec max_num (Z.of_nat (np_searchsorted sorted threshold))); lia. }
  destruct (selection_threshold data rev t (proj1 Ht)) as [Hnone Hsome]. split.
  - intros Hlt.
    destruct (i ← py_index (selection_order data rev) t; data !! i) as [th|] eqn:Hth;
      [eauto|].
    pose proof (proj1 Hnone eq_refl). lia.
  - intros th Hnan Hret. destruct (Hsome th Hnan Hret) as (Hin & Hle & _).
    split; [exact Hin | lia].
Qed.

End ThresholdProps.

(** ** The reference sort satisfies the facts used about numpy.argsort *)

Lemma fleb_trans x y z : fleb x y = true -> fleb y z = true -> fleb x z = true.
Proof.
  destruct x as [a| | |], y as [b| | |], z as [c| | |]; simpl; try discriminate;
    try reflexivity.
  intros Hab Hbc. apply (fleb_Fin a c).
  apply (fleb_Fin a b) in Hab. apply (fleb_Fin b c) in Hbc.
  eapply Qle_trans; eassumption.
Qed.

Lemma fleb_total x y :
  isnan x = false -> isnan y = false -> fleb x y = false -> fleb y x = true.
Proof.
  destruct x as [a| | |], y as [b| | |]; simpl; try discriminate; try reflexivity.
  intros _ _ Hab. apply Z.leb_gt in Hab. apply Z.leb_le. lia.
Qed.

Lemma nth_not_nan data i :
  Forall (fun x => isnan x = false) data -> (i < length data)%nat ->
  isnan (nth i data NaN) = false.
Proof.
  intros Hnan Hi. destruct (lookup_lt_is_Some_2 data i Hi) as [x Hx].
  rewrite (nth_lookup_Some _ _ NaN _ Hx). rewrite Forall_forall in Hnan.
  apply Hnan. eapply list_elem_of_lookup_2; exact Hx.
Qed.

Lemma refsort_insert_perm data i l : RefSort.insert_index data i l ≡ₚ i :: l.
Proof.
  induction l as [|j l IH]; cbn [RefSort.insert_index]; [reflexivity|].
  destruct (RefSort.before data i j); [reflexivity|].
  rewrite IH. apply Permutation_swap.
Qed.

Lemma refsort_insert_sorted data i l :
  Forall (fun x => isnan x = false) data ->
  (i < length data)%nat -> Forall (fun j => (j < length data)%nat) l ->
  StronglySorted (fun i j => fleb (nth i data NaN) (nth j data NaN) = true) l ->
  StronglySorted (fun i j => fleb (nth i data NaN) (nth j data NaN) = true)
                 (RefSort.insert_index data i l).
Proof.
  intros Hnan Hi Hvalid Hs. induction Hs as [|j l Hs IH Hj];
    cbn [RefSort.insert_index].
  - repeat constructor.
  - apply Forall_cons in Hvalid as [Hjv Hvalid].
    pose proof (nth_not_nan data i Hnan Hi) as Hni.
    pose proof (nth_not_nan data j Hnan Hjv) as Hnj.
    unfold RefSort.before. rewrite Hni, Hnj. cbn [orb andb negb].
    destruct (fleb (nth i data NaN) (nth j data NaN)) eqn:Hij.
    + constructor; [now constructor|]. constructor; [exact Hij|].
      eapply Forall_impl; [exact Hj|]. intros k Hk. simpl in Hk.
      eapply fleb_trans; eassumption.
    + constructor; [now apply IH|]. rewrite refsort_insert_perm.
      constructor; [now apply fleb_total | exact Hj].
Qed.

Lemma refsort_argsort_positions data :
  RefSort.argsort data ≡ₚ seq 0 (length data).
Proof.
  unfold RefSort.argsort. induction (seq 0 (length data)) as [|i l IH];
    cbn [foldr]; [reflexivity|].
  now rewrite refsort_insert_perm, IH.
Qed.

Lemma refsort_argsort_ascending data :
  Forall (fun x => isnan x = false) data ->
  StronglySorted (fun i j => fleb (nth i data NaN) (nth j data NaN) = true)
                 (RefSort.argsort data).
Proof.
  intros Hnan. unfold RefSort.argsort.
  assert (Forall (fun j => (j < length data)%nat) (seq 0 (length data))) as Hvalid.
  { apply Forall_forall. intros j Hj. apply elem_of_seq in Hj. lia. }
  induction (seq 0 (length data)) as [|i l IH]; cbn [foldr]; [constructor|].
  apply Forall_cons in Hvalid as [Hi Hvalid].
  apply refsort_insert_sorted; [exact Hnan | exact Hi | | now apply IH].
  assert (foldr (RefSort.insert_index data) [] l ≡ₚ l) as Hperm.
  { clear. induction l as [|i l IH]; cbn [foldr]; [reflexivity|].
    now rewrite refsort_insert_perm, IH. }
  now rewrite Hperm.
Qed.

Section ConcreteThresholds.

Import RefSort.

Lemma scores_not_nan : Forall (fun x => isnan x = false) scores.
Proof. repeat constructor. Qed.

(** Of the scores 5, 9, 1, 7, 3, 9, 2, the threshold for two elements is
    7: the two 9 lie above it. *)
Lemma threshold_from_total_keeps_witness :
  threshold_from_total scores (PyInt 2) false = Some (of_Z 7)
  /\ Z.of_nat (count_above (of_Z 7) scores) <= 2
  /\ threshold_from_total scores (PyInt 7) false = None.
Proof.
  destruct (@threshold_from_total_keeps numpy_sort binary64 refsort_argsort_positions
              refsort_argsort_ascending scores 2 false ltac:(lia)) as [_ Hsome].
  destruct (Hsome (of_Z 7) scores_not_nan eq_refl) as (_ & Hle & _).
  split; [reflexivity|]. split; [exact Hle|].
  apply (proj1 (@threshold_from_total_keeps numpy_sort binary64
                  refsort_argsort_positions
                  refsort_argsort_ascending scores 7 false ltac:(lia))).
  simpl. lia.
Defined.

(** The float64 product of 0.7 and 10 is 7.0, although 0.7 as a float64
    lies below seven tenths: of the values 1 to 10 the element at
    position 7 is returned, which is 3, with seven values above it. *)
Lemma threshold_from_total_fraction_witness :
  (seven_tenths * 10 < 7)%Q
  /\ mul64 (Fin seven_tenths) (of_Z 10) = Fin 7
  /\ threshold_from_total ten (PyFloat (Fin seven_tenths)) false = Some (of_Z 3)
  /\ Z.of_nat (count_above (of_Z 3) ten) <= Qfloor 7.
Proof.
  split; [reflexivity|]. split; [vm_compute; reflexivity|].
  destruct (@threshold_from_total_fraction numpy_sort binary64
              refsort_argsort_positions refsort_argsort_ascending
              ten seven_tenths 7 false)
    as [_ Hsome].
  - reflexivity.
  - vm_compute. reflexivity.
  - discriminate.
  - assert (threshold_from_total ten (PyFloat (Fin seven_tenths)) false
            = Some (of_Z 3)) as Hret by (vm_compute; reflexivity).
    destruct (Hsome (of_Z 3) ltac:(repeat constructor) Hret) as (_ & Hle & _).
    split; [exact Hret | exact Hle].
Defined.

(** At most three of the scores are kept, whatever the threshold asked. *)
Lemma threshold_max_bound_witness :
  exists th,
    threshold_max scores (of_Z 4) 3 false = Some th
    /\ th ∈ scores
    /\ Z.of_nat (count_above th scores) <= 3.
Proof.
  destruct (@threshold_max_bound numpy_sort refsort_argsort_positions
              refsort_argsort_ascending scores (of_Z 4) 3 false ltac:(lia))
    as [Hret Hsome].
  destruct (Hret ltac:(simpl; lia)) as [th Hth].
  exists th. split; [exact Hth|]. exact (Hsome th scores_not_nan Hth).
Defined.

End ConcreteThresholds.

(** ** otsu *)

Lemma length_cumsum l : length (cumsum l) = length l.
Proof. apply length_cumsum_from. Qed.

(** [running_variance] gives one entry per element, and a single 0 for an
    empty array. *)
Lemma running_variance_length x :
  length (running_variance x) = Nat.max 1 (length x)
  /\ running_variance x !! 0%nat = Some (of_Z 0).
Proof.
  unfold running_variance. cbv zeta. split; [|reflexivity].
  cbn [length]. unfold vdiv, vsub, vmul, drop_last.
  rewrite !length_zip_with, length_cumsum, !length_zip_with, !length_drop,
    !length_take, !length_zip_with, !length_cumsum, !length_arange.
  lia.
Qed.

Lemma arange_step_length start stop step :
  length (arange_step start stop step)
  = Z.to_nat ((stop - start + step - 1) / step).
Proof. unfold arange_step. now rewrite length_fmap, length_seq. Qed.

Lemma arange_step_lookup start stop step k :
  (k < length (arange_step start stop step))%nat ->
  arange_step start stop step !! k = Some (start + Z.of_nat k * step).
Proof.
  rewrite arange_step_length. intros Hk. unfold arange_step.
  rewrite list_lookup_fmap, lookup_seq_lt by exact Hk. reflexivity.
Qed.

(** The positions of [arange(start, stop, step)] stay below [stop]. *)
Lemma arange_step_bound start stop step k :
  0 < step -> (k < length (arange_step start stop step))%nat ->
  start + Z.of_nat k * step < stop.
Proof.
  rewrite arange_step_length. intros Hstep Hk.
  set (c := (stop - start + step - 1) / step) in *.
  assert (step * c <= stop - start + step - 1) as Hc
    by (apply Z.mul_div_le; exact Hstep).
  assert (Z.of_nat k + 1 <= c) as Hk' by lia. nia.
Qed.

Lemma arange_step_nonempty start stop step :
  0 < step -> start < stop -> (1 <= length (arange_step start stop step))%nat.
Proof.
  rewrite arange_step_length. intros Hstep Hlt.
  assert (1 <= (stop - start + step - 1) / step); [|lia].
  apply Z.div_le_lower_bound; lia.
Qed.

Lemma elem_of_arange_step start stop step i :
  0 < step -> i ∈ arange_step start stop step -> start <= i < stop.
Proof.
  intros Hstep Hi. apply list_elem_of_lookup in Hi as [k Hk].
  pose proof (lookup_lt_Some _ _ _ Hk) as Hlt.
  rewrite arange_step_lookup in Hk by exact Hlt. injection Hk as <-.
  pose proof (arange_step_bound start stop step k Hstep Hlt). nia.
Qed.

Lemma mapM_py_index_is_Some {A} (a : list A) (idx : list Z) :
  (forall i, i ∈ idx -> 0 <= i < Z.of_nat (length a)) ->
  exists r, mapM (py_index a) idx = Some r
            /\ length r = length idx
            /\ forall k i, idx !! k = Some i -> r !! k = a !! Z.to_nat i.
Proof.
  intros Hidx.
  assert (is_Some (mapM (py_index a) idx)) as [r Hr].
  { apply mapM_is_Some, Forall_forall. intros i Hi. specialize (Hidx i Hi).
    unfold compose. rewrite py_index_nonneg by lia.
    apply lookup_lt_is_Some_2. lia. }
  exists r. split; [exact Hr|]. apply mapM_Some in Hr.
  split; [symmetry; eapply Forall2_length; exact Hr|].
  intros k i Hk. destruct (Forall2_lookup_l _ _ _ _ _ Hr Hk) as (x & Hx & Hix).
  rewrite Hx, <- Hix. apply py_index_nonneg.
  apply (Hidx i). eapply list_elem_of_lookup_2; exact Hk.
Qed.

Lemma slice_step_lookup {A} (a : list A) start step :
  0 <= start -> 0 < step ->
  length (slice_step start step a)
  = length (arange_step start (Z.of_nat (length a)) step)
  /\ forall k, (k < length (slice_step start step a))%nat ->
       slice_step start step a !! k = a !! Z.to_nat (start + Z.of_nat k * step).
Proof.
  intros Hstart Hstep. unfold slice_step.
  set (idx := arange_step start (Z.of_nat (length a)) step).
  assert (forall i, i ∈ idx -> 0 <= i < Z.of_nat (length a)) as Hidx.
  { intros i Hi. apply elem_of_arange_step in Hi; lia. }
  destruct (mapM_py_index_is_Some a idx Hidx) as (r & Hr & Hlen & Hlook).
  assert (omap (fun i => a !! Z.to_nat i) idx = r) as ->.
  { clear Hlen Hlook. revert r Hr. induction idx as [|i idx IH]; intros r Hr.
    - now injection Hr as <-.
    - cbn [mapM] in Hr. apply bind_Some in Hr as (x & Hx & Hr).
      apply bind_Some in Hr as (r' & Hr' & Hr). injection Hr as <-.
      rewrite py_index_nonneg in Hx
        by (apply (Hidx i), list_elem_of_here).
      cbn [omap list_omap]. rewrite Hx. f_equal. apply IH; [|exact Hr'].
      intros j Hj. apply Hidx. now apply list_elem_of_further. }
  split; [exact Hlen|]. intros k Hk. rewrite Hlen in Hk.
  apply Hlook. now apply arange_step_lookup.
Qed.

(** The threshold picked: the first threshold, or the mean of two
    thresholds at positions [lo <= hi]. *)
Lemma otsu_pick_spec thresholds scores :
  length thresholds = length scores -> scores <> [] ->
  exists lo hi a b r,
    otsu_pick thresholds scores = Some r
    /\ (lo <= hi < length thresholds)%nat
    /\ thresholds !! lo = Some a
    /\ thresholds !! hi = Some b
    /\ (r = a \/ r = fdiv (add64 a b) (of_Z 2))
    /\ (length thresholds = 1%nat -> r = a \/ r = fdiv (add64 a a) (of_Z 2)).
Proof.
  intros Hlen Hne. destruct scores as [|s0 rest]; [congruence|].
  assert (0 < length thresholds)%nat as Hpos by (rewrite Hlen; simpl; lia).
  destruct (lookup_lt_is_Some_2 thresholds 0 Hpos) as [t0 Ht0].
  unfold otsu_pick. cbn [np_min mbind option_bind].
  set (smin := fold_left np_minimum rest s0).
  destruct (argwhere ((fun s => feqb s smin) <$> s0 :: rest)) as [|index l] eqn:Hidx.
  { exists 0%nat, 0%nat, t0, t0, t0. rewrite Ht0. repeat split; auto; lia. }
  assert (index < length thresholds)%nat as Hindex.
  { assert (index ∈ argwhere ((fun s => feqb s smin) <$> s0 :: rest)) as Hin
      by (rewrite Hidx; apply list_elem_of_here).
    apply elem_of_argwhere in Hin. rewrite length_fmap in Hin. lia. }
  cbv zeta.
  set (lo := if Z.of_nat index =? 0 then 0 else Z.of_nat index - 1).
  set (hi := if Z.of_nat index =? Z.of_nat (length thresholds) - 1
             then Z.of_nat (length thresholds) - 1 else Z.of_nat index + 1).
  assert (0 <= lo <= hi /\ hi < Z.of_nat (length thresholds)) as Hrange.
  { unfold lo, hi. destruct (Z.eqb_spec (Z.of_nat index) 0);
      destruct (Z.eqb_spec (Z.of_nat index) (Z.of_nat (length thresholds) - 1)); lia. }
  rewrite !py_index_nonneg by lia.
  destruct (lookup_lt_is_Some_2 thresholds (Z.to_nat lo) ltac:(lia)) as [a Ha].
  destruct (lookup_lt_is_Some_2 thresholds (Z.to_nat hi) ltac:(lia)) as [b Hb].
  rewrite Ha, Hb. cbn [mbind option_bind].
  exists (Z.to_nat lo), (Z.to_nat hi), a, b, (fdiv (add64 a b) (of_Z 2)).
  split; [reflexivity|]. split; [lia|]. split; [exact Ha|]. split; [exact Hb|].
  split; [now right|]. intros Hone. right.
  assert (Z.to_nat lo = Z.to_nat hi) as E by lia. rewrite E in Ha.
  rewrite Ha in Hb. now injection Hb as <-.
Qed.

Lemma StronglySorted_lookup_lt {A} (R : relation A) l i j x y :
  StronglySorted R l -> (i < j)%nat -> l !! i = Some x -> l !! j = Some y -> R x y.
Proof.
  intros Hs Hij Hx Hy. rewrite <- (take_drop_middle _ _ _ Hx) in Hs.
  apply StronglySorted_app in Hs as (_ & _ & Hs).
  apply StronglySorted_cons in Hs as [Hrest _]. rewrite Forall_forall in Hrest.
  apply Hrest. apply list_elem_of_lookup. exists (j - S i)%nat.
  rewrite lookup_drop. rewrite <- Hy. f_equal. lia.
Qed.

Lemma half_max_twice : (half_max + half_max < overflow_threshold)%Q.
Proof. reflexivity. Qed.

(** Within half the largest float64 the sum does not overflow. *)
Lemma add64_bounded qa qb :
  (Qabs qa <= half_max)%Q -> (Qabs qb <= half_max)%Q ->
  add64 (Fin qa) (Fin qb) = fadd (Fin qa) (Fin qb).
Proof.
  intros Ha Hb. unfold add64. cbn [fadd].
  destruct (Qle_bool overflow_threshold (Qabs (Qred (qa + qb)))) eqn:E;
    [|reflexivity].
  apply Qle_bool_iff in E. rewrite (Qabs_wd _ _ (Qred_correct (qa + qb))) in E.
  pose proof (Qabs_triangle qa qb) as Htri. pose proof half_max_twice as Htwice.
  set (T := overflow_threshold) in *. set (B := half_max) in *.
  exfalso. lra.
Qed.

(** The mean of two such values lies between them. *)
Lemma midpoint_between qa qb :
  (Qabs qa <= half_max)%Q -> (Qabs qb <= half_max)%Q -> (qa <= qb)%Q ->
  let mid := fdiv (add64 (Fin qa) (Fin qb)) (of_Z 2) in
  isfinite mid = true /\ fleb (Fin qa) mid = true /\ fleb mid (Fin qb) = true.
Proof.
  intros Ha Hb Hab. cbv zeta. rewrite add64_bounded by assumption.
  destruct (feq_div_of_Z (fadd (Fin qa) (Fin qb)) (qa + qb) 2) as (m & -> & Hm);
    [apply feq_add; apply feq_Fin | lia |].
  split; [reflexivity|]. change (inject_Z 2) with 2%Q in Hm.
  split; apply fleb_Fin; rewrite Hm.
  - apply Qle_shift_div_l; [reflexivity | lra].
  - apply Qle_shift_div_r; [reflexivity | lra].
Qed.

Lemma midpoint_same q :
  (Qabs q <= half_max)%Q -> feq (fdiv (add64 (Fin q) (Fin q)) (of_Z 2)) q.
Proof.
  intros Hq. rewrite add64_bounded by assumption.
  eapply feq_Qeq; [apply feq_div_of_Z; [apply feq_add; apply feq_Fin | lia]|].
  change (inject_Z 2) with 2%Q. field.
Qed.

(** The number of bins that [otsu] ends up with. *)
Lemma otsu_bins_range n bins :
  1 <= n ->
  1 <= (if n <? (if bins <=? 0 then Z.sqrt n else bins) then n
        else if bins <=? 0 then Z.sqrt n else bins) <= n.
Proof.
  intros Hn.
  assert (1 <= Z.sqrt n <= n) as Hsqrt.
  { split; [|apply Z.sqrt_le_lin; lia].
    change 1 with (Z.sqrt 1). apply Z.sqrt_le_mono. lia. }
  set (b0 := if bins <=? 0 then Z.sqrt n else bins).
  assert (1 <= b0) as Hb0 by (unfold b0; destruct (Z.leb_spec bins 0); lia).
  destruct (Z.ltb_spec n b0); lia.
Qed.

Section OtsuProps.

Context `{NumPySort}.

(** [data.sort()] rearranges the elements ... *)
Hypothesis sort_permutation : forall data, np_sort data ≡ₚ data.

(** ... in ascending order, when no value is nan. *)
Hypothesis sort_ascending : forall data,
  Forall (fun x => isnan x = false) data ->
  StronglySorted (fun x y => fleb x y = true) (np_sort data).

Lemma length_np_sort data : length (np_sort data) = length data.
Proof. now rewrite sort_permutation. Qed.

Lemma otsu_small data bins : (length data <= 1)%nat -> otsu data bins = None.
Proof.
  intros Hlen. unfold otsu. cbv zeta.
  pose proof (length_np_sort data) as Hsort.
  destruct data as [|x [|y l]]; [| |simpl in Hlen; lia].
  - change (Z.of_nat (length (@nil float64))) with 0.
    set (b0 := if bins <=? 0 then Z.sqrt 0 else bins).
    assert (0 <= b0) as Hb0
      by (unfold b0; destruct (Z.leb_spec bins 0); [reflexivity | lia]).
    assert ((if 0 <? b0 then 0 else b0) = 0) as ->
      by (destruct (Z.ltb_spec 0 b0); lia).
    reflexivity.
  - change (Z.of_nat (length [x])) with 1 in *.
    pose proof (otsu_bins_range 1 bins ltac:(lia)) as Hb.
    set (b := if 1 <? _ then 1 else _) in *.
    assert (b = 1) as -> by lia.
    cbn [py_floordiv Z.eqb mbind option_bind].
    change (1 / 1) with 1. unfold slice_step. rewrite Hsort.
    reflexivity.
Qed.

(** The thresholds and the scores of [otsu] on at least two elements. *)
Lemma otsu_structure data bins :
  (2 <= length data)%nat ->
  exists rng scores,
    1 <= rng
    /\ rng = Z.of_nat (length data)
             / (if Z.of_nat (length data)
                   <? (if bins <=? 0 then Z.sqrt (Z.of_nat (length data)) else bins)
                then Z.of_nat (length data)
                else if bins <=? 0 then Z.sqrt (Z.of_nat (length data)) else bins)
    /\ length (slice_step 1 rng (np_sort data)) = length scores
    /\ scores <> []
    /\ otsu data bins = otsu_pick (slice_step 1 rng (np_sort data)) scores.
Proof.
  intros Hlen. unfold otsu. cbv zeta.
  set (n := Z.of_nat (length data)).
  assert (2 <= n) as Hn by (unfold n; lia).
  pose proof (otsu_bins_range n bins ltac:(lia)) as Hb.
  set (b := if n <? _ then n else _) in *.
  unfold py_floordiv. destruct (Z.eqb_spec b 0) as [?|_]; [lia|].
  cbn [mbind option_bind].
  set (rng := n / b).
  assert (1 <= rng) as Hrng.
  { unfold rng. apply Z.div_le_lower_bound; lia. }
  pose proof (length_np_sort data) as Hsort.
  set (s := np_sort data) in *.
  assert (length (running_variance s) = length data) as Hvar.
  { rewrite (proj1 (running_variance_length s)), Hsort. lia. }
  assert (length (reverse (running_variance (reverse s))) = length data) as Hrvar.
  { rewrite length_reverse, (proj1 (running_variance_length (reverse s))),
      length_reverse, Hsort. lia. }
  destruct (mapM_py_index_is_Some (running_variance s) (arange_step 0 (n - 1) rng))
    as (low & -> & Hlow & _).
  { intros i Hi. apply elem_of_arange_step in Hi; [|lia]. rewrite Hvar. fold n. lia. }
  cbn [mbind option_bind].
  destruct (mapM_py_index_is_Some (reverse (running_variance (reverse s)))
              (arange_step 1 n rng)) as (high & -> & Hhigh & _).
  { intros i Hi. apply elem_of_arange_step in Hi; [|lia]. rewrite Hrvar. fold n. lia. }
  cbn [mbind option_bind].
  eexists rng, _. split; [exact Hrng|]. split; [reflexivity|].
  assert (length (arange_step 0 (n - 1) rng) = length (arange_step 1 n rng)) as Hsame.
  { rewrite !arange_step_length. do 2 f_equal. lia. }
  assert (1 <= length (arange_step 1 n rng))%nat as Hm
    by (apply arange_step_nonempty; lia).
  assert (length (vadd (vmul low (of_Z <$> arange_step 0 (n - 1) rng))
                       (vmul high ((fun i => of_Z (n - i)) <$> arange_step 1 n rng)))
          = length (arange_step 1 n rng)) as Hscores.
  { unfold vadd, vmul. rewrite !length_zip_with, !length_fmap. lia. }
  split; [|split; [|reflexivity]].
  - rewrite Hscores.
    rewrite (proj1 (slice_step_lookup s 1 rng ltac:(lia) ltac:(lia))).
    rewrite Hsort. reflexivity.
  - intros E. rewrite E in Hscores. simpl in Hscores. lia.
Qed.

(** X21.  [otsu] returns exactly when [data] has at least two elements,
    whatever their values and whatever the number of bins asked for: an
    empty array raises at the division by the number of bins, a single
    element leaves no threshold to return. *)
Theorem otsu_returns_iff (data : list float64) (bins : Z) :
  ((length data <= 1)%nat -> otsu data bins = None)
  /\ ((2 <= length data)%nat -> is_Some (otsu data bins)).
Proof.
  split; [apply otsu_small|]. intros Hlen.
  destruct (otsu_structure data bins Hlen) as (rng & scores & _ & _ & Hl & Hne & ->).
  destruct (otsu_pick_spec _ _ Hl Hne) as (lo & hi & a & b & r & -> & _). eauto.
Qed.

Lemma otsu_thresholds data rng k t :
  1 <= rng ->
  slice_step 1 rng (np_sort data) !! k = Some t ->
  np_sort data !! Z.to_nat (1 + Z.of_nat k * rng) = Some t
  /\ (1 <= Z.to_nat (1 + Z.of_nat k * rng) < length data)%nat.
Proof.
  intros Hrng Ht. pose proof (lookup_lt_Some _ _ _ Ht) as Hk.
  destruct (slice_step_lookup (np_sort data) 1 rng ltac:(lia) ltac:(lia))
    as [_ Hlook].
  rewrite (Hlook k Hk) in Ht. split; [exact Ht|].
  apply lookup_lt_Some in Ht. rewrite length_np_sort in Ht. nia.
Qed.

(** X22.  On data of magnitude at most half the largest float64, so that
    the sum of two thresholds cannot overflow, a threshold returned by
    [otsu] is finite and lies between the second smallest and the largest
    element of [data].  (Beyond that bound the sum overflows and the
    result is an infinity; the rounding of finite results is not
    modelled.) *)
Theorem otsu_range (data : list float64) (bins : Z) (th : float64) :
  Forall (fun x => exists q, x = Fin q /\ (Qabs q <= half_max)%Q) data ->
  otsu data bins = Some th ->
  exists second largest,
    np_sort data !! 1%nat = Some second
    /\ last (np_sort data) = Some largest
    /\ isfinite th = true
    /\ fleb second th = true
    /\ fleb th largest = true.
Proof.
  intros Hbound Hret.
  assert (2 <= length data)%nat as Hlen.
  { destruct (le_lt_dec (length data) 1) as [Hs|Hs]; [|lia].
    rewrite (otsu_small data bins Hs) in Hret. discriminate. }
  assert (Forall (fun x => exists q, x = Fin q /\ (Qabs q <= half_max)%Q)
                 (np_sort data)) as Hbound'
    by (now rewrite sort_permutation).
  assert (Forall (fun x => isnan x = false) data) as Hnan.
  { eapply Forall_impl; [exact Hbound|]. intros x (q & -> & _). reflexivity. }
  pose proof (sort_ascending data Hnan) as Hsorted.
  pose proof (length_np_sort data) as Hsort.
  set (s := np_sort data) in *.
  assert (forall i x, s !! i = Some x ->
            exists q, x = Fin q /\ (Qabs q <= half_max)%Q) as Hbounded.
  { intros i x Hx. rewrite Forall_forall in Hbound'. apply Hbound'.
    eapply list_elem_of_lookup_2; exact Hx. }
  assert (forall i j x y, (i <= j)%nat -> s !! i = Some x -> s !! j = Some y ->
                          fleb x y = true) as Hle.
  { intros i j x y Hij Hx Hy. destruct (decide (i = j)) as [->|Hne].
    - rewrite Hx in Hy. injection Hy as <-.
      destruct (Hbounded _ _ Hx) as (q & -> & _). now apply fleb_refl.
    - apply (StronglySorted_lookup_lt (fun x y => fleb x y = true) s i j x y);
        [exact Hsorted | lia | exact Hx | exact Hy]. }
  destruct (lookup_lt_is_Some_2 s 1 ltac:(lia)) as [second Hsecond].
  destruct (lookup_lt_is_Some_2 s (length s - 1) ltac:(lia)) as [largest Hlargest].
  exists second, largest. split; [exact Hsecond|].
  split; [rewrite last_lookup; rewrite <- Hlargest; f_equal; lia|].
  destruct (otsu_structure data bins Hlen)
    as (rng & scores & Hrng & _ & Hl & Hne & Heq).
  fold s in Hl, Heq. rewrite Heq in Hret.
  destruct (otsu_pick_spec _ _ Hl Hne)
    as (lo & hi & a & b & r & Hr & Hlohi & Ha & Hb & Hcase & _).
  rewrite Hr in Hret. injection Hret as ->.
  destruct (otsu_thresholds data rng lo a Hrng Ha) as [Ha' Hpa].
  destruct (otsu_thresholds data rng hi b Hrng Hb) as [Hb' Hpb].
  fold s in Ha', Hb'.
  assert (fleb second a = true) as H1.
  { eapply (Hle 1%nat); [|exact Hsecond | exact Ha']. lia. }
  assert (fleb a b = true) as H2.
  { eapply Hle; [|exact Ha' | exact Hb']. apply Z2Nat.inj_le; nia. }
  assert (fleb b largest = true) as H3.
  { eapply Hle; [|exact Hb' | exact Hlargest]. lia. }
  destruct (Hbounded _ _ Ha') as (qa & -> & Hqa).
  destruct (Hbounded _ _ Hb') as (qb & -> & Hqb).
  destruct Hcase as [->| ->].
  - split; [reflexivity|]. split; [exact H1|]. eapply fleb_trans; eassumption.
  - destruct (midpoint_between qa qb Hqa Hqb (proj1 (fleb_Fin qa qb) H2))
      as (Hf & Hl1 & Hl2).
    split; [exact Hf|]. split; eapply fleb_trans; eassumption.
Qed.

(** X23.  With a single bin, and by default for two or three elements,
    [otsu] has one threshold only and does not look at the variances: it
    returns the second smallest element, when this is finite and of
    magnitude at most half the largest float64 (beyond that the sum
    [t + t] overflows). *)
Theorem otsu_one_bin (data : list float64) (bins : Z) (th : float64) (q : Q) :
  bins = 1 \/ (bins <= 0 /\ (length data <= 3)%nat) ->
  np_sort data !! 1%nat = Some (Fin q) ->
  (Qabs q <= half_max)%Q ->
  otsu data bins = Some th ->
  feq th q.
Proof.
  intros Hbins Hsecond Hq Hret.
  assert (2 <= length data)%nat as Hlen.
  { apply lookup_lt_Some in Hsecond. rewrite length_np_sort in Hsecond. lia. }
  destruct (otsu_structure data bins Hlen)
    as (rng & scores & Hrng & Hdef & Hl & Hne & Heq).
  set (n := Z.of_nat (length data)) in *.
  assert (2 <= n) as Hn by (unfold n; lia).
  assert (rng = n) as ->.
  { rewrite Hdef. destruct Hbins as [->|[Hneg Hsmall]].
    - cbn [Z.leb Z.compare]. destruct (Z.ltb_spec n 1); [lia | apply Z.div_1_r].
    - destruct (Z.leb_spec bins 0); [|lia].
      assert (Z.sqrt n = 1) as -> by (apply Z.sqrt_unique; unfold n; lia).
      destruct (Z.ltb_spec n 1); [lia | apply Z.div_1_r]. }
  destruct (slice_step_lookup (np_sort data) 1 n ltac:(lia) ltac:(lia))
    as [Hcount Hlook].
  assert (length (slice_step 1 n (np_sort data)) = 1%nat) as Hone.
  { rewrite Hcount, arange_step_length, length_np_sort. fold n.
    replace (n - 1 + n - 1) with (1 * n + (n - 2)) by lia.
    rewrite Z.div_add_l by lia. rewrite Z.div_small by lia. reflexivity. }
  destruct (otsu_pick_spec _ _ Hl Hne)
    as (lo & hi & a & b & r & Hr & Hlohi & Ha & _ & _ & Hcase).
  rewrite Heq, Hr in Hret. injection Hret as ->.
  assert (lo = 0%nat) as -> by lia.
  rewrite Hlook in Ha by lia. change (Z.to_nat (1 + Z.of_nat 0 * n)) with 1%nat in Ha.
  rewrite Hsecond in Ha. injection Ha as <-.
  destruct (Hcase Hone) as [->| ->]; [apply feq_Fin|].
  now apply midpoint_same.
Qed.

End OtsuProps.

Lemma refsort_sort_permutation data : RefSort.sort data ≡ₚ data.
Proof.
  unfold RefSort.sort. rewrite refsort_argsort_positions. now rewrite fmap_nth_seq.
Qed.

Lemma refsort_sort_ascending data :
  Forall (fun x => isnan x = false) data ->
  StronglySorted (fun x y => fleb x y = true) (RefSort.sort data).
Proof.
  intros Hnan. unfold RefSort.sort.
  apply (StronglySorted_fmap _
           (fun i j => fleb (nth i data NaN) (nth j data NaN) = true)).
  - intros i j Hij. exact Hij.
  - now apply refsort_argsort_ascending.
Qed.

Section ConcreteOtsu.

Import RefSort.

(** Seven scores give a threshold; one score gives none. *)
Lemma otsu_returns_iff_witness :
  otsu [of_Z 4] 0 = None /\ is_Some (otsu scores 0).
Proof.
  split.
  - apply (proj1 (@otsu_returns_iff numpy_sort refsort_sort_permutation [of_Z 4] 0)).
    simpl. lia.
  - apply (proj2 (@otsu_returns_iff numpy_sort refsort_sort_permutation scores 0)).
    simpl. lia.
Defined.

(** The threshold of the seven scores lies between 2 and 9. *)
Lemma otsu_range_witness :
  exists th,
    otsu scores 0 = Some th
    /\ fleb (of_Z 2) th = true /\ fleb th (of_Z 9) = true.
Proof.
  assert (is_Some (otsu scores 0)) as [th Hth] by (vm_compute; eauto).
  assert (Forall (fun x => exists q, x = Fin q /\ (Qabs q <= half_max)%Q) scores)
    as Hbound
    by (unfold scores; cbn [fmap list_fmap];
        repeat (apply Forall_cons; split;
                [eexists; split;
                 [reflexivity | apply Qle_bool_iff; reflexivity]|]);
        constructor).
  destruct (@otsu_range numpy_sort refsort_sort_permutation refsort_sort_ascending
              scores 0 th Hbound Hth)
    as (second & largest & Hsecond & Hlargest & _ & Hlo & Hhi).
  vm_compute in Hsecond. injection Hsecond as <-.
  vm_compute in Hlargest. injection Hlargest as <-.
  exists th. split; [exact Hth|]. split; [exact Hlo | exact Hhi].
Defined.

(** Of three values the middle one is returned. *)
Lemma otsu_one_bin_witness :
  exists th, otsu (of_Z <$> [3; 1; 2]) 0 = Some th /\ feq th 2.
Proof.
  assert (is_Some (otsu (of_Z <$> [3; 1; 2]) 0)) as [th Hth] by (vm_compute; eauto).
  exists th. split; [exact Hth|].
  apply (@otsu_one_bin numpy_sort refsort_sort_permutation
           (of_Z <$> [3; 1; 2]) 0 th 2);
    [right; simpl; lia | reflexivity | apply Qle_bool_iff; reflexivity
    | exact Hth].
Defined.

(** Beyond half the largest float64 the sum of the two thresholds
    overflows: of 0, 1.5e308 and 1.7e308 the result is an infinity. *)
Lemma otsu_overflows :
  otsu (Fin <$> [0%Q; inject_Z (15 * 10 ^ 307); inject_Z (17 * 10 ^ 307)]) 0
  = Some PInf.
Proof. vm_compute. reflexivity. Qed.

End ConcreteOtsu.

(** ** pca: a fraction of the variance *)

Lemma fold_fadd_nonneg l : forall a,
  (0 <= a)%Q ->
  Forall (fun x => exists q, x = Fin q /\ (0 <= q)%Q) l ->
  exists s, fold_left fadd l (Fin a) = Fin s /\ (a <= s)%Q
            /\ (Exists (fun x => exists q, x = Fin q /\ (0 < q)%Q) l -> (a < s)%Q).
Proof.
  induction l as [|x l IH]; intros a Ha Hl.
  - exists a. split; [reflexivity|]. split; [lra|]. intros Hex. inversion Hex.
  - apply Forall_cons in Hl as [(q & -> & Hq) Hl]. cbn [fold_left fadd].
    assert (Qred (a + q) == a + q)%Q as Hred by apply Qred_correct.
    destruct (IH (Qred (a + q)) ltac:(lra) Hl) as (s & Hs & Hle & Hlt).
    exists s. split; [exact Hs|]. split; [lra|].
    intros Hex. apply Exists_cons in Hex as [(q' & [= <-] & Hpos)|Hex]; [lra|].
    specialize (Hlt Hex). lra.
Qed.

Lemma cumsum_from_sorted l : forall a,
  Forall (fun x => exists q, x = Fin q /\ (0 <= q)%Q) l ->
  Forall (fun x => isfinite x = true /\ fleb (Fin a) x = true)
         (cumsum_from (Fin a) l)
  /\ StronglySorted (fun x y => fleb x y = true) (cumsum_from (Fin a) l).
Proof.
  induction l as [|x l IH]; intros a Hl; cbn [cumsum_from].
  - split; constructor.
  - apply Forall_cons in Hl as [(q & -> & Hq) Hl]. cbn [fadd].
    assert (Qred (a + q) == a + q)%Q as Hred by apply Qred_correct.
    destruct (IH (Qred (a + q)) Hl) as [Hall Hs].
    assert (fleb (Fin a) (Fin (Qred (a + q))) = true) as Hstep
      by (apply fleb_Fin; lra).
    split.
    + constructor; [split; [reflexivity | exact Hstep]|].
      eapply Forall_impl; [exact Hall|]. intros y [Hy1 Hy2].
      split; [exact Hy1|]. eapply fleb_trans; eassumption.
    + constructor; [exact Hs|].
      eapply Forall_impl; [exact Hall|]. intros y [_ Hy]. exact Hy.
Qed.

(** In an ascending list the elements below a bound form a prefix. *)
Lemma count_below_prefix (frac : float64) c :
  StronglySorted (fun x y => fleb x y = true) c ->
  forall j x, c !! j = Some x ->
    (fltb x frac = true
     <-> (j < count_true ((fun y => fltb y frac) <$> c))%nat).
Proof.
  induction 1 as [|y c Hs IH Hy]; intros j x Hx; [discriminate|].
  rewrite fmap_cons. cbn [count_true].
  destruct (fltb y frac) eqn:Hyf.
  - destruct j as [|j]; [injection Hx as <-; split; [lia | auto]|].
    rewrite (IH j x Hx). lia.
  - rewrite (count_true_none (fun y => fltb y frac) c).
    + assert (fltb x frac = false) as ->; [|split; [discriminate | lia]].
      destruct j as [|j]; [now injection Hx as <-|].
      rewrite Forall_forall in Hy.
      assert (fleb y x = true) as Hyx
        by (apply Hy; eapply list_elem_of_lookup_2; exact Hx).
      destruct (fltb x frac) eqn:Hxf; [|reflexivity].
      rewrite (fleb_fltb_trans _ _ _ Hyx Hxf) in Hyf. discriminate.
    + intros z Hz. rewrite Forall_forall in Hy. specialize (Hy z Hz).
      destruct (fltb z frac) eqn:Hzf; [|reflexivity].
      rewrite (fleb_fltb_trans _ _ _ Hy Hzf) in Hyf. discriminate.
Qed.

(** The normalised spectrum of finite singular values, not all zero, has
    finite entries that are not negative. *)
Lemma spectrum_of_nonneg d n :
  (0 < n)%nat ->
  Forall (fun x => isfinite x = true) d ->
  Exists (fun x => feqb x (of_Z 0) = false) d ->
  Forall (fun x => exists q, x = Fin q /\ (0 <= q)%Q) (spectrum_of d n).
Proof.
  intros Hn Hfin Hnz. unfold spectrum_of. cbv zeta.
  set (t := (fun x => fdiv (fmul x x) (of_nat n)) <$> d).
  assert (0 < inject_Z (Z.of_nat n))%Q as Hn'
    by (change 0%Q with (inject_Z 0); rewrite <- Zlt_Qlt; lia).
  assert (forall x, isfinite x = true ->
            exists q, fdiv (fmul x x) (of_nat n) = Fin q /\ (0 <= q)%Q
                      /\ (feqb x (of_Z 0) = false -> 0 < q)%Q) as Hsq.
  { intros [a| | |] Ha; try discriminate.
    destruct (feq_div_of_Z (fmul (Fin a) (Fin a)) (a * a) (Z.of_nat n))
      as (q & Hq & Hqa); [apply feq_mul; apply feq_Fin | lia |].
    exists q. unfold of_nat. split; [exact Hq|].
    assert (0 <= a * a)%Q as Haa by nra.
    split.
    - rewrite Hqa. apply Qle_shift_div_l; [exact Hn' | lra].
    - intros Hne. rewrite Hqa. apply Qlt_shift_div_l; [exact Hn'|].
      assert (~ a == 0)%Q as Ha0.
      { intros E. simpl in Hne. apply Z.eqb_neq in Hne. apply Hne.
        unfold Qeq in E. simpl in *. lia. }
      nra. }
  assert (Forall (fun x => exists q, x = Fin q /\ (0 <= q)%Q) t) as Ht.
  { unfold t. apply Forall_fmap, Forall_forall. intros x Hx.
    rewrite Forall_forall in Hfin. destruct (Hsq x (Hfin x Hx)) as (q & Hq & Hq0 & _).
    cbn [compose]. eauto. }
  assert (Exists (fun x => exists q, x = Fin q /\ (0 < q)%Q) t) as Hpos.
  { unfold t. apply Exists_fmap. apply Exists_exists in Hnz as (x & Hx & Hne).
    apply Exists_exists. exists x. split; [exact Hx|].
    rewrite Forall_forall in Hfin. destruct (Hsq x (Hfin x Hx)) as (q & Hq & _ & Hq1).
    cbn [compose]. eauto. }
  destruct (fold_fadd_nonneg t 0 ltac:(lra) Ht) as (s & Hs & _ & Hspos).
  specialize (Hspos Hpos). unfold np_sum. rewrite Hs.
  apply Forall_fmap. eapply Forall_impl; [exact Ht|].
  intros x (q & -> & Hq). cbn [compose].
  destruct (feq_div (Fin q) (Fin s) q s (feq_Fin q) (feq_Fin s) ltac:(lra))
    as (r & -> & Hr).
  exists r. split; [reflexivity|]. rewrite Hr.
  apply Qle_shift_div_l; [exact Hspos | lra].
Qed.

Section PCAFraction.

Context `{NumPy} `{SciPy}.

Lemma pca_rank_fraction frac d t n p :
  fltb (of_Z 0) frac = true -> fltb frac (of_Z 1) = true ->
  pca_rank frac d t n p
  = Some (Z.of_nat (count_true ((fun c => fltb c frac) <$> cumsum t)) + 1).
Proof.
  intros Hf0 Hf1. unfold pca_rank, fgtb. rewrite Hf0.
  destruct frac as [q| | |]; try discriminate.
  apply fltb_Fin in Hf0. apply fltb_Fin in Hf1.
  change (inject_Z 0) with 0%Q in Hf0. change (inject_Z 1) with 1%Q in Hf1.
  assert (fleb (of_Z 1) (Fin q) = false) as ->.
  { destruct (fleb (of_Z 1) (Fin q)) eqn:E; [|reflexivity].
    apply fleb_Fin in E. change (inject_Z 1) with 1%Q in E. lra. }
  assert (feqb (Fin q) (of_Z 0) = false) as ->; [|reflexivity].
  apply Z.eqb_neq. unfold Qlt in Hf0. simpl in *. lia.
Qed.

(** X24.  With [0 < frac < 1], [pca] counts the entries of the cumulative
    spectrum below [frac] and adds one; the final guard replaces a count
    that reaches [len(d)] by 1.  For finite singular values, not all zero,
    the count [m] is the smallest number of components whose cumulative
    share of the variance reaches [frac]: the shares of fewer components
    are below [frac], those of [m] or more are not. *)
Theorem pca_fraction_mode (trn : matrix) (tst : option matrix) (frac : float64)
    (r : matrix * Z * matrix * float64) :
  fltb (of_Z 0) frac = true -> fltb frac (of_Z 1) = true ->
  pca trn tst frac = Some r ->
  exists U d V m,
    svd (centered trn) = Some (U, d, V)
    /\ (1 <= m <= length d + 1)%nat
    /\ pca_idx r = (if (m <? length d)%nat then Z.of_nat m else 1)
    /\ ((0 < nrows trn)%nat ->
        Forall (fun x => isfinite x = true) d ->
        Exists (fun x => feqb x (of_Z 0) = false) d ->
        forall j x, cumsum (spectrum_of d (nrows trn)) !! j = Some x ->
          ((j < m - 1)%nat -> fltb x frac = true)
          /\ ((m - 1 <= j)%nat -> fleb frac x = true)).
Proof.
  intros Hf0 Hf1 Hret.
  destruct (pca_Some _ _ _ _ Hret)
    as (U & d & V & idx0 & Hsvd & Hrank & Hidx & _ & Hlt).
  rewrite pca_rank_fraction in Hrank by assumption. injection Hrank as <-.
  set (t := spectrum_of d (nrows trn)) in *.
  set (k := count_true ((fun c => fltb c frac) <$> cumsum t)) in *.
  assert (k <= length d)%nat as Hk.
  { unfold k. pose proof (count_true_le_length ((fun c => fltb c frac) <$> cumsum t)) as Hle.
    rewrite length_fmap, length_cumsum in Hle. unfold t, spectrum_of in Hle.
    now rewrite !length_fmap in Hle. }
  exists U, d, V, (S k). split; [exact Hsvd|]. split; [lia|]. split.
  - rewrite Hidx. unfold pca_guard.
    destruct (Z.leb_spec (Z.of_nat (length d)) (Z.of_nat k + 1));
      destruct (Nat.ltb_spec (S k) (length d)); lia.
  - intros Hn Hfin Hnz j x Hx.
    pose proof (spectrum_of_nonneg d (nrows trn) Hn Hfin Hnz) as Hnonneg.
    fold t in Hnonneg.
    destruct (cumsum_from_sorted t 0 Hnonneg) as [Hall Hsorted].
    fold (cumsum t) in Hall, Hsorted.
    pose proof (count_below_prefix frac (cumsum t) Hsorted j x Hx) as Hiff.
    fold k in Hiff. replace (S k - 1)%nat with k by lia. split.
    + intros Hj. now apply Hiff.
    + intros Hj. rewrite Forall_forall in Hall.
      destruct (Hall x (list_elem_of_lookup_2 _ _ _ Hx)) as [Hxf _].
      apply fltb_false_fleb; [exact Hxf | now destruct frac|].
      destruct (fltb x frac) eqn:E; [|reflexivity].
      pose proof (proj1 Hiff eq_refl). lia.
Qed.

End PCAFraction.

Section ConcreteFraction.

Import Ref.

(** 95% of the variance of [gentle] takes two components. *)
Lemma pca_fraction_mode_witness :
  pca_idx <$> pca gentle None (Fin (19 # 20)) = Some 2
  /\ exists r U d V m,
       pca gentle None (Fin (19 # 20)) = Some r
       /\ svd (centered gentle) = Some (U, d, V)
       /\ pca_idx r = (if (m <? length d)%nat then Z.of_nat m else 1).
Proof.
  split; [vm_compute; reflexivity|].
  assert (is_Some (pca gentle None (Fin (19 # 20)))) as [r Hr] by (vm_compute; eauto).
  destruct (@pca_fraction_mode numpy scipy gentle None (Fin (19 # 20)) r
              eq_refl eq_refl Hr) as (U & d & V & m & Hsvd & _ & Hidx & _).
  exists r, U, d, V, m. auto.
Defined.

End ConcreteFraction.
